(** * go-cp: the concurrent copier of package [cp]

    A shallow embedding of [Copier.Copy], [copyFile] and the private
    [copier] (walker, worker pool, error collector), of [Failures.Error]
    and of the command [cp], over an in-memory model of the filesystem
    port the package is written against ([afero.Fs]).

    - Paths are Go strings; [strings.Replace], [filepath.Join],
      [filepath.Clean] and [filepath.Dir] are functions on [string].
    - The filesystem is a finite map from resolved paths (lists of path
      elements) to nodes, with POSIX error codes; every call on it is
      recorded in a trace.
    - The goroutines of a directory copy are a transition system whose
      steps are the atomic actions of the walker, the workers and the
      collector; an execution is a list of actions. A visit of
      [afero.Walk], a hand-off on a channel and a call of [copyFile] are
      one step each; the worker goroutines exist from the start.
    - Properties of the directory copy are invariants of all executions;
      concrete executions are run on small fixtures. *)

From stdpp Require Import gmap strings list fin_maps sorting.
From Stdlib Require Import ZArith Ascii.

(** ** Strings and paths *)

Module Path.

Definition is_sep (c : ascii) : bool := Ascii.eqb c "/".

(** [strings.Split(s, "/")]. *)
Fixpoint Split (s : string) : list string :=
  match s with
  | EmptyString => [EmptyString]
  | String c s' =>
      if is_sep c then EmptyString :: Split s'
      else match Split s' with
           | [] => [String c EmptyString]
           | t :: ts => String c t :: ts
           end
  end.

(** [strings.Join(l, "/")]. *)
Fixpoint Join (l : list string) : string :=
  match l with
  | [] => ""
  | x :: l' => match l' with [] => x | _ :: _ => x +:+ "/" +:+ Join l' end
  end.

Fixpoint drop_chars (n : nat) (s : string) : string :=
  match n, s with
  | S n', String _ s' => drop_chars n' s'
  | _, _ => s
  end.

(** [strings.Replace(s, old, new, 1)]: the first occurrence of [old] in [s]
    is replaced by [new]; an empty [old] matches at the beginning. *)
Fixpoint Replace1 (s old new : string) : string :=
  if String.prefix old s then new +:+ drop_chars (String.length old) s
  else match s with
       | EmptyString => EmptyString
       | String c s' => String c (Replace1 s' old new)
       end.

(** One path element pushed on the stack of elements kept so far (most
    recent first), as [filepath.Clean] treats it. *)
Definition clean_step (rooted : bool) (stack : list string) (c : string)
  : list string :=
  if String.eqb c "" || String.eqb c "." then stack
  else if String.eqb c ".." then
    match stack with
    | top :: rest => if String.eqb top ".." then c :: stack else rest
    | [] => if rooted then [] else [c]
    end
  else c :: stack.

Definition clean_elems (rooted : bool) (l : list string) : list string :=
  rev (fold_left (clean_step rooted) l []).

Definition rooted (s : string) : bool :=
  match s with String c _ => is_sep c | EmptyString => false end.

(** [filepath.Clean] (Unix). *)
Definition Clean (s : string) : string :=
  let out := (if rooted s then "/" else "")
               +:+ Join (clean_elems (rooted s) (Split s)) in
  if String.eqb out "" then "." else out.

(** [filepath.Join(a, b)]: empty elements are ignored, the result is
    cleaned, and the join of two empty strings is the empty string. *)
Definition Join2 (a b : string) : string :=
  if negb (String.eqb a "") then Clean (a +:+ "/" +:+ b)
  else if negb (String.eqb b "") then Clean b
  else "".

(** [path[:i+1]] for the last separator index [i] ([""] without one). *)
Fixpoint up_to_last_sep (s : string) : string :=
  match s with
  | EmptyString => EmptyString
  | String c s' =>
      let r := up_to_last_sep s' in
      if is_sep c then String c r
      else match r with EmptyString => EmptyString | _ => String c r end
  end.

(** [filepath.Dir] (Unix). *)
Definition Dir (s : string) : string := Clean (up_to_last_sep s).

(** The elements a path resolves to from the root directory, which is also
    the working directory of the model. *)
Definition key (p : string) : list string := clean_elems true (Split p).

End Path.

(** ** The filesystem port *)

Inductive errno := ENOENT | ENOTDIR | EISDIR | EBADF.

#[warnings="-register-all"]
Inductive error :=
  | PathError (op path : string) (e : errno)
  | Wrap (msg : string) (cause : error)
  | ErrClobberAvoided (path : string)
  | Failures (list : list error).

(** [os.IsNotExist]: false on [nil] and on every error that is not a
    not-exist error of the filesystem. *)
Definition os_IsNotExist (err : option error) : bool :=
  match err with
  | Some (PathError _ _ ENOENT) => true
  | _ => false
  end.

Inductive node :=
  | File (perm : N) (data : string)
  | Dir (perm : N).

Record FileInfo := { IsDir : bool; Mode : N }.

Definition info_of (n : node) : FileInfo :=
  match n with
  | File perm _ => {| IsDir := false; Mode := perm |}
  | Dir perm => {| IsDir := true; Mode := perm |}
  end.

(** The calls made on the port, as they arrive. *)
Inductive call :=
  | CallStat (p : string)
  | CallLstat (p : string)
  | CallReadDirNames (p : string)
  | CallOpen (p : string)
  | CallMkdirAll (p : string) (perm : N)
  | CallOpenFile (p : string) (flag : Z) (perm : N)
  | CallWrite (k : list string).

Record world := {
  files : gmap (list string) node;
  trace : list call
}.

Definition O_RDWR : Z := 2.
Definition O_CREATE : Z := 64.
Definition O_TRUNC : Z := 512.

Definition has_flag (flag bit : Z) : bool := negb (Z.land flag bit =? 0)%Z.

Module Port.

(** Path resolution from [pre], element by element. *)
Fixpoint resolve_from (fs : gmap (list string) node) (pre rest : list string)
  : errno + node :=
  match fs !! pre with
  | None => inl ENOENT
  | Some n =>
      match rest with
      | [] => inr n
      | c :: rest' =>
          match n with
          | Dir _ => resolve_from fs (pre ++ [c]) rest'
          | File _ _ => inl ENOTDIR
          end
      end
  end.

Definition resolve (fs : gmap (list string) node) (k : list string)
  : errno + node := resolve_from fs [] k.

(** The monad of port calls: a call changes the world and fails or
    returns. *)
Definition io (A : Type) : Type := world → (error + A) * world.

Definition ret {A} (a : A) : io A := λ w, (inr a, w).

Definition bind {A B} (m : io A) (k : A → io B) : io B :=
  λ w, match m w with
       | (inl e, w') => (inl e, w')
       | (inr a, w') => k a w'
       end.

(** [errors.Wrap] around a failing call. *)
Definition wrap {A} (msg : string) (m : io A) : io A :=
  λ w, match m w with
       | (inl e, w') => (inl (Wrap msg e), w')
       | r => r
       end.

Definition log (c : call) : io unit :=
  λ w, (inr tt, {| files := files w; trace := trace w ++ [c] |}).

Definition get_files : io (gmap (list string) node) := λ w, (inr (files w), w).

Definition put_files (fs : gmap (list string) node) : io unit :=
  λ w, (inr tt, {| files := fs; trace := trace w |}).

Definition fail {A} (e : error) : io A := λ w, (inl e, w).

End Port.

#[global] Instance io_ret : MRet Port.io := @Port.ret.
#[global] Instance io_bind : MBind Port.io := λ A B k m, Port.bind m k.

Module Fs.
Import Port.

Definition stat_as (c : call) (op p : string) : io FileInfo :=
  log c;;
  fs ← get_files;
  match resolve fs (Path.key p) with
  | inl e => fail (PathError op p e)
  | inr n => ret (info_of n)
  end.

Definition Stat (p : string) : io FileInfo := stat_as (CallStat p) "stat" p.
Definition Lstat (p : string) : io FileInfo := stat_as (CallLstat p) "lstat" p.

(** [fs.Open]: a handle for reading; directories open too. *)
Definition Open (p : string) : io (list string) :=
  log (CallOpen p);;
  fs ← get_files;
  match resolve fs (Path.key p) with
  | inl e => fail (PathError "open" p e)
  | inr _ => ret (Path.key p)
  end.

(** [File.Stat] on an open handle. *)
Definition File_Stat (h : list string) : io FileInfo :=
  fs ← get_files;
  match fs !! h with
  | Some n => ret (info_of n)
  | None => fail (PathError "stat" (Path.Join h) EBADF)
  end.

Fixpoint mkdir_from (fs : gmap (list string) node) (pre rest : list string)
  (perm : N) : errno + gmap (list string) node :=
  match fs !! pre with
  | None => inl ENOENT
  | Some (File _ _) => inl ENOTDIR
  | Some (Dir _) =>
      match rest with
      | [] => inr fs
      | c :: rest' =>
          let k := pre ++ [c] in
          let fs' := match fs !! k with
                     | None => <[k := Dir perm]> fs
                     | Some _ => fs
                     end in
          mkdir_from fs' k rest' perm
      end
  end.

(** [fs.MkdirAll]: every missing directory on the way is created with
    [perm]; a regular file on the way is an error. *)
Definition MkdirAll (p : string) (perm : N) : io unit :=
  log (CallMkdirAll p perm);;
  fs ← get_files;
  match mkdir_from fs [] (Path.key p) perm with
  | inl e => fail (PathError "mkdir" p e)
  | inr fs' => put_files fs'
  end.

(** [fs.OpenFile] for the flags the package uses: an existing regular file
    is opened as it is, and emptied only under [O_TRUNC]; a missing one is
    created empty with [perm] under [O_CREATE]. *)
Definition OpenFile (p : string) (flag : Z) (perm : N) : io (list string) :=
  log (CallOpenFile p flag perm);;
  fs ← get_files;
  let k := Path.key p in
  match resolve fs k with
  | inr (Dir _) =>
      if has_flag flag O_RDWR then fail (PathError "open" p EISDIR) else ret k
  | inr (File m _) =>
      if has_flag flag O_TRUNC
      then put_files (<[k := File m ""]> fs);; ret k
      else ret k
  | inl ENOENT =>
      if has_flag flag O_CREATE then
        match resolve fs (removelast k) with
        | inr (Dir _) => put_files (<[k := File perm ""]> fs);; ret k
        | inr (File _ _) => fail (PathError "open" p ENOTDIR)
        | inl e => fail (PathError "open" p e)
        end
      else fail (PathError "open" p ENOENT)
  | inl e => fail (PathError "open" p e)
  end.

(** What a file holds after [new] is written from offset 0 over [old]. *)
Definition overwrite (old new : string) : string :=
  new +:+ Path.drop_chars (String.length new) old.

(** [io.Copy(dst, src)] on two open handles, both at offset 0. *)
Definition io_Copy (dst src : list string) : io nat :=
  log (CallWrite dst);;
  fs ← get_files;
  match fs !! src with
  | Some (File _ d) =>
      match fs !! dst with
      | Some (File m old) =>
          put_files (<[dst := File m (overwrite old d)]> fs);;
          ret (String.length d)
      | _ => fail (PathError "write" (Path.Join dst) EBADF)
      end
  | Some (Dir _) => fail (PathError "read" (Path.Join src) EISDIR)
  | None => fail (PathError "read" (Path.Join src) EBADF)
  end.

(** Names of the entries of directory [k], sorted as [readDirNames] does. *)
Fixpoint strip (k k' : list string) : option (list string) :=
  match k, k' with
  | [], r => Some r
  | a :: k1, b :: k1' => if String.eqb a b then strip k1 k1' else None
  | _ :: _, [] => None
  end.

Definition child_name (k k' : list string) : option string :=
  match strip k k' with
  | Some [n] => Some n
  | _ => None
  end.

Definition string_le (a b : string) : Prop := String.leb a b = true.

#[global] Instance string_le_dec a b : Decision (string_le a b) :=
  decide (String.leb a b = true).

Definition readDirNames (fs : gmap (list string) node) (k : list string)
  : list string :=
  merge_sort string_le (omap (λ e, child_name k e.1) (map_to_list fs)).

(** [readDirNames] as [afero.Walk] calls it on a visited directory. *)
Definition ReadDirNames (p : string) : io (list string) :=
  log (CallReadDirNames p);;
  fs ← get_files;
  match resolve fs (Path.key p) with
  | inr (Dir _) => ret (readDirNames fs (Path.key p))
  | inr (File _ _) => fail (PathError "readdirent" p ENOTDIR)
  | inl e => fail (PathError "open" p e)
  end.

(** What a path resolves to in a world. *)
Definition lookup (w : world) (p : string) : errno + node :=
  resolve (files w) (Path.key p).

(** A filesystem holding the given nodes under the root directory. *)
Definition make (l : list (string * node)) : world :=
  {| files := list_to_map (([], Dir 493) :: (prod_map Path.key id <$> l));
     trace := [] |}.

End Fs.

(** ** File transfer *)

Import Port.

(** [copyFile]: open the source, read its mode, prepare the directories of
    the destination, open the destination with [O_CREATE|O_RDWR], copy. *)
Definition copyFile (from to : string) : io unit :=
  fromFile ← wrap ("opening " +:+ from) (Fs.Open from);
  fromFi ← wrap "reading file metadata" (Fs.File_Stat fromFile);
  wrap ("preparing directories for " +:+ to)
       (Fs.MkdirAll (Path.Dir to) (Mode fromFi));;
  toFile ← wrap ("creating " +:+ to)
                (Fs.OpenFile to (Z.lor O_CREATE O_RDWR) (Mode fromFi));
  wrap ("copying file from " +:+ from +:+ " to " +:+ to)
       (Fs.io_Copy toFile fromFile);;
  ret tt.

(** The [error] value a call leaves: [nil] is [None]. *)
Definition err_of {A} (r : error + A) : option error :=
  match r with inl e => Some e | inr _ => None end.

(** ** The directory copy: walker, workers, collector *)

Record job := { From : string; To : string }.

(** The goroutine of [copier.walk]:
    - [Walking todo]: inside [afero.Walk], with the paths [todo] still to
      visit, in order; with nothing left the walk returns [nil] and
      [work] is closed next;
    - [Sending j todo]: blocked in [c.work <- job];
    - [Failing e]: the walk returned an error, blocked in
      [c.failures <- err];
    - [Finished]: [close(c.work)] done;
    - [Panicked]: sent on the closed failure channel. *)
Inductive walker :=
  | Walking (todo : list string)
  | Sending (j : job) (todo : list string)
  | Failing (e : error)
  | Finished
  | Panicked.

(** A worker goroutine of [copyFiles]: at [range c.work]; holding a job
    it received, before [copyFile]; blocked in [c.failures <- err]; past
    [jobs.Done()]. *)
Inductive worker :=
  | Idle
  | Busy (j : job)
  | Reporting (e : error)
  | Exited.

(** The state of a directory copy:
    - [st_seen]: the [sync.Map] behind [seen];
    - [st_workers]: the goroutines [copyFiles] started;
    - [st_closed]: [close(c.failures)] done;
    - [st_errs]: [errs] of [collectErrors];
    - [st_result]: what [collectErrors] returned, once it has;
    - [st_emitted], [st_ran]: history, the jobs the walker reached a send
      for and the transfers run with their results. *)
Record state := {
  st_world : world;
  st_seen : gset string;
  st_walker : walker;
  st_workers : list worker;
  st_closed : bool;
  st_errs : list error;
  st_result : option (option error);
  st_emitted : list job;
  st_ran : list (job * option error)
}.

(** The walk function of [copier.walk], called on a visited path. *)
Definition walker_visit (from to path : string) (info : FileInfo)
  (seen : gset string) : gset string * option job :=
  if IsDir info then (seen, None)
  else
    let toPath := Path.Join2 to (Path.Replace1 path from "") in
    if decide (toPath ∈ seen) then (seen, None)
    else ({[toPath]} ∪ seen, Some {| From := path; To := toPath |}).

(** [if c.parallel < 1 { c.parallel = 10 }]. *)
Definition effective_parallel (parallel : Z) : Z :=
  if (parallel <? 1)%Z then 10%Z else parallel.

(** The goroutines the loop of [copyFiles] starts, one for each [ii] of
    [for ii := 0; ii < c.parallel-1; ii++]. *)
Definition copyFiles_spawn (parallel : Z) : list worker :=
  (λ _, Idle) <$> seqZ 0 (effective_parallel parallel - 1).

(** The atomic steps:
    - [AVisit]: the walker visits the next path;
    - [ACloseWork]: the walk has returned, [close(c.work)];
    - [AHandOff i]: worker [i] receives the job the walker sends;
    - [ATransfer i]: worker [i] runs [copyFile];
    - [AReport i]: the collector receives the error of worker [i];
    - [AWalkReport]: the walker sends its error on [failures];
    - [AExit i]: worker [i] finds [work] closed;
    - [ACloseFailures]: all workers are done, [close(c.failures)];
    - [ACollect]: the collector finds [failures] closed and returns. *)
Inductive action :=
  | AVisit
  | ACloseWork
  | AHandOff (i : nat)
  | ATransfer (i : nat)
  | AReport (i : nat)
  | AWalkReport
  | AExit (i : nat)
  | ACloseFailures
  | ACollect.

Definition set_walker (s : state) (wk : walker) : state :=
  {| st_world := st_world s; st_seen := st_seen s; st_walker := wk;
     st_workers := st_workers s; st_closed := st_closed s;
     st_errs := st_errs s; st_result := st_result s;
     st_emitted := st_emitted s; st_ran := st_ran s |}.

Definition set_worker (s : state) (i : nat) (wr : worker) : state :=
  {| st_world := st_world s; st_seen := st_seen s; st_walker := st_walker s;
     st_workers := <[i := wr]> (st_workers s); st_closed := st_closed s;
     st_errs := st_errs s; st_result := st_result s;
     st_emitted := st_emitted s; st_ran := st_ran s |}.

Definition collect_err (s : state) (e : error) : state :=
  {| st_world := st_world s; st_seen := st_seen s; st_walker := st_walker s;
     st_workers := st_workers s; st_closed := st_closed s;
     st_errs := st_errs s ++ [e]; st_result := st_result s;
     st_emitted := st_emitted s; st_ran := st_ran s |}.

Definition all_exited (ws : list worker) : bool :=
  forallb (λ wr, match wr with Exited => true | _ => false end) ws.

(** [collectErrors] after its loop. *)
Definition collectErrors_return (errs : list error) : option error :=
  match errs with
  | [] => None
  | _ :: _ => Some (Failures errs)
  end.

Section Step.
Context (from to : string).

(** One visit of [afero.Walk]: [lstat] the path, call the walk function,
    and for a directory read its names and queue [Join(path, name)] for
    each, ahead of what was queued before. *)
Definition visit (path : string) (todo : list string) (s : state) : state :=
  let walking w sn wk js :=
    {| st_world := w; st_seen := sn; st_walker := wk;
       st_workers := st_workers s; st_closed := st_closed s;
       st_errs := st_errs s; st_result := st_result s;
       st_emitted := st_emitted s ++ js; st_ran := st_ran s |} in
  let failed e := Failing (Wrap "walking file system" e) in
  match Fs.Lstat path (st_world s) with
  | (inl e, w') => walking w' (st_seen s) (failed e) []
  | (inr info, w') =>
      let '(seen', oj) := walker_visit from to path info (st_seen s) in
      if IsDir info then
        match Fs.ReadDirNames path w' with
        | (inl e, w'') => walking w'' seen' (failed e) []
        | (inr names, w'') =>
            walking w'' seen'
                    (Walking ((Path.Join2 path <$> names) ++ todo)) []
        end
      else
        match oj with
        | Some j => walking w' seen' (Sending j todo) [j]
        | None => walking w' seen' (Walking todo) []
        end
  end.

(** One step of the directory copy; [None] when the action is not
    enabled. A send and its receive are one step, channels being
    unbuffered; a send on the closed failure channel panics. *)
Definition step (a : action) (s : state) : option state :=
  match a with
  | AVisit =>
      match st_walker s with
      | Walking (path :: todo) => Some (visit path todo s)
      | _ => None
      end
  | ACloseWork =>
      match st_walker s with
      | Walking [] => Some (set_walker s Finished)
      | _ => None
      end
  | AHandOff i =>
      match st_walker s, st_workers s !! i with
      | Sending j todo, Some Idle =>
          Some (set_worker (set_walker s (Walking todo)) i (Busy j))
      | _, _ => None
      end
  | ATransfer i =>
      match st_workers s !! i with
      | Some (Busy j) =>
          let '(r, w') := copyFile (From j) (To j) (st_world s) in
          Some {| st_world := w'; st_seen := st_seen s;
                  st_walker := st_walker s;
                  st_workers := <[i := match r with
                                       | inl e => Reporting e
                                       | inr _ => Idle
                                       end]> (st_workers s);
                  st_closed := st_closed s;
                  st_errs := st_errs s; st_result := st_result s;
                  st_emitted := st_emitted s;
                  st_ran := st_ran s ++ [(j, err_of r)] |}
      | _ => None
      end
  | AReport i =>
      match st_workers s !! i, st_result s with
      | Some (Reporting e), None =>
          Some (set_worker (collect_err s e) i Idle)
      | _, _ => None
      end
  | AWalkReport =>
      match st_walker s, st_result s with
      | Failing e, None =>
          if st_closed s then Some (set_walker s Panicked)
          else Some (set_walker (collect_err s e) (Walking []))
      | Failing e, Some _ =>
          if st_closed s then Some (set_walker s Panicked) else None
      | _, _ => None
      end
  | AExit i =>
      match st_walker s, st_workers s !! i with
      | Finished, Some Idle => Some (set_worker s i Exited)
      | _, _ => None
      end
  | ACloseFailures =>
      if all_exited (st_workers s) && negb (st_closed s) then
        Some {| st_world := st_world s; st_seen := st_seen s;
                st_walker := st_walker s; st_workers := st_workers s;
                st_closed := true;
                st_errs := st_errs s; st_result := st_result s;
                st_emitted := st_emitted s; st_ran := st_ran s |}
      else None
  | ACollect =>
      match st_result s with
      | None =>
          if st_closed s then
            Some {| st_world := st_world s; st_seen := st_seen s;
                    st_walker := st_walker s; st_workers := st_workers s;
                    st_closed := st_closed s;
                    st_errs := st_errs s;
                    st_result := Some (collectErrors_return (st_errs s));
                    st_emitted := st_emitted s; st_ran := st_ran s |}
          else None
      | Some _ => None
      end
  end.

(** An execution: the actions taken, in order; [None] when one of them is
    not enabled where it is taken. *)
Fixpoint exec (acts : list action) (s : state) : option state :=
  match acts with
  | [] => Some s
  | a :: acts' =>
      match step a s with
      | Some s' => exec acts' s'
      | None => None
      end
  end.

End Step.

(** The state in which [copier.copy] leaves its three goroutines:
    [go c.walk(from, to)], [go c.copyFiles()], [c.collectErrors()]. *)
Definition copier_copy (parallel : Z) (seen : gset string) (from : string)
  (w : world) : state :=
  {| st_world := w; st_seen := seen; st_walker := Walking [from];
     st_workers := copyFiles_spawn parallel; st_closed := false;
     st_errs := []; st_result := None; st_emitted := []; st_ran := [] |}.

(** ** The public entry point *)

Inductive fs_handle := OsFs | GivenFs.

Record Copier := {
  Fs : option fs_handle;
  Clobber : bool;
  Parallel : Z;
  seen : option (gset string)
}.

(** What [Copy] has done when it returns, or when it reaches
    [c.copy(from, to)], where its goroutines take over. *)
Inductive outcome :=
  | Returned (c : Copier) (err : option error) (w : world)
  | Copying (c : Copier) (s : state).

(** [if c.Fs == nil { c.Fs = afero.NewOsFs() }]. *)
Definition with_fs (c : Copier) : Copier :=
  {| Fs := Some (default OsFs (Fs c)); Clobber := Clobber c;
     Parallel := Parallel c; seen := seen c |}.

(** [if c.seen == nil { c.seen = &sync.Map{} }]. *)
Definition with_seen (c : Copier) : Copier :=
  {| Fs := Fs c; Clobber := Clobber c; Parallel := Parallel c;
     seen := Some (default ∅ (seen c)) |}.

Definition Copy (c : Copier) (from to : string) (w : world) : outcome :=
  if String.eqb from to then Returned c None w
  else
    let c := with_fs c in
    match Fs.Stat from w with
    | (inl e, w1) => Returned c (Some (Wrap "reading file metadata" e)) w1
    | (inr fromFi, w1) =>
        let '(r, w2) := Fs.Stat to w1 in
        if negb (os_IsNotExist (err_of r)) && negb (Clobber c)
        then Returned c (Some (ErrClobberAvoided to)) w2
        else if negb (IsDir fromFi)
        then let '(r', w3) := copyFile from to w2 in Returned c (err_of r') w3
        else
          match Fs.MkdirAll to (Mode fromFi) w2 with
          | (inl e, w3) => Returned c (Some e) w3
          | (inr _, w3) =>
              let c := with_seen c in
              Copying c (copier_copy (Parallel c) (default ∅ (seen c)) from w3)
          end
    end.

(** [Copy] returns what [collectErrors] returns; the [Copier] keeps its
    pointer to the [sync.Map] the walker wrote to. *)
Definition Copy_return (c : Copier) (s : state)
  : option (Copier * option error * world) :=
  match st_result s with
  | Some err =>
      Some ({| Fs := Fs c; Clobber := Clobber c; Parallel := Parallel c;
               seen := Some (st_seen s) |}, err, st_world s)
  | None => None
  end.

(** ** Error messages *)

(** The line feed. *)
Definition nl : string := String "010" EmptyString.

Section FailuresError.
(** The [Error] method of the failures in the list. *)
Context (Error : error → string).

(** The loop of [Failures.Error] from index [ii] on, over what is left of
    [err.list], whose length is [len]; [b] is what the builder holds. *)
Fixpoint Failures_loop (len ii : Z) (list : list error) (b : string)
  : string :=
  match list with
  | [] => b
  | failure :: rest =>
      let b := b +:+ Error failure in
      let b := if negb (ii =? len - 1)%Z then b +:+ "," +:+ nl else b in
      Failures_loop len (ii + 1) rest b
  end.

(** [Failures.Error]. *)
Definition Failures_Error (list : list error) : string :=
  let b := "[" in
  let b := Failures_loop (Z.of_nat (length list)) 0 list b in
  b +:+ nl +:+ "]".

End FailuresError.

(** ** The command [cp] *)

(** What the command printed when it exited: the call of [oops] or of
    [fatal], with the format and the error passed. *)
Inductive printed :=
  | Oops (f : string)
  | Fatal (f : string) (v : error).

(** The command has exited, or is inside the goroutines of
    [copier.Copy]. *)
Inductive process :=
  | Exit (code : Z) (out : option printed) (w : world)
  | Running (c : Copier) (s : state).

(** [cp.Copier{Clobber: true}]. *)
Definition main_copier : Copier :=
  {| Fs := None; Clobber := true; Parallel := 0; seen := None |}.

(** The end of [main], once [copier.Copy] has returned [err]. *)
Definition main_end (err : option error) (w : world) : process :=
  match err with
  | Some err => Exit 0 (Some (Fatal ("copying files: %v" +:+ nl) err)) w
  | None => Exit 0 None w
  end.

(** [main] on the arguments [os.Args[1:]]. *)
Definition main (args : list string) (w : world) : process :=
  match args with
  | from :: to :: _ =>
      match Copy main_copier from to w with
      | Returned _ err w' => main_end err w'
      | Copying c s => Running c s
      end
  | _ => Exit 0 (Some (Oops ("not enough arguments" +:+ nl))) w
  end.

(** ** Well-formed paths and filesystems *)

Fixpoint no_sep (s : string) : bool :=
  match s with
  | EmptyString => true
  | String c s' => negb (Path.is_sep c) && no_sep s'
  end.

(** A name a directory entry can have. *)
Definition good_name (n : string) : Prop :=
  n ≠ "" ∧ n ≠ "." ∧ n ≠ ".." ∧ no_sep n = true.

(** The clean path with elements [k], rooted or not. *)
Definition render (rooted : bool) (k : list string) : string :=
  (if rooted then "/" else "") +:+ Path.Join k.

(** [p] is a clean path below the root: it spells out the elements [k] it
    resolves to, without [.], [..] or doubled separators. *)
Definition plain (p : string) (k : list string) : Prop :=
  k ≠ [] ∧ Forall good_name k ∧ ∃ rooted, p = render rooted k.

(** Neither path lies inside the other. *)
Definition unrelated (k1 k2 : list string) : Prop :=
  ¬ k1 `prefix_of` k2 ∧ ¬ k2 `prefix_of` k1.

(** A filesystem with a root directory, in which every entry has good
    names and lies in a directory. *)
Record wf (fs : gmap (list string) node) : Prop := {
  wf_root : ∃ perm, fs !! [] = Some (Dir perm);
  wf_parent : ∀ k c n, fs !! (k ++ [c]) = Some n →
                       ∃ perm, fs !! k = Some (Dir perm);
  wf_names : ∀ k n, fs !! k = Some n → Forall good_name k
}.

(** [good_name] and [wf], decided. *)
Definition good_nameb (n : string) : bool :=
  negb (String.eqb n "") && negb (String.eqb n ".")
  && negb (String.eqb n "..") && no_sep n.

Definition wf_entry (fs : gmap (list string) node) (k : list string) : bool :=
  forallb good_nameb k
  && match k with
     | [] => true
     | _ :: _ => match fs !! removelast k with
                 | Some (Dir _) => true
                 | _ => false
                 end
     end.

Definition wfb (fs : gmap (list string) node) : bool :=
  match fs !! [] with Some (Dir _) => true | _ => false end
  && forallb (λ e, wf_entry fs e.1) (map_to_list fs).

(** ** Bookkeeping of an execution *)

(** A world after one more call on the port. *)
Definition logged (w : world) (c : call) : world :=
  {| files := files w; trace := trace w ++ [c] |}.

(** The jobs in flight: the one the walker is sending and those the
    workers hold. *)
Definition busy_jobs (ws : list worker) : list job :=
  omap (λ wr, match wr with Busy j => Some j | _ => None end) ws.

Definition sending_job (wk : walker) : list job :=
  match wk with Sending j _ => [j] | _ => [] end.

(** Every destination is sent at most once, after it is stored in the
    Seen-set, and each job sent is with the walker, with a worker, or
    has been run. *)
Record emitted_once (seen0 : gset string) (s : state) : Prop := {
  eo_nodup : NoDup (To <$> st_emitted s);
  eo_seen : ∀ j, j ∈ st_emitted s → To j ∈ st_seen s ∧ To j ∉ seen0;
  eo_kept : seen0 ⊆ st_seen s;
  eo_where :
    (fst <$> st_ran s) ++ sending_job (st_walker s)
      ++ busy_jobs (st_workers s) ≡ₚ st_emitted s
}.

(** ** The invariant of a lateral directory copy *)

(** The paths the walker has still to visit. *)
Definition todo_of (wk : walker) : list string :=
  match wk with
  | Walking todo | Sending _ todo => todo
  | _ => []
  end.

Section LateralDefs.
Context (rf rt : bool) (F T : list string).
Context (fs0 : gmap (list string) node) (seen0 : gset string).

Definition job_of (rel : list string) : job :=
  {| From := render rf (F ++ rel); To := render rt (T ++ rel) |}.

Definition is_file0 (rel : list string) : Prop :=
  ∃ p d, fs0 !! (F ++ rel) = Some (File p d).

(** Not visited yet: a path still to visit lies on the way to the file. *)
Definition pending (wk : walker) (rel : list string) : Prop :=
  ∃ rel0, rel0 `prefix_of` rel ∧ render rf (F ++ rel0) ∈ todo_of wk.

(** Sent or being sent, and not transferred yet. *)
Definition inflight (wk : walker) (ws : list worker) (rel : list string)
  : Prop :=
  job_of rel ∈ sending_job wk ++ busy_jobs ws.

(** Transferred: the destination holds what the source held. *)
Definition done_at (fs : gmap (list string) node) (rel : list string)
  : Prop :=
  ∃ p d, fs0 !! (F ++ rel) = Some (File p d)
         ∧ fs !! (T ++ rel) = Some (File p d).

Definition mirrors (rel : list string) (n : node) : Prop :=
  match n with
  | Dir _ => ∃ p, fs0 !! (F ++ rel) = Some (Dir p)
  | File p d => fs0 !! (F ++ rel) = Some (File p d)
  end.

Record lateral_inv (s : state) : Prop := {
  li_wf : wf (files (st_world s));
  li_src : ∀ rel, files (st_world s) !! (F ++ rel) = fs0 !! (F ++ rel);
  li_T : ∃ p, files (st_world s) !! T = Some (Dir p);
  li_dst : ∀ rel n, rel ≠ [] →
             files (st_world s) !! (T ++ rel) = Some n → mirrors rel n;
  li_todo : ∀ path, path ∈ todo_of (st_walker s) →
              ∃ rel, path = render rf (F ++ rel) ∧ is_Some (fs0 !! (F ++ rel));
  li_jobs : ∀ j, j ∈ sending_job (st_walker s) ++ busy_jobs (st_workers s) →
              ∃ rel, j = job_of rel ∧ rel ≠ [] ∧ is_file0 rel;
  li_walker : match st_walker s with
              | Failing _ | Panicked => False
              | _ => True
              end;
  li_workers : ∀ i e, st_workers s !! i ≠ Some (Reporting e);
  li_some : st_workers s ≠ [];
  li_cover : ∀ rel, is_file0 rel →
               pending (st_walker s) rel
               ∨ inflight (st_walker s) (st_workers s) rel
               ∨ done_at (files (st_world s)) rel;
  li_seen : ∀ x, x ∈ st_seen s →
              x ∈ seen0
              ∨ ∃ rel, x = render rt (T ++ rel) ∧ is_file0 rel
                       ∧ (inflight (st_walker s) (st_workers s) rel
                          ∨ done_at (files (st_world s)) rel);
  li_errs : st_errs s = [];
  li_exit : Exited ∈ st_workers s → st_walker s = Finished;
  li_closed : st_closed s = true → all_exited (st_workers s) = true;
  li_result : ∀ r, st_result s = Some r → st_closed s = true ∧ r = None
}.

End LateralDefs.

(** ** The bookkeeping of a walk that ends *)

(** No worker holds a job, and the failure channel is open. *)
Definition quiet (s : state) : Prop :=
  Forall (λ wr, wr = Idle) (st_workers s)
  ∧ st_closed s = false ∧ st_result s = None.

(** The paths visited so far and those still to visit are pairwise
    different entries of the source, each visited after the directory it
    lies in. *)
Record walk_inv (F : list string) (fs0 : gmap (list string) node)
    (visited : list (list string)) (todo : list string) : Prop := {
  wi_nodup : NoDup (visited ++ (Path.key <$> todo));
  wi_dom : ∀ k, k ∈ visited → is_Some (fs0 !! k);
  wi_parent : ∀ rel c, F ++ rel ++ [c] ∈ visited ++ (Path.key <$> todo) →
                       F ++ rel ∈ visited
}.

(** ** Fixtures *)

Module Fixture.

(** A source file and a longer file already at the destination. *)
Definition clobbered : world :=
  Fs.make [("a", File 420 "xy"); ("b", File 384 "hello")].

(** A regular file where a directory is asked for. *)
Definition blocked : world :=
  Fs.make [("src", File 420 "xy"); ("f", File 420 "")].

(** A source tree with a file at the top and one in a directory. *)
Definition tree : world :=
  Fs.make [("from", Dir 493); ("from/a", File 420 "xy");
           ("from/d", Dir 493); ("from/d/c", File 384 "hello")].

(** A complete run of a directory copy of [tree] with [n] workers: worker
    0 takes the first job and worker 1 the second. *)
Definition full_run (n : nat) : list action :=
  [AVisit; AVisit; AHandOff 0; AVisit; AVisit; ATransfer 0; AHandOff 1;
   ATransfer 1; ACloseWork] ++ (AExit <$> seq 0 n)
  ++ [ACloseFailures; ACollect].

(** A run without workers: the walker blocks on its first send, the
    failure channel is closed at once and the collector returns. *)
Definition idle_run : list action :=
  [AVisit; ACloseFailures; AVisit; ACollect].

(** The same run for a walker that finds every destination in the
    Seen-set and sends nothing. *)
Definition skipping_run (n : nat) : list action :=
  [AVisit; AVisit; AVisit; AVisit; ACloseWork] ++ (AExit <$> seq 0 n)
  ++ [ACloseFailures; ACollect].

(** A destination holding a longer file where the source has [a], and a
    directory where the source has the file [b]. *)
Definition partial : world :=
  Fs.make [("from", Dir 493); ("from/a", File 420 "xy");
           ("from/b", File 420 "1"); ("to", Dir 493);
           ("to/a", File 420 "hello"); ("to/b", Dir 493)].

(** A complete run on [partial]: worker 1 reports its failure. *)
Definition partial_run : list action :=
  [AVisit; AVisit; AHandOff 0; ATransfer 0; AVisit; AHandOff 1;
   ATransfer 1; AReport 1; ACloseWork] ++ (AExit <$> seq 0 9)
  ++ [ACloseFailures; ACollect].

Definition with_parallel (parallel : Z) : Copier :=
  {| Fs := None; Clobber := false; Parallel := parallel; seen := None |}.

(** A directory [p] that is copied into its own child [p/z]. *)
Definition nested : world :=
  Fs.make [("p", Dir 493); ("p/a", File 420 "xy")].

(** A complete run on [nested] in which the first transfer is over
    before the walker reads the destination directory. *)
Definition nested_run : list action :=
  [AVisit; AVisit; AHandOff 0; ATransfer 0; AVisit; AVisit; AHandOff 0;
   ATransfer 0; ACloseWork] ++ (AExit <$> seq 0 9)
  ++ [ACloseFailures; ACollect].

Definition plain_copier : Copier :=
  {| Fs := None; Clobber := false; Parallel := 0; seen := None |}.

Definition clobbering : Copier :=
  {| Fs := None; Clobber := true; Parallel := 0; seen := None |}.

End Fixture.

(** ** Predicates of the further properties *)

(** Every entry of [fs] is still there in [fs'], as the same kind of node
    with the same permission bits. *)
Definition kept (fs fs' : gmap (list string) node) : Prop :=
  ∀ k nd, fs !! k = Some nd →
    ∃ nd', fs' !! k = Some nd' ∧ info_of nd' = info_of nd.

(** What a transfer to the path with elements [kt], whose directory has
    the elements [kdir], does to the files. *)
Record transfer_effect (kt kdir : list string)
    (fs fs' : gmap (list string) node) : Prop := {
  te_other : ∀ k nd, fs !! k = Some nd → k ≠ kt → fs' !! k = Some nd;
  te_dest : ∀ nd, fs !! kt = Some nd →
              ∃ nd', fs' !! kt = Some nd' ∧ info_of nd' = info_of nd;
  te_new : ∀ k nd, fs !! k = None → fs' !! k = Some nd →
             (k = kt ∧ ∃ m d, nd = File m d)
             ∨ (k `prefix_of` kdir ∧ ∃ p, nd = Dir p)
}.

(** ** How a directory copy winds down *)

(** A worker exits only after [work] is closed, the failure channel is
    closed only after every worker has exited, and [collectErrors]
    returns only after the failure channel is closed, with what it has
    collected. *)
Record winding_down (s : state) : Prop := {
  wd_exit : Exited ∈ st_workers s → st_walker s = Finished;
  wd_closed : st_closed s = true → all_exited (st_workers s) = true;
  wd_result : ∀ r, st_result s = Some r →
                st_closed s = true ∧ r = collectErrors_return (st_errs s)
}.

(** The errors the workers are blocked sending. *)
Definition reporting (ws : list worker) : list error :=
  omap (λ wr, match wr with Reporting e => Some e | _ => None end) ws.

(** The errors of the transfers that failed. *)
Definition failed (ran : list (job * option error)) : list error :=
  omap snd ran.

(** An error as [walk] sends it. *)
Definition walk_error (e : error) : Prop :=
  ∃ cause, e = Wrap "walking file system" cause.

(** Every error collected or about to be is the error of a transfer that
    failed or the one error [l] of the walk, and the other way round. *)
Record errors_accounted (s : state) (l : list error) : Prop := {
  ea_perm : st_errs s ++ reporting (st_workers s) ≡ₚ failed (st_ran s) ++ l;
  ea_walk : Forall walk_error l;
  ea_one : length l ≤ 1;
  ea_once : l ≠ [] → st_walker s = Walking [] ∨ st_walker s = Finished;
  ea_failing : ∀ e, st_walker s = Failing e → walk_error e
}.

(** ** The directories a lateral copy makes *)

(** Every directory below [T] in [fs] lies on the way to a regular file
    that [fs] holds as the source [fs0] holds it below [F], and has the
    permission bits of that file. *)
Definition dirs_from_files (F T : list string)
    (fs0 fs : gmap (list string) node) : Prop :=
  ∀ rel m, rel ≠ [] → fs !! (T ++ rel) = Some (Dir m) →
    ∃ rel' d, rel' ≠ []
              ∧ fs0 !! (F ++ rel ++ rel') = Some (File m d)
              ∧ fs !! (T ++ rel ++ rel') = Some (File m d).

(** Every transfer run so far has returned [nil]. *)
Definition all_succeeded (ran : list (job * option error)) : Prop :=
  Forall (λ jr, jr.2 = None) ran.

(** ** A walk that sends nothing *)

(** The walker finds every destination in the Seen-set: nothing is sent,
    nothing is transferred, and the files and the Seen-set stay as they
    are. *)
Record skipping (rf : bool) (F : list string)
    (fs0 : gmap (list string) node) (seen0 : gset string) (s : state)
  : Prop := {
  sk_files : files (st_world s) = fs0;
  sk_seen : st_seen s = seen0;
  sk_walker : match st_walker s with
              | Walking _ | Finished => True
              | _ => False
              end;
  sk_todo : ∀ path, path ∈ todo_of (st_walker s) →
              ∃ rel, path = render rf (F ++ rel) ∧ is_Some (fs0 !! (F ++ rel));
  sk_workers : Forall (λ wr, wr = Idle ∨ wr = Exited) (st_workers s);
  sk_emitted : st_emitted s = [];
  sk_ran : st_ran s = [];
  sk_errs : st_errs s = [];
  sk_result : ∀ r, st_result s = Some r → r = None
}.

(** ** A walk that cannot fail, and a walk that cannot end *)

(** Every path the walker has still to visit exists, and the walk has
    not failed. *)
Record walk_sound (s : state) : Prop := {
  ws_wf : wf (files (st_world s));
  ws_todo : ∀ path, path ∈ todo_of (st_walker s) →
              is_Some (files (st_world s) !! Path.key path);
  ws_walker : match st_walker s with
              | Failing _ | Panicked => False
              | _ => True
              end
}.

(** Without workers, with the regular file at [K] ahead: the walker is
    blocked sending, or has still to visit a path on the way to [K],
    with nothing in the Seen-set. *)
Record walker_held (K : list string) (fs0 : gmap (list string) node)
    (s : state) : Prop := {
  wh_files : files (st_world s) = fs0;
  wh_workers : st_workers s = [];
  wh_walker : match st_walker s with
              | Sending _ _ => True
              | Walking todo =>
                  st_seen s = ∅
                  ∧ (∀ path, path ∈ todo → is_Some (fs0 !! Path.key path))
                  ∧ ∃ path, path ∈ todo ∧ Path.key path `prefix_of` K
              | _ => False
              end
}.

(** ** What a directory copy writes to *)

(** The entries of [fs0] at which no transfer run so far was aimed are in
    [fs] as they were. *)
Definition untouched (fs0 fs : gmap (list string) node)
    (ran : list (job * option error)) : Prop :=
  ∀ k nd, fs0 !! k = Some nd →
    (∀ j, j ∈ ran.*1 → Path.key (To j) ≠ k) →
    fs !! k = Some nd.

(** * Properties *)

(** ** Facts on paths *)

Lemma append_cons c (a b : string) : String c a +:+ b = String c (a +:+ b).
Proof. reflexivity. Qed.

Lemma append_nil_l (b : string) : "" +:+ b = b.
Proof. reflexivity. Qed.

Ltac str := repeat (rewrite append_cons || rewrite append_nil_l).

Section PathFacts.

Lemma append_nil_r (s : string) : s +:+ "" = s.
Proof. induction s as [|c s IH]; str; [done|by rewrite IH]. Qed.

Lemma append_assoc (a b c : string) : (a +:+ b) +:+ c = a +:+ (b +:+ c).
Proof. induction a as [|x a IH]; str; [done|by rewrite IH]. Qed.

Lemma Split_nonempty s : Path.Split s ≠ [].
Proof.
  destruct s as [|c s]; simpl; [done|].
  destruct (Path.is_sep c); [done|]. by destruct (Path.Split s).
Qed.

Lemma Split_app a b :
  no_sep a = true → Path.Split (a +:+ String "/" b) = a :: Path.Split b.
Proof.
  induction a as [|c a IH]; intros Ha; simpl in *; [done|].
  apply andb_true_iff in Ha as [Hc Ha].
  apply negb_true_iff in Hc. rewrite Hc. by rewrite (IH Ha).
Qed.

Lemma Split_name a : no_sep a = true → Path.Split a = [a].
Proof.
  induction a as [|c a IH]; intros Ha; simpl in *; [done|].
  apply andb_true_iff in Ha as [Hc Ha].
  apply negb_true_iff in Hc. rewrite Hc. by rewrite (IH Ha).
Qed.

Lemma good_name_no_sep n : good_name n → no_sep n = true.
Proof. by intros (_ & _ & _ & ?). Qed.

Lemma Join_cons x k : k ≠ [] → Path.Join (x :: k) = x +:+ String "/" (Path.Join k).
Proof. by destruct k. Qed.

Lemma Join_app k1 k2 :
  k1 ≠ [] → k2 ≠ [] →
  Path.Join (k1 ++ k2) = Path.Join k1 +:+ String "/" (Path.Join k2).
Proof.
  induction k1 as [|x k1 IH]; intros H1 H2; [done|].
  destruct k1 as [|y k1].
  - simpl app. by rewrite Join_cons.
  - rewrite <- app_comm_cons, Join_cons by done.
    rewrite IH by done. rewrite (Join_cons x (y :: k1)) by done.
    by rewrite !append_assoc.
Qed.

Lemma Split_Join_app k b :
  k ≠ [] → Forall good_name k →
  Path.Split (Path.Join k +:+ String "/" b) = k ++ Path.Split b.
Proof.
  induction k as [|x k IH]; intros Hk Hg; [done|].
  apply Forall_cons in Hg as [Hx Hg].
  destruct k as [|y k].
  - simpl. apply Split_app. by apply good_name_no_sep.
  - rewrite Join_cons by done. rewrite !append_assoc. str.
    rewrite Split_app by by apply good_name_no_sep.
    simpl. f_equal. by apply IH.
Qed.

Lemma Split_Join k :
  k ≠ [] → Forall good_name k → Path.Split (Path.Join k) = k.
Proof.
  induction k as [|x k IH]; intros Hk Hg; [done|].
  apply Forall_cons in Hg as [Hx Hg].
  destruct k as [|y k].
  - simpl. apply Split_name. by apply good_name_no_sep.
  - rewrite Join_cons by done.
    rewrite Split_app by by apply good_name_no_sep.
    f_equal. by apply IH.
Qed.

Lemma clean_step_good r st n :
  good_name n → Path.clean_step r st n = n :: st.
Proof.
  intros (H1 & H2 & H3 & _). unfold Path.clean_step.
  destruct (String.eqb_spec n ""); [done|].
  destruct (String.eqb_spec n "."); [done|].
  destruct (String.eqb_spec n ".."); [done|]. done.
Qed.

Lemma fold_clean_good r k st :
  Forall good_name k → fold_left (Path.clean_step r) k st = rev k ++ st.
Proof.
  revert st. induction k as [|x k IH]; intros st Hg; [done|].
  apply Forall_cons in Hg as [Hx Hg]. simpl.
  rewrite clean_step_good by done. rewrite IH by done.
  by rewrite <- app_assoc.
Qed.

Lemma clean_elems_app_good r l k :
  Forall good_name k →
  Path.clean_elems r (l ++ k) = Path.clean_elems r l ++ k.
Proof.
  intros Hg. unfold Path.clean_elems. rewrite fold_left_app.
  rewrite fold_clean_good by done. by rewrite rev_app_distr, rev_involutive.
Qed.

Lemma clean_elems_good r k : Forall good_name k → Path.clean_elems r k = k.
Proof. intros Hg. by rewrite <- (app_nil_l k), clean_elems_app_good. Qed.

Lemma clean_elems_app_empty r l k :
  Path.clean_elems r (l ++ "" :: k)
  = Path.clean_elems r (l ++ k).
Proof.
  unfold Path.clean_elems. by rewrite !fold_left_app.
Qed.

Lemma Join_good_nonempty k :
  k ≠ [] → Forall good_name k →
  ∃ c s, Path.Join k = String c s ∧ Path.is_sep c = false.
Proof.
  destruct k as [|x k]; intros Hk Hg; [done|].
  apply Forall_cons in Hg as [(Hx & _ & _ & Hs) _].
  destruct x as [|c x]; [done|]. simpl in Hs.
  apply andb_true_iff in Hs as [Hc _]. apply negb_true_iff in Hc.
  destruct k; simpl; eauto.
Qed.

Lemma render_rooted r k :
  k ≠ [] → Forall good_name k → Path.rooted (render r k) = r.
Proof.
  intros Hk Hg. destruct r; [done|]. unfold render. str.
  destruct (Join_good_nonempty k Hk Hg) as (c & s & -> & Hc). str. by simpl.
Qed.

Lemma render_nonempty r k :
  k ≠ [] → Forall good_name k → String.eqb (render r k) "" = false.
Proof.
  intros Hk Hg. destruct r; [done|]. unfold render. str.
  destruct (Join_good_nonempty k Hk Hg) as (c & s & -> & Hc). str. by simpl.
Qed.

Lemma Split_render r k :
  k ≠ [] → Forall good_name k →
  Path.Split (render r k) = (if r then [""] else []) ++ k.
Proof.
  intros Hk Hg. destruct r; unfold render; str; simpl; by rewrite Split_Join.
Qed.

Lemma Split_render_app r k b :
  k ≠ [] → Forall good_name k →
  Path.Split (render r k +:+ String "/" b)
  = (if r then [""] else []) ++ k ++ Path.Split b.
Proof.
  intros Hk Hg. destruct r; unfold render; str; simpl;
    by rewrite Split_Join_app.
Qed.

Lemma clean_elems_head r' (r : bool) l :
  Path.clean_elems r' ((if r then [""] else []) ++ l) = Path.clean_elems r' l.
Proof. destruct r; [|done]. apply (clean_elems_app_empty r' []). Qed.

(** A clean path resolves to the elements it spells out. *)
Lemma key_render r k :
  k ≠ [] → Forall good_name k → Path.key (render r k) = k.
Proof.
  intros Hk Hg. unfold Path.key. rewrite Split_render by done.
  rewrite clean_elems_head. by apply clean_elems_good.
Qed.

Lemma Clean_as_render s k :
  k ≠ [] → Forall good_name k →
  Path.clean_elems (Path.rooted s) (Path.Split s) = k →
  Path.Clean s = render (Path.rooted s) k.
Proof.
  intros Hk Hg He. unfold Path.Clean. rewrite He.
  fold (render (Path.rooted s) k). by rewrite render_nonempty.
Qed.

Lemma Clean_render r k :
  k ≠ [] → Forall good_name k → Path.Clean (render r k) = render r k.
Proof.
  intros Hk Hg. rewrite (Clean_as_render _ k); try done.
  - by rewrite render_rooted.
  - rewrite Split_render by done. rewrite clean_elems_head.
    by apply clean_elems_good.
Qed.

Lemma rooted_render_app r k b :
  k ≠ [] → Forall good_name k → Path.rooted (render r k +:+ b) = r.
Proof.
  intros Hk Hg. destruct r; [done|]. unfold render. str.
  destruct (Join_good_nonempty k Hk Hg) as (c & s & -> & Hc). str. by simpl.
Qed.

(** [filepath.Join] of a clean path and a name. *)
Lemma Join2_name r k n :
  k ≠ [] → Forall good_name k → good_name n →
  Path.Join2 (render r k) n = render r (k ++ [n]).
Proof.
  intros Hk Hg Hn. unfold Path.Join2. rewrite render_nonempty by done. simpl.
  str.
  assert (Hg' : Forall good_name (k ++ [n])).
  { apply Forall_app. split; [done|]. by apply Forall_singleton. }
  rewrite (Clean_as_render _ (k ++ [n])); try done.
  - by rewrite rooted_render_app.
  - by destruct k.
  - rewrite rooted_render_app by done.
    rewrite Split_render_app by done.
    rewrite Split_name by by apply good_name_no_sep.
    rewrite clean_elems_head. by apply clean_elems_good.
Qed.

Lemma prefix_append a b : String.prefix a (a +:+ b) = true.
Proof.
  induction a as [|c a IH]; str; simpl; [by destruct b|].
  by destruct (ascii_dec c c).
Qed.

Lemma drop_chars_append a b : Path.drop_chars (String.length a) (a +:+ b) = b.
Proof. induction a as [|c a IH]; str; simpl; [by destruct b|done]. Qed.

Lemma Replace1_unfold s old new :
  Path.Replace1 s old new =
    if String.prefix old s then new +:+ Path.drop_chars (String.length old) s
    else match s with
         | EmptyString => EmptyString
         | String c s' => String c (Path.Replace1 s' old new)
         end.
Proof. by destruct s. Qed.

(** [strings.Replace(path, from, "", 1)] on a path that begins with
    [from]. *)
Lemma Replace1_prefix a b : Path.Replace1 (a +:+ b) a "" = b.
Proof.
  by rewrite Replace1_unfold, prefix_append, drop_chars_append.
Qed.

Lemma render_app r k1 k2 :
  k1 ≠ [] → k2 ≠ [] →
  render r (k1 ++ k2) = render r k1 +:+ String "/" (Path.Join k2).
Proof.
  intros H1 H2. unfold render. rewrite Join_app by done.
  by rewrite append_assoc.
Qed.

(** The destination path the walk function computes for the file at the
    elements [rel] below [from]. *)
Lemma toPath_render rf rt F T rel :
  F ≠ [] → T ≠ [] → rel ≠ [] →
  Forall good_name T → Forall good_name rel →
  Path.Join2 (render rt T) (Path.Replace1 (render rf (F ++ rel)) (render rf F) "")
  = render rt (T ++ rel).
Proof.
  intros HF HT Hrel HgT Hgr.
  rewrite render_app by done. rewrite Replace1_prefix.
  unfold Path.Join2. rewrite render_nonempty by done. simpl. str.
  assert (Hg' : Forall good_name (T ++ rel)) by by apply Forall_app.
  rewrite (Clean_as_render _ (T ++ rel)); try done.
  - by rewrite rooted_render_app.
  - by destruct T.
  - rewrite rooted_render_app by done.
    rewrite Split_render_app by done.
    rewrite clean_elems_head.
    change (Path.Split (String "/" (Path.Join rel)))
      with ("" :: Path.Split (Path.Join rel)).
    rewrite clean_elems_app_empty, Split_Join by done.
    by apply clean_elems_good.
Qed.

Lemma up_to_last_sep_name n : no_sep n = true → Path.up_to_last_sep n = "".
Proof.
  induction n as [|c n IH]; intros Hn; simpl in *; [done|].
  apply andb_true_iff in Hn as [Hc Hn]. apply negb_true_iff in Hc.
  by rewrite Hc, IH.
Qed.

Lemma up_to_last_sep_app a n :
  no_sep n = true →
  Path.up_to_last_sep (a +:+ String "/" n) = a +:+ "/".
Proof.
  intros Hn. induction a as [|c a IH]; simpl.
  - by rewrite up_to_last_sep_name.
  - rewrite IH. destruct (Path.is_sep c); [done|]. by destruct a.
Qed.

(** [filepath.Dir] of a clean path of more than one element. *)
Lemma Dir_render r k n :
  k ≠ [] → Forall good_name k → good_name n →
  Path.Dir (render r (k ++ [n])) = render r k.
Proof.
  intros Hk Hg Hn. unfold Path.Dir.
  rewrite render_app by done. simpl Path.Join.
  rewrite up_to_last_sep_app by by apply good_name_no_sep.
  rewrite (Clean_as_render _ k); try done.
  - by rewrite rooted_render_app.
  - rewrite rooted_render_app by done.
    rewrite Split_render_app by done. simpl Path.Split.
    rewrite clean_elems_head, clean_elems_app_empty, app_nil_r.
    by apply clean_elems_good.
Qed.

End PathFacts.

(** ** Facts on the filesystem port *)

Section FsFacts.
Implicit Types fs : gmap (list string) node.

Lemma resolve_from_Some fs pre rest n :
  resolve_from fs pre rest = inr n → fs !! (pre ++ rest) = Some n.
Proof.
  revert pre. induction rest as [|c rest IH]; intros pre; simpl.
  - rewrite app_nil_r. destruct (fs !! pre); by intros [= ->].
  - destruct (fs !! pre) as [[|]|]; try done.
    intros H. apply IH in H. by rewrite <- app_assoc in H.
Qed.

Lemma resolve_Some fs k n : resolve fs k = inr n → fs !! k = Some n.
Proof. apply (resolve_from_Some fs []). Qed.

Lemma wf_prefix_dir fs k rest :
  wf fs → rest ≠ [] → is_Some (fs !! (k ++ rest)) →
  ∃ perm, fs !! k = Some (Dir perm).
Proof.
  intros Hwf. induction rest as [|c rest IH] using rev_ind; [done|].
  intros _ [n Hn]. rewrite app_assoc in Hn.
  apply (wf_parent fs Hwf) in Hn as [perm Hd].
  destruct rest as [|c' rest'].
  - rewrite app_nil_r in Hd. eauto.
  - apply IH; [done|eauto].
Qed.

Lemma resolve_from_wf fs pre rest n :
  wf fs → fs !! (pre ++ rest) = Some n → resolve_from fs pre rest = inr n.
Proof.
  intros Hwf. revert pre. induction rest as [|c rest IH]; intros pre Hn; simpl.
  - rewrite app_nil_r in Hn. by rewrite Hn.
  - destruct (wf_prefix_dir fs pre (c :: rest) Hwf) as [perm ->]; [done|eauto|].
    apply IH. by rewrite <- app_assoc.
Qed.

Lemma resolve_wf fs k n : wf fs → fs !! k = Some n → resolve fs k = inr n.
Proof. intros. by apply resolve_from_wf. Qed.

Lemma resolve_from_absent fs pre rest c :
  wf fs → (∃ perm, fs !! (pre ++ rest) = Some (Dir perm)) →
  fs !! (pre ++ rest ++ [c]) = None →
  resolve_from fs pre (rest ++ [c]) = inl ENOENT.
Proof.
  intros Hwf. revert pre.
  induction rest as [|a rest IH]; intros pre [perm Hd] Hn; simpl.
  - rewrite app_nil_r in Hd. rewrite Hd. simpl in Hn. by rewrite Hn.
  - destruct (wf_prefix_dir fs pre (a :: rest) Hwf) as [perm' ->];
      [done|eauto|].
    apply IH; rewrite <- app_assoc; eauto.
Qed.

Lemma resolve_absent fs k c :
  wf fs → (∃ perm, fs !! k = Some (Dir perm)) → fs !! (k ++ [c]) = None →
  resolve fs (k ++ [c]) = inl ENOENT.
Proof. intros. by apply resolve_from_absent. Qed.

Lemma strip_Some k k' r : Fs.strip k k' = Some r ↔ k' = k ++ r.
Proof.
  revert k'. induction k as [|a k IH]; intros k'; simpl.
  - split; [by intros [= ->]|by intros ->].
  - destruct k' as [|b k']; [done|].
    destruct (String.eqb_spec a b) as [->|Hne].
    + rewrite IH. split; [by intros ->|by intros [= ->]].
    + split; [done|]. intros [= -> _]. done.
Qed.

Lemma child_name_Some k k' n : Fs.child_name k k' = Some n ↔ k' = k ++ [n].
Proof.
  unfold Fs.child_name. destruct (Fs.strip k k') as [r|] eqn:Hs.
  - apply strip_Some in Hs. subst k'.
    destruct r as [|x [|y r]]; split; intros H; simplify_eq; done.
  - split; [done|]. intros ->.
    assert (Fs.strip k (k ++ [n]) = Some [n]) by by apply strip_Some.
    congruence.
Qed.

Lemma elem_of_readDirNames fs k n :
  n ∈ Fs.readDirNames fs k ↔ is_Some (fs !! (k ++ [n])).
Proof.
  unfold Fs.readDirNames. rewrite merge_sort_Permutation.
  rewrite list_elem_of_omap. split.
  - intros ([k' nd] & Hin & Hc). apply elem_of_map_to_list in Hin.
    apply child_name_Some in Hc. simpl in Hc. subst k'. eauto.
  - intros [nd Hn]. exists (k ++ [n], nd). split.
    + by apply elem_of_map_to_list.
    + by apply child_name_Some.
Qed.

Lemma mkdir_from_spec fs pre rest perm fs' :
  Fs.mkdir_from fs pre rest perm = inr fs' →
  (∀ x n, fs !! x = Some n → fs' !! x = Some n)
  ∧ (∀ x n, fs !! x = None → fs' !! x = Some n →
       n = Dir perm ∧ ∃ q, q ≠ [] ∧ q `prefix_of` rest ∧ x = pre ++ q)
  ∧ (∀ q, q `prefix_of` rest → ∃ p, fs' !! (pre ++ q) = Some (Dir p)).
Proof.
  revert fs pre. induction rest as [|c rest IH]; intros fs pre; simpl.
  - destruct (fs !! pre) as [[|p]|] eqn:Hp; try done. intros [= <-].
    split; [done|]. split; [congruence|].
    intros q Hq. apply prefix_nil_inv in Hq as ->. rewrite app_nil_r. eauto.
  - destruct (fs !! pre) as [[|p]|] eqn:Hp; try done.
    intros Hm. apply IH in Hm as (Ha & Hb & Hc).
    set (k := pre ++ [c]) in *.
    set (fs1 := match fs !! k with
                | Some _ => fs
                | None => <[k:=Dir perm]> fs
                end) in *.
    assert (H1 : ∀ x n, fs !! x = Some n → fs1 !! x = Some n).
    { intros x n Hx. unfold fs1. destruct (fs !! k) eqn:Hk; [done|].
      rewrite lookup_insert_ne; [done|]. congruence. }
    split; [|split].
    + intros x n Hx. by apply Ha, H1.
    + intros x n Hx Hx'. destruct (fs1 !! x) as [n1|] eqn:Hx1.
      * assert (x = k ∧ n1 = Dir perm) as [-> ->].
        { unfold fs1 in Hx1. destruct (fs !! k) eqn:Hk; [congruence|].
          destruct (decide (k = x)) as [->|Hne].
          - rewrite lookup_insert_eq in Hx1. by simplify_eq.
          - rewrite lookup_insert_ne in Hx1 by done. congruence. }
        rewrite (Ha _ _ Hx1) in Hx'. simplify_eq. split; [done|].
        exists [c]. split; [done|]. split; [|done].
        by apply prefix_cons, prefix_nil.
      * destruct (Hb _ _ Hx1 Hx') as (-> & q & Hq & Hpre & ->).
        split; [done|]. exists (c :: q). split; [done|].
        split; [by apply prefix_cons|]. unfold k. by rewrite <- app_assoc.
    + intros q Hq. destruct q as [|c' q].
      * rewrite app_nil_r. exists p. by apply Ha, H1.
      * apply prefix_cons_inv_1 in Hq as Hc'. subst c'.
        apply prefix_cons_inv_2 in Hq.
        destruct (Hc q Hq) as [p' Hp']. exists p'.
        unfold k in Hp'. by rewrite <- app_assoc in Hp'.
Qed.

Lemma mkdir_from_ok fs pre rest perm :
  (∃ p, fs !! pre = Some (Dir p)) →
  (∀ q p d, q `prefix_of` rest → fs !! (pre ++ q) ≠ Some (File p d)) →
  ∃ fs', Fs.mkdir_from fs pre rest perm = inr fs'.
Proof.
  revert fs pre. induction rest as [|c rest IH]; intros fs pre [p Hp] Hq; simpl.
  - rewrite Hp. eauto.
  - rewrite Hp. apply IH.
    + destruct (fs !! (pre ++ [c])) as [[p' d'|p']|] eqn:Hk; [|eauto|].
      * exfalso. eapply (Hq [c]); [|done]. by apply prefix_cons, prefix_nil.
      * exists perm. by rewrite lookup_insert_eq.
    + intros q p' d' Hpre. rewrite <- app_assoc. simpl.
      assert (Hq' : fs !! (pre ++ c :: q) ≠ Some (File p' d')).
      { apply Hq. by apply prefix_cons. }
      destruct (fs !! (pre ++ [c])) eqn:Hk; [done|].
      destruct (decide (pre ++ [c] = pre ++ c :: q)) as [<-|Hne].
      * by rewrite lookup_insert_eq.
      * by rewrite lookup_insert_ne.
Qed.

(** Adding an entry to a directory keeps the filesystem well formed, as
    long as a regular file is not put where entries hang below. *)
Lemma wf_insert fs k c nd :
  wf fs →
  (∃ p, fs !! k = Some (Dir p)) →
  Forall good_name (k ++ [c]) →
  ((∃ p, nd = Dir p) ∨ ∀ c', fs !! ((k ++ [c]) ++ [c']) = None) →
  wf (<[k ++ [c] := nd]> fs).
Proof.
  intros Hwf [p Hp] Hg Hnd. split.
  - destruct (wf_root fs Hwf) as [p0 H0]. exists p0.
    rewrite lookup_insert_ne; [done|]. by destruct k.
  - intros x c' n Hx.
    destruct (decide (k ++ [c] = x ++ [c'])) as [Heq|Hne].
    + apply app_inj_tail in Heq as [<- <-]. exists p.
      rewrite lookup_insert_ne; [done|].
      intros Hk. apply (f_equal length) in Hk.
      rewrite length_app in Hk. simpl in Hk. lia.
    + rewrite lookup_insert_ne in Hx by done.
      destruct (wf_parent fs Hwf _ _ _ Hx) as [p' Hp'].
      destruct (decide (k ++ [c] = x)) as [<-|Hne'].
      * rewrite lookup_insert_eq. destruct Hnd as [[p'' ->]|Hnone]; [eauto|].
        rewrite Hnone in Hx. done.
      * exists p'. by rewrite lookup_insert_ne.
  - intros x n Hx. destruct (decide (k ++ [c] = x)) as [<-|Hne]; [done|].
    rewrite lookup_insert_ne in Hx by done. by eapply wf_names.
Qed.

Lemma wf_no_children fs k c' :
  wf fs → (∀ p, fs !! k ≠ Some (Dir p)) → fs !! (k ++ [c']) = None.
Proof.
  intros Hwf Hk. destruct (fs !! (k ++ [c'])) as [n|] eqn:Hn; [|done].
  destruct (wf_parent fs Hwf _ _ _ Hn) as [p Hp]. by destruct (Hk p).
Qed.

Lemma mkdir_from_wf fs pre rest perm fs' :
  wf fs → Forall good_name (pre ++ rest) →
  Fs.mkdir_from fs pre rest perm = inr fs' → wf fs'.
Proof.
  revert fs pre. induction rest as [|c rest IH]; intros fs pre Hwf Hg; simpl.
  - destruct (fs !! pre) as [[|p]|]; try done. by intros [= <-].
  - destruct (fs !! pre) as [[|p]|] eqn:Hp; try done.
    apply IH.
    + destruct (fs !! (pre ++ [c])) eqn:Hk; [done|].
      apply wf_insert; eauto.
      replace (pre ++ c :: rest) with ((pre ++ [c]) ++ rest) in Hg
        by by rewrite <- app_assoc.
      by apply Forall_app in Hg as [? _].
    + by rewrite <- app_assoc.
Qed.

Lemma bind_ok {A B} (m : io A) (k : A → io B) w a w' :
  m w = (inr a, w') → (m ≫= k) w = k a w'.
Proof. unfold mbind, io_bind, bind. by intros ->. Qed.

Lemma wrap_ok {A} msg (m : io A) w a w' :
  m w = (inr a, w') → wrap msg m w = (inr a, w').
Proof. unfold wrap. by intros ->. Qed.

Lemma Lstat_ok p w n :
  resolve (files w) (Path.key p) = inr n →
  Fs.Lstat p w = (inr (info_of n), logged w (CallLstat p)).
Proof.
  intros Hr. unfold Fs.Lstat, Fs.stat_as, mbind, io_bind, bind, log, get_files.
  simpl. by rewrite Hr.
Qed.

Lemma ReadDirNames_ok p w perm :
  resolve (files w) (Path.key p) = inr (Dir perm) →
  Fs.ReadDirNames p w
  = (inr (Fs.readDirNames (files w) (Path.key p)),
     logged w (CallReadDirNames p)).
Proof.
  intros Hr. unfold Fs.ReadDirNames, mbind, io_bind, bind, log, get_files.
  simpl. by rewrite Hr.
Qed.

Lemma Open_ok p w n :
  resolve (files w) (Path.key p) = inr n →
  Fs.Open p w = (inr (Path.key p), logged w (CallOpen p)).
Proof.
  intros Hr. unfold Fs.Open, mbind, io_bind, bind, log, get_files.
  simpl. by rewrite Hr.
Qed.

Lemma File_Stat_ok h w n :
  files w !! h = Some n → Fs.File_Stat h w = (inr (info_of n), w).
Proof.
  intros Hr. unfold Fs.File_Stat, mbind, io_bind, bind, get_files.
  simpl. by rewrite Hr.
Qed.

Lemma MkdirAll_ok p perm w fs' :
  Fs.mkdir_from (files w) [] (Path.key p) perm = inr fs' →
  Fs.MkdirAll p perm w
  = (inr tt, {| files := fs'; trace := trace w ++ [CallMkdirAll p perm] |}).
Proof.
  intros Hr.
  unfold Fs.MkdirAll, mbind, io_bind, bind, log, get_files, put_files.
  simpl. by rewrite Hr.
Qed.

Lemma OpenFile_existing p w m d perm :
  resolve (files w) (Path.key p) = inr (File m d) →
  Fs.OpenFile p (Z.lor O_CREATE O_RDWR) perm w
  = (inr (Path.key p),
     logged w (CallOpenFile p (Z.lor O_CREATE O_RDWR) perm)).
Proof.
  intros Hr. unfold Fs.OpenFile, mbind, io_bind, bind, log, get_files.
  simpl. by rewrite Hr.
Qed.

Lemma OpenFile_create p w perm p' :
  resolve (files w) (Path.key p) = inl ENOENT →
  resolve (files w) (removelast (Path.key p)) = inr (Dir p') →
  Fs.OpenFile p (Z.lor O_CREATE O_RDWR) perm w
  = (inr (Path.key p),
     {| files := <[Path.key p := File perm ""]> (files w);
        trace := trace w ++ [CallOpenFile p (Z.lor O_CREATE O_RDWR) perm] |}).
Proof.
  intros Hr Hp.
  unfold Fs.OpenFile, mbind, io_bind, bind, log, get_files, put_files.
  simpl. rewrite Hr. simpl. by rewrite Hp.
Qed.

Lemma io_Copy_ok dst src w ps d m old :
  files w !! src = Some (File ps d) →
  files w !! dst = Some (File m old) →
  Fs.io_Copy dst src w
  = (inr (String.length d),
     {| files := <[dst := File m (Fs.overwrite old d)]> (files w);
        trace := trace w ++ [CallWrite dst] |}).
Proof.
  intros Hs Hd.
  unfold Fs.io_Copy, mbind, io_bind, bind, log, get_files, put_files.
  simpl. by rewrite Hs, Hd.
Qed.

Lemma overwrite_same d : Fs.overwrite d d = d.
Proof.
  unfold Fs.overwrite.
  rewrite <- (append_nil_r d) at 3. rewrite drop_chars_append.
  apply append_nil_r.
Qed.

Lemma overwrite_empty d : Fs.overwrite "" d = d.
Proof.
  unfold Fs.overwrite. destruct (String.length d); simpl; apply append_nil_r.
Qed.

End FsFacts.

Lemma good_nameb_spec n : good_nameb n = true → good_name n.
Proof.
  unfold good_nameb, good_name.
  intros [[[H1 H2]%andb_true_iff H3]%andb_true_iff H4]%andb_true_iff.
  apply negb_true_iff, String.eqb_neq in H1, H2, H3. done.
Qed.

Lemma wfb_wf fs : wfb fs = true → wf fs.
Proof.
  unfold wfb. intros [Hroot Hall]%andb_true_iff.
  rewrite forallb_forall in Hall.
  assert (Hent : ∀ k n, fs !! k = Some n → wf_entry fs k = true).
  { intros k n Hk. apply (Hall (k, n)).
    by apply list_elem_of_In, elem_of_map_to_list. }
  split.
  - destruct (fs !! []) as [[|p]|]; try done. eauto.
  - intros k c n Hk. apply Hent in Hk. unfold wf_entry in Hk.
    apply andb_true_iff in Hk as [_ Hk]. rewrite removelast_last in Hk.
    destruct (k ++ [c]) eqn:Heq; [by destruct k|].
    destruct (fs !! k) as [[|p]|]; try done. eauto.
  - intros k n Hk. apply Hent in Hk. unfold wf_entry in Hk.
    apply andb_true_iff in Hk as [Hk _]. rewrite forallb_forall in Hk.
    apply Forall_forall. intros x Hx. apply good_nameb_spec, Hk.
    by apply list_elem_of_In.
Qed.

(** ** The sequential part of [Copy] *)

Lemma Stat_eq p w :
  Fs.Stat p w =
    (match Fs.lookup w p with
     | inl e => inl (PathError "stat" p e)
     | inr n => inr (info_of n)
     end,
     {| files := files w; trace := trace w ++ [CallStat p] |}).
Proof.
  unfold Fs.Stat, Fs.stat_as, Fs.lookup, mbind, io_bind, bind, log, get_files.
  simpl. destruct (resolve (files w) (Path.key p)); reflexivity.
Qed.

Lemma Copy_stat_error c from to w e :
  from ≠ to →
  Fs.lookup w from = inl e →
  Copy c from to w =
    Returned (with_fs c)
      (Some (Wrap "reading file metadata" (PathError "stat" from e)))
      {| files := files w; trace := trace w ++ [CallStat from] |}.
Proof.
  intros Hne Hl. unfold Copy.
  destruct (String.eqb_spec from to) as [->|_]; [done|].
  rewrite Stat_eq, Hl. reflexivity.
Qed.

Lemma Copy_guard c from to w n :
  from ≠ to →
  Fs.lookup w from = inr n →
  Fs.lookup w to ≠ inl ENOENT →
  Clobber c = false →
  Copy c from to w =
    Returned (with_fs c) (Some (ErrClobberAvoided to))
      {| files := files w;
         trace := trace w ++ [CallStat from; CallStat to] |}.
Proof.
  intros Hne Hl Hto Hc. unfold Copy.
  destruct (String.eqb_spec from to) as [->|_]; [done|].
  rewrite Stat_eq, Hl, Stat_eq. simpl. unfold Fs.lookup in *. simpl.
  rewrite Hc, <- app_assoc. simpl.
  destruct (resolve (files w) (Path.key to)) as [[]|]; simpl; done.
Qed.

Lemma Copy_Copying c from to w c1 s0 :
  Copy c from to w = Copying c1 s0 →
  from ≠ to
  ∧ ∃ perm fs',
      Fs.lookup w from = inr (Dir perm)
      ∧ (Fs.lookup w to = inl ENOENT ∨ Clobber c = true)
      ∧ Fs.mkdir_from (files w) [] (Path.key to) perm = inr fs'
      ∧ c1 = with_seen (with_fs c)
      ∧ s0 = copier_copy (Parallel c) (default ∅ (seen c)) from
               {| files := fs';
                  trace := trace w ++ [CallStat from; CallStat to;
                                       CallMkdirAll to perm] |}.
Proof.
  unfold Copy. destruct (String.eqb_spec from to) as [->|Hne]; [done|].
  rewrite Stat_eq. destruct (Fs.lookup w from) as [e|n] eqn:Hf; [done|].
  rewrite Stat_eq. simpl.
  destruct (negb (os_IsNotExist _) && negb (Clobber c)) eqn:Hg; [done|].
  destruct n as [perm data|perm]; simpl.
  { destruct (copyFile _ _ _); done. }
  unfold Fs.MkdirAll, mbind, io_bind, bind, log, get_files, put_files, fail.
  simpl.
  destruct (Fs.mkdir_from (files w) [] (Path.key to) perm) as [e|fs'] eqn:Hm;
    [done|].
  intros [= <- <-]. split; [done|]. exists perm, fs'.
  repeat split; try done.
  - apply andb_false_iff in Hg as [Hg|Hg].
    + left. apply negb_false_iff in Hg. unfold Fs.lookup in *. simpl in Hg.
      destruct (resolve (files w) (Path.key to)) as [[]|]; simpl in Hg; done.
    + right. by apply negb_false_iff in Hg.
  - by rewrite <- !app_assoc.
Qed.

(** ** Facts on file transfer *)

Section TransferFacts.
Implicit Types fs : gmap (list string) node.

(** [copyFile] to a destination that is missing, or already holds what the
    source holds, with nothing but directories on the way. *)
Lemma copyFile_mirror from to ksrc kd n p d w :
  wf (files w) →
  Path.key from = ksrc → Path.key to = kd ++ [n] →
  Path.key (Path.Dir to) = kd →
  Forall good_name (kd ++ [n]) →
  files w !! ksrc = Some (File p d) →
  (∀ q p' d', q `prefix_of` kd → files w !! q ≠ Some (File p' d')) →
  (files w !! (kd ++ [n]) = None ∨ files w !! (kd ++ [n]) = Some (File p d)) →
  ksrc ≠ kd ++ [n] →
  ∃ fs1 tr,
    copyFile from to w
      = (inr tt, {| files := <[kd ++ [n] := File p d]> fs1; trace := tr |})
    ∧ Fs.mkdir_from (files w) [] kd p = inr fs1.
Proof.
  intros Hwf Hks Hkt Hkd Hg Hsrc Hway Hdst Hne.
  destruct (mkdir_from_ok (files w) [] kd p) as [fs1 Hmk].
  { apply wf_root, Hwf. }
  { intros q p' d' Hq. by apply Hway. }
  destruct (mkdir_from_spec _ _ _ _ _ Hmk) as (Ha & Hb & Hc).
  assert (Hwf1 : wf fs1).
  { eapply mkdir_from_wf; [exact Hwf| |exact Hmk].
    simpl. by apply Forall_app in Hg as [? _]. }
  assert (Hdst1 : fs1 !! (kd ++ [n]) = files w !! (kd ++ [n])).
  { destruct (files w !! (kd ++ [n])) as [nd|] eqn:Hk; [by apply Ha|].
    destruct (fs1 !! (kd ++ [n])) as [nd|] eqn:Hk1; [|done].
    destruct (Hb _ _ Hk Hk1) as (_ & q & _ & Hq & Heq). simpl in Heq.
    apply prefix_length in Hq. apply (f_equal length) in Heq.
    rewrite length_app in Heq. simpl in Heq. lia. }
  destruct (Hc kd) as [pd Hpd]; [done|]. simpl in Hpd.
  exists fs1. unfold copyFile.
  erewrite bind_ok; last first.
  { apply wrap_ok. eapply Open_ok. rewrite Hks. by apply resolve_wf. }
  erewrite bind_ok; last first.
  { apply wrap_ok. eapply File_Stat_ok. rewrite Hks. exact Hsrc. }
  simpl Mode.
  erewrite bind_ok; last first.
  { apply wrap_ok, MkdirAll_ok. rewrite Hkd. simpl. exact Hmk. }
  destruct Hdst as [Hnone|Hsome].
  - rewrite Hnone in Hdst1.
    erewrite bind_ok; last first.
    { apply wrap_ok. eapply OpenFile_create; simpl; rewrite Hkt.
      - apply resolve_absent; [done|eauto|done].
      - rewrite removelast_last. apply resolve_wf; [done|exact Hpd]. }
    erewrite bind_ok; last first.
    { apply wrap_ok. eapply io_Copy_ok; simpl.
      - rewrite Hkt, Hks. rewrite lookup_insert_ne by done. by apply Ha.
      - rewrite Hkt. apply lookup_insert_eq. }
    simpl. rewrite Hkt, insert_insert_eq, overwrite_empty. eauto.
  - rewrite Hsome in Hdst1.
    erewrite bind_ok; last first.
    { apply wrap_ok. eapply OpenFile_existing; simpl; rewrite Hkt.
      by apply resolve_wf. }
    erewrite bind_ok; last first.
    { apply wrap_ok. eapply io_Copy_ok; simpl.
      - rewrite Hks. by apply Ha.
      - rewrite Hkt. exact Hdst1. }
    simpl. rewrite Hkt, overwrite_same. eauto.
Qed.

End TransferFacts.

(** ** Executions of the directory copy *)

Section Executions.
Context (from to : string).

Lemma exec_invariant (P : state → Prop) :
  (∀ a s s', P s → step from to a s = Some s' → P s') →
  ∀ acts s s', P s → exec from to acts s = Some s' → P s'.
Proof.
  intros Hstep acts. induction acts as [|a acts IH]; intros s s' HP He.
  - simpl in He. by simplify_eq.
  - simpl in He. destruct (step from to a s) as [s1|] eqn:Hs; [|done].
    eapply IH; [|done]. eauto.
Qed.

Lemma exec_app acts1 acts2 s :
  exec from to (acts1 ++ acts2) s
  = exec from to acts1 s ≫= exec from to acts2.
Proof.
  revert s. induction acts1 as [|a acts1 IH]; intros s; [done|].
  simpl. destruct (step from to a s); [apply IH|done].
Qed.

Lemma busy_jobs_take (ws : list worker) i j :
  ws !! i = Some Idle →
  busy_jobs (<[i := Busy j]> ws) ≡ₚ j :: busy_jobs ws.
Proof.
  revert i. induction ws as [|wr ws IH]; intros [|i] Hi; simplify_eq/=.
  - done.
  - unfold busy_jobs in *. simpl. destruct wr; simpl; rewrite IH by done;
      [done|apply Permutation_swap|done|done].
Qed.

Lemma busy_jobs_release (ws : list worker) i j wr' :
  ws !! i = Some (Busy j) →
  (∀ j', wr' ≠ Busy j') →
  busy_jobs ws ≡ₚ j :: busy_jobs (<[i := wr']> ws).
Proof.
  revert i. induction ws as [|wr ws IH]; intros [|i] Hi Hwr; simplify_eq/=.
  - unfold busy_jobs. simpl. destruct wr'; simpl; try done. by edestruct Hwr.
  - unfold busy_jobs in *. simpl. destruct wr; simpl; rewrite IH by done;
      [done|apply Permutation_swap|done|done].
Qed.

Lemma busy_jobs_same (ws : list worker) i wr wr' :
  ws !! i = Some wr →
  (∀ j', wr ≠ Busy j') → (∀ j', wr' ≠ Busy j') →
  busy_jobs (<[i := wr']> ws) = busy_jobs ws.
Proof.
  revert i. induction ws as [|w0 ws IH]; intros [|i] Hi H1 H2; simplify_eq/=.
  - unfold busy_jobs. simpl. destruct wr, wr'; simpl; try done;
      first [by edestruct H1 | by edestruct H2].
  - unfold busy_jobs in *. simpl. by rewrite IH.
Qed.

(** What a visit does to the walker's bookkeeping. *)
Lemma visit_bookkeeping path todo s :
  let s' := visit from to path todo s in
  st_workers s' = st_workers s ∧ st_ran s' = st_ran s
  ∧ st_closed s' = st_closed s ∧ st_errs s' = st_errs s
  ∧ st_result s' = st_result s
  ∧ files (st_world s') = files (st_world s)
  ∧ ((st_seen s' = st_seen s ∧ st_emitted s' = st_emitted s
      ∧ sending_job (st_walker s') = [])
     ∨ (∃ j todo', st_walker s' = Sending j todo'
        ∧ (To j ∉ st_seen s) ∧ st_seen s' = {[To j]} ∪ st_seen s
        ∧ st_emitted s' = st_emitted s ++ [j])).
Proof.
  unfold visit, Fs.Lstat, Fs.stat_as, Fs.ReadDirNames, walker_visit.
  unfold mbind, io_bind, bind, log, get_files, fail, mret, io_ret, ret.
  simpl.
  destruct (resolve _ (Path.key path)) as [e|n] eqn:Hr; simpl.
  { rewrite app_nil_r. repeat split; auto. }
  destruct n as [perm data|perm]; simpl.
  - case_decide; simpl.
    + rewrite app_nil_r. repeat split; auto.
    + repeat split; auto. right. eexists _, _. repeat split; done.
  - rewrite Hr. simpl. rewrite app_nil_r. repeat split; auto.
Qed.

Lemma emitted_once_init parallel seen0 w :
  emitted_once seen0 (copier_copy parallel seen0 from w).
Proof.
  split; simpl.
  - constructor.
  - intros j Hj. by apply elem_of_nil in Hj.
  - done.
  - unfold copyFiles_spawn, busy_jobs.
    induction (seqZ 0 _) as [|x l IH]; simpl; [done|]. apply IH.
Qed.

Lemma emitted_once_step seen0 a s s' :
  emitted_once seen0 s → step from to a s = Some s' → emitted_once seen0 s'.
Proof.
  intros [Hnd Hsn Hk Hw] Hs. destruct a; simpl in Hs.
  - (* visit *)
    destruct (st_walker s) as [[|path todo]| | | |] eqn:Hwk; simplify_eq.
    destruct (visit_bookkeeping path todo s)
      as (Hws & Hran & _ & _ & _ & _ & Hcase).
    simpl in Hw.
    destruct Hcase as [(Hseen & Hem & Hsend)|(j & todo' & Hwk' & Hj & Hseen & Hem)].
    + split; rewrite ?Hem, ?Hseen, ?Hws, ?Hran, ?Hsend; done.
    + split; rewrite ?Hem, ?Hseen, ?Hws, ?Hran, ?Hwk'.
      * rewrite fmap_app. simpl. apply NoDup_app. split; [done|].
        split; [|apply NoDup_singleton].
        intros x Hx Hx'. apply list_elem_of_singleton in Hx'. subst x.
        apply list_elem_of_fmap in Hx as (j' & Heq & Hj').
        apply Hj. rewrite Heq. by apply Hsn.
      * intros j' Hj'. apply elem_of_app in Hj' as [Hj'|Hj'].
        -- destruct (Hsn j' Hj'). split; [by apply elem_of_union_r|done].
        -- apply list_elem_of_singleton in Hj'. subst j'.
           split; [by apply elem_of_union_l, elem_of_singleton|].
           intros Hin. apply Hj. by apply Hk.
      * intros x Hx. by apply elem_of_union_r, Hk.
      * simpl. rewrite <- Hw, <- Permutation_middle.
        apply Permutation_cons_append.
  - (* close work *)
    destruct (st_walker s) as [[|path todo]| | | |] eqn:Hwk; simplify_eq.
    split; simpl; done.
  - (* hand off *)
    destruct (st_walker s) as [todo|j todo| | |] eqn:Hwk; simplify_eq.
    destruct (st_workers s !! i) as [[]|] eqn:Hi; simplify_eq.
    split; simpl; try done. simpl in Hw.
    rewrite busy_jobs_take by done. done.
  - (* transfer *)
    destruct (st_workers s !! i) as [[|j| |]|] eqn:Hi; simplify_eq.
    destruct (copyFile (From j) (To j) (st_world s)) as [r w'] eqn:Hcp.
    simplify_eq. split; simpl; try done.
    rewrite fmap_app. simpl. rewrite <- Hw.
    rewrite (busy_jobs_release (st_workers s) i j
               (match r with inl e => Reporting e | inr _ => Idle end))
      by (done || by destruct r).
    rewrite <- !app_assoc. simpl.
    apply Permutation_app_head.
    by rewrite <- Permutation_middle.
  - (* report *)
    destruct (st_workers s !! i) as [[| |e|]|] eqn:Hi; simplify_eq.
    destruct (st_result s); simplify_eq.
    split; simpl; try done.
    by rewrite (busy_jobs_same _ i (Reporting e) Idle).
  - (* walker reports *)
    destruct (st_walker s) as [| |e| |] eqn:Hwk; simplify_eq.
    destruct (st_result s), (st_closed s); simplify_eq; split; done.
  - (* exit *)
    destruct (st_walker s) eqn:Hwk; simplify_eq.
    destruct (st_workers s !! i) as [[]|] eqn:Hi; simplify_eq.
    split; simpl; try done.
    by rewrite Hwk, (busy_jobs_same _ i Idle Exited).
  - (* close failures *)
    destruct (all_exited _ && _); simplify_eq. split; done.
  - (* collect *)
    destruct (st_result s); [done|]. destruct (st_closed s); simplify_eq.
    split; done.
Qed.

End Executions.

Lemma exec_seen_grows from to acts seen0 parallel w s :
  exec from to acts (copier_copy parallel seen0 from w) = Some s →
  emitted_once seen0 s.
Proof.
  intros He. eapply exec_invariant; [|apply emitted_once_init|exact He].
  intros a s1 s2. apply emitted_once_step.
Qed.

(** Without workers nothing is ever transferred. *)
Lemma no_workers_no_transfer from to acts s s' :
  st_workers s = [] →
  exec from to acts s = Some s' →
  st_workers s' = [] ∧ files (st_world s') = files (st_world s).
Proof.
  intros Hw He.
  apply (exec_invariant from to
           (λ s1, st_workers s1 = []
                  ∧ files (st_world s1) = files (st_world s))
           ) with (acts := acts) (s := s); [|done|done].
  clear. intros a s1 s2 [Hw Hf] Hs.
  destruct a; simpl in Hs; rewrite ?Hw in Hs; simpl in Hs.
  - destruct (st_walker s1) as [[|path todo]| | | |]; simplify_eq.
    destruct (visit_bookkeeping from to path todo s1)
      as (-> & _ & _ & _ & _ & -> & _). done.
  - destruct (st_walker s1) as [[|path todo]| | | |]; simplify_eq. done.
  - by destruct (st_walker s1).
  - done.
  - done.
  - destruct (st_walker s1), (st_result s1), (st_closed s1); simplify_eq; done.
  - by destruct (st_walker s1).
  - destruct (negb (st_closed s1)); simplify_eq. done.
  - destruct (st_result s1), (st_closed s1); simplify_eq. done.
Qed.

(** ** A lateral directory copy *)

Section LateralFacts.
Context (F T : list string) (fs0 : gmap (list string) node).

Lemma good_in_fs0 rel :
  wf fs0 → is_Some (fs0 !! (F ++ rel)) → Forall good_name (F ++ rel).
Proof. intros Hwf0 [n Hn]. by eapply wf_names. Qed.

Lemma good_rel rel :
  wf fs0 → is_Some (fs0 !! (F ++ rel)) → Forall good_name rel.
Proof.
  intros Hwf0 H. apply good_in_fs0 in H; [|done].
  by apply Forall_app in H as [_ ?].
Qed.

Lemma key_from rf rel :
  wf fs0 → F ≠ [] → is_Some (fs0 !! (F ++ rel)) →
  Path.key (render rf (F ++ rel)) = F ++ rel.
Proof.
  intros Hwf0 HF H. apply key_render; [|by apply good_in_fs0].
  intros [? _]%app_eq_nil. done.
Qed.

Lemma key_to rt rel :
  T ≠ [] → Forall good_name T → Forall good_name rel →
  Path.key (render rt (T ++ rel)) = T ++ rel.
Proof.
  intros HT HgT H. apply key_render; [|by apply Forall_app].
  intros [? _]%app_eq_nil. done.
Qed.

Lemma file_rel_nonempty rel :
  (∃ p, fs0 !! F = Some (Dir p)) → is_file0 F fs0 rel → rel ≠ [].
Proof.
  intros [p' Hp'] (p & d & Hf) ->. rewrite app_nil_r in Hf. congruence.
Qed.

Lemma prefix_in_fs0 rel0 rel :
  wf fs0 → is_Some (fs0 !! (F ++ rel)) → rel0 `prefix_of` rel →
  is_Some (fs0 !! (F ++ rel0)).
Proof.
  intros Hwf0 Hs [r ->]. destruct r as [|c r]; [by rewrite app_nil_r in Hs|].
  destruct (wf_prefix_dir fs0 (F ++ rel0) (c :: r) Hwf0) as [p' Hp'];
    [done| |eauto].
  by rewrite <- app_assoc.
Qed.

Lemma file_is_leaf rel0 rel :
  wf fs0 → is_file0 F fs0 rel0 → is_Some (fs0 !! (F ++ rel)) →
  rel0 `prefix_of` rel → rel = rel0.
Proof.
  intros Hwf0 (p & d & Hf) Hs [r ->].
  destruct r as [|c r]; [by rewrite app_nil_r|].
  destruct (wf_prefix_dir fs0 (F ++ rel0) (c :: r) Hwf0) as [p' Hp']; [done| |].
  - by rewrite <- app_assoc.
  - congruence.
Qed.

Lemma files_apart x y : unrelated F T → F ++ x ≠ T ++ y.
Proof.
  intros [H1 H2] Heq.
  destruct (prefix_weak_total F T (F ++ x)) as [H|H]; try done.
  - by apply prefix_app_r.
  - rewrite Heq. by apply prefix_app_r.
Qed.

Lemma to_inj rt rel1 rel2 :
  T ≠ [] → Forall good_name T →
  Forall good_name rel1 → Forall good_name rel2 →
  render rt (T ++ rel1) = render rt (T ++ rel2) → rel1 = rel2.
Proof.
  intros HT HgT H1 H2 Heq. apply (f_equal Path.key) in Heq.
  rewrite !key_to in Heq by done. by apply app_inv_head in Heq.
Qed.

Lemma job_of_inj rf rt rel1 rel2 :
  wf fs0 → F ≠ [] →
  is_Some (fs0 !! (F ++ rel1)) → is_Some (fs0 !! (F ++ rel2)) →
  job_of rf rt F T rel1 = job_of rf rt F T rel2 → rel1 = rel2.
Proof.
  intros Hwf0 HF H1 H2 [= Hf _]. apply (f_equal Path.key) in Hf.
  rewrite !key_from in Hf by done. by apply app_inv_head in Hf.
Qed.

End LateralFacts.

Lemma all_exited_lookup ws i wr :
  all_exited ws = true → ws !! i = Some wr → wr = Exited.
Proof.
  unfold all_exited. intros Hall Hi.
  rewrite forallb_forall in Hall.
  apply list_elem_of_lookup_2, list_elem_of_In, Hall in Hi. by destruct wr.
Qed.

Lemma all_exited_no_busy ws : all_exited ws = true → busy_jobs ws = [].
Proof.
  induction ws as [|wr ws IH]; [done|]. simpl.
  intros [Hw Hws]%andb_true_iff. destruct wr; try done.
  unfold busy_jobs in *. simpl. by apply IH.
Qed.

Lemma elem_of_insert_inv (ws : list worker) i wr x :
  x ∈ <[i := wr]> ws → x = wr ∨ x ∈ ws.
Proof.
  revert i. induction ws as [|w0 ws IH]; intros [|i]; simpl; auto.
  - intros [->|H]%elem_of_cons; [auto|]. right. by apply elem_of_cons; right.
  - intros [->|H]%elem_of_cons; [right; by apply elem_of_cons; left|].
    destruct (IH i H) as [->|H']; [auto|]. right. by apply elem_of_cons; right.
Qed.

Lemma insert_nonempty (ws : list worker) i wr : ws ≠ [] → <[i := wr]> ws ≠ [].
Proof. destruct ws, i; done. Qed.

Lemma lookup_insert_not (ws : list worker) i j wr e :
  wr ≠ Reporting e →
  ws !! j ≠ Some (Reporting e) →
  <[i := wr]> ws !! j ≠ Some (Reporting e).
Proof.
  intros Hwr Hj. destruct (decide (i = j)) as [->|Hne].
  - destruct (decide (j < length ws)) as [Hlt|Hge].
    + rewrite list_lookup_insert_eq by done. congruence.
    + rewrite list_insert_ge by lia. done.
  - by rewrite list_lookup_insert_ne.
Qed.

Lemma visit_dir from to path todo s perm :
  resolve (files (st_world s)) (Path.key path) = inr (Dir perm) →
  ∃ w', files w' = files (st_world s) ∧
    visit from to path todo s =
      {| st_world := w'; st_seen := st_seen s;
         st_walker :=
           Walking ((Path.Join2 path
                       <$> Fs.readDirNames (files (st_world s))
                             (Path.key path)) ++ todo);
         st_workers := st_workers s; st_closed := st_closed s;
         st_errs := st_errs s; st_result := st_result s;
         st_emitted := st_emitted s ++ []; st_ran := st_ran s |}.
Proof.
  intros Hr. unfold visit. rewrite (Lstat_ok _ _ _ Hr). simpl.
  unfold walker_visit. simpl.
  rewrite (ReadDirNames_ok _ _ perm) by done. simpl.
  eexists. split; [|reflexivity]. done.
Qed.

Lemma visit_file from to path todo s p d :
  resolve (files (st_world s)) (Path.key path) = inr (File p d) →
  ∃ w', files w' = files (st_world s) ∧
    visit from to path todo s =
      let toPath := Path.Join2 to (Path.Replace1 path from "") in
      if decide (toPath ∈ st_seen s) then
        {| st_world := w'; st_seen := st_seen s;
           st_walker := Walking todo;
           st_workers := st_workers s; st_closed := st_closed s;
           st_errs := st_errs s; st_result := st_result s;
           st_emitted := st_emitted s ++ []; st_ran := st_ran s |}
      else
        {| st_world := w'; st_seen := {[toPath]} ∪ st_seen s;
           st_walker := Sending {| From := path; To := toPath |} todo;
           st_workers := st_workers s; st_closed := st_closed s;
           st_errs := st_errs s; st_result := st_result s;
           st_emitted := st_emitted s ++ [{| From := path; To := toPath |}];
           st_ran := st_ran s |}.
Proof.
  intros Hr. unfold visit. rewrite (Lstat_ok _ _ _ Hr). simpl.
  unfold walker_visit. simpl.
  case_decide; simpl; (eexists; split; [|reflexivity]; done).
Qed.

Section LateralSteps.
Context (rf rt : bool) (F T : list string).
Context (fs0 : gmap (list string) node) (seen0 : gset string).
Context (HF : F ≠ []) (HT : T ≠ []).
Context (HgT : Forall good_name T).
Context (Hun : unrelated F T).
Context (Hwf0 : wf fs0).
Context (HFdir : ∃ p, fs0 !! F = Some (Dir p)).
Context (Hseen0 : ∀ rel, Forall good_name rel →
                         render rt (T ++ rel) ∉ seen0).

Lemma inv_visit path todo s :
  lateral_inv rf rt F T fs0 seen0 s →
  st_walker s = Walking (path :: todo) →
  lateral_inv rf rt F T fs0 seen0
    (visit (render rf F) (render rt T) path todo s).
Proof.
  intros [Hwf Hsrc HTd Hdst Htodo Hjobs Hwalker Hworkers Hsome Hcover Hseen
            Herrs Hexit Hclosed Hresult] Hwk.
  rewrite Hwk in *. unfold pending, inflight in *. simpl in *.
  destruct (Htodo path) as (rel0 & -> & Hs0); [by apply elem_of_cons; left|].
  pose proof (key_from F fs0 rf rel0 Hwf0 HF Hs0) as Hkey.
  pose proof (good_rel F fs0 rel0 Hwf0 Hs0) as Hg0.
  destruct Hs0 as [n0 Hn0].
  assert (Hres : resolve (files (st_world s))
                   (Path.key (render rf (F ++ rel0))) = inr n0).
  { rewrite Hkey. apply resolve_wf; [done|]. by rewrite Hsrc. }
  assert (Hsame : ∀ r0 rel,
             is_file0 F fs0 rel → r0 `prefix_of` rel →
             render rf (F ++ r0) = render rf (F ++ rel0) → r0 = rel0).
  { intros r0 rel (p & d & Hf) Hpre Heq.
    apply (f_equal Path.key) in Heq. rewrite Hkey in Heq.
    rewrite (key_from F fs0) in Heq; [|done..|].
    - by apply app_inv_head in Heq.
    - eapply (prefix_in_fs0 F fs0); [done| |exact Hpre]. eauto. }
  destruct n0 as [p d|perm].
  - (* a regular file *)
    assert (Hfile : is_file0 F fs0 rel0) by (by exists p, d).
    pose proof (file_rel_nonempty F fs0 rel0 HFdir Hfile) as Hne.
    destruct (visit_file (render rf F) (render rt T) _ todo s p d Hres)
      as (w' & Hw' & ->).
    cbv zeta. rewrite toPath_render by done.
    assert (Hleaf : ∀ r0 rel,
               is_file0 F fs0 rel → r0 `prefix_of` rel →
               render rf (F ++ r0) = render rf (F ++ rel0) → rel = rel0).
    { intros r0 rel Hf Hpre Heq.
      assert (r0 = rel0) as -> by eauto.
      destruct Hf as (p' & d' & Hf).
      eapply (file_is_leaf F fs0); eauto. }
    case_decide as Hin.
    + (* the destination is in the Seen-set *)
      assert (Hcov0 : job_of rf rt F T rel0 ∈ busy_jobs (st_workers s)
                      ∨ done_at F T fs0 (files (st_world s)) rel0).
      { destruct (Hseen _ Hin) as [H0|(rel' & Heq & Hf' & Hcase)].
        - by apply Hseen0 in H0.
        - apply (to_inj T) in Heq; [|done..|].
          + by subst rel'.
          + destruct Hf' as (p' & d' & Hf').
            apply (good_rel F fs0); eauto. }
      split; unfold pending, inflight; simpl; rewrite ?Hw'; try done.
      * intros path' Hp. apply Htodo. by apply elem_of_cons; right.
      * intros rel Hf. destruct (Hcover rel Hf)
          as [(r0 & Hpre & [Heq|Hin']%elem_of_cons)|[Hinf|Hdone]]; auto.
        -- assert (rel = rel0) as -> by eauto. auto.
        -- left. eauto.
      * intros He. by apply Hexit in He.
    + (* a new destination: the job is sent *)
      split; unfold pending, inflight; simpl; rewrite ?Hw'; try done.
      * intros path' Hp. apply Htodo. by apply elem_of_cons; right.
      * intros j [->|Hj]%elem_of_cons; [|by apply Hjobs].
        exists rel0. done.
      * intros rel Hf. destruct (Hcover rel Hf)
          as [(r0 & Hpre & [Heq|Hin']%elem_of_cons)|[Hinf|Hdone]]; auto.
        -- assert (rel = rel0) as -> by eauto.
           right; left. by apply elem_of_cons; left.
        -- left. eauto.
        -- right; left. by apply elem_of_cons; right.
      * intros x [Hx%elem_of_singleton|Hx]%elem_of_union.
        -- right. exists rel0. split; [done|]. split; [done|].
           left. by apply elem_of_cons; left.
        -- destruct (Hseen x Hx) as [H0|(rel' & Heq & Hf' & [Hc|Hc])]; auto.
           ++ right. exists rel'. split; [done|]. split; [done|].
              left. by apply elem_of_cons; right.
           ++ right. exists rel'. auto.
      * intros He. by apply Hexit in He.
  - (* a directory *)
    destruct (visit_dir (render rf F) (render rt T) _ todo s perm Hres)
      as (w' & Hw' & ->).
    rewrite Hkey.
    assert (Hchild : ∀ c, c ∈ Fs.readDirNames (files (st_world s)) (F ++ rel0)
                          ↔ is_Some (fs0 !! (F ++ rel0 ++ [c]))).
    { intros c. rewrite elem_of_readDirNames, <- app_assoc. by rewrite Hsrc. }
    assert (Hjoin : ∀ c, is_Some (fs0 !! (F ++ rel0 ++ [c])) →
               Path.Join2 (render rf (F ++ rel0)) c
               = render rf (F ++ rel0 ++ [c])).
    { intros c Hc. pose proof (good_in_fs0 F fs0 _ Hwf0 Hc) as Hg.
      rewrite app_assoc in Hg. apply Forall_app in Hg as [Hg1 Hg2].
      apply Forall_inv in Hg2.
      rewrite Join2_name; [by rewrite <- app_assoc|by destruct F|done..]. }
    split; unfold pending, inflight; simpl; rewrite ?Hw'; try done.
    + intros path' [Hp|Hp]%elem_of_app.
      * apply list_elem_of_fmap in Hp as (c & -> & Hc).
        apply Hchild in Hc. exists (rel0 ++ [c]). split; [by apply Hjoin|done].
      * apply Htodo. by apply elem_of_cons; right.
    + intros rel Hf. destruct (Hcover rel Hf)
        as [(r0 & Hpre & [Heq|Hin']%elem_of_cons)|[Hinf|Hdone]]; auto.
      * assert (r0 = rel0) as -> by eauto.
        destruct Hpre as [r ->]. destruct Hf as (p & d & Hf).
        destruct r as [|c r]; [rewrite app_nil_r in Hf; congruence|].
        assert (Hc : is_Some (fs0 !! (F ++ rel0 ++ [c]))).
        { apply (prefix_in_fs0 F fs0 _ (rel0 ++ c :: r)); [done|eauto|].
          apply prefix_app, prefix_cons, prefix_nil. }
        left. exists (rel0 ++ [c]). split.
        -- apply prefix_app, prefix_cons, prefix_nil.
        -- apply elem_of_app; left. apply list_elem_of_fmap.
           exists c. split; [by rewrite Hjoin|by apply Hchild].
      * left. exists r0. split; [done|]. by apply elem_of_app; right.
    + intros He. by apply Hexit in He.
Qed.

Lemma apart_prefix x y : ¬ (F ++ x) `prefix_of` (T ++ y).
Proof.
  intros [r Hr]. rewrite <- app_assoc in Hr.
  by eapply (files_apart F T).
Qed.

Lemma inv_transfer i j s :
  lateral_inv rf rt F T fs0 seen0 s →
  st_workers s !! i = Some (Busy j) →
  ∃ w', copyFile (From j) (To j) (st_world s) = (inr tt, w')
    ∧ lateral_inv rf rt F T fs0 seen0
        {| st_world := w'; st_seen := st_seen s; st_walker := st_walker s;
           st_workers := <[i := Idle]> (st_workers s);
           st_closed := st_closed s; st_errs := st_errs s;
           st_result := st_result s; st_emitted := st_emitted s;
           st_ran := st_ran s ++ [(j, None)] |}.
Proof.
  intros [Hwf Hsrc HTd Hdst Htodo Hjobs Hwalker Hworkers Hsome Hcover Hseen
            Herrs Hexit Hclosed Hresult] Hi.
  unfold inflight in *.
  assert (Hperm : busy_jobs (st_workers s)
                  ≡ₚ j :: busy_jobs (<[i := Idle]> (st_workers s))).
  { by apply busy_jobs_release. }
  destruct (Hjobs j) as (rel & -> & Hne & Hfile).
  { apply elem_of_app; right. rewrite Hperm. by apply elem_of_cons; left. }
  pose proof Hfile as (p & d & Hf).
  destruct (exists_last Hne) as (rel' & n & ->).
  assert (Hgr : Forall good_name (rel' ++ [n])).
  { apply (good_rel F fs0); eauto. }
  assert (Hgd : Forall good_name ((T ++ rel') ++ [n])).
  { rewrite <- app_assoc. by apply Forall_app. }
  assert (Hstrict : ∀ q, q `prefix_of` rel' →
             ∃ pp, fs0 !! (F ++ q) = Some (Dir pp)).
  { intros q [r ->].
    apply (wf_prefix_dir fs0 (F ++ q) (r ++ [n]) Hwf0); [by destruct r|].
    rewrite <- !app_assoc in *. eauto. }
  set (dst := (T ++ rel') ++ [n]) in *.
  assert (HTdst : T ≠ dst).
  { intros Heq. apply (f_equal length) in Heq. unfold dst in Heq.
    rewrite !length_app in Heq. simpl in Heq. lia. }
  destruct (copyFile_mirror (From (job_of rf rt F T (rel' ++ [n])))
              (To (job_of rf rt F T (rel' ++ [n])))
              (F ++ rel' ++ [n]) (T ++ rel') n p d (st_world s))
    as (fs1 & tr & Hcp & Hmk); try done.
  - simpl. apply (key_from F fs0); eauto.
  - simpl. rewrite (key_to T) by done. by rewrite app_assoc.
  - simpl. rewrite app_assoc, Dir_render.
    + apply (key_to T); [done..|]. by apply Forall_app in Hgr as [? _].
    + by destruct T.
    + by apply Forall_app in Hgd as [? _].
    + apply Forall_app in Hgr as [_ Hn]. by apply Forall_inv in Hn.
  - by rewrite Hsrc.
  - intros q p' d' Hq Hfq.
    destruct (prefix_weak_total q T (T ++ rel')) as [[r ->]|[q' ->]];
      [done|by apply prefix_app_r|..].
    + destruct r as [|c r].
      * rewrite app_nil_r in HTd. destruct HTd. congruence.
      * destruct (wf_prefix_dir _ q (c :: r) Hwf) as [pp Hpp];
          [done|by destruct HTd; eauto|congruence].
    + apply prefix_app_inv in Hq. destruct q' as [|c q'].
      * rewrite app_nil_r in Hfq. destruct HTd. congruence.
      * apply Hdst in Hfq; [|done]. simpl in Hfq.
        destruct (Hstrict _ Hq). congruence.
  - destruct (files (st_world s) !! dst) as [nd|] eqn:Hd; [|by left].
    right. pose proof Hd as Hm. unfold dst in Hm. rewrite <- app_assoc in Hm.
    apply Hdst in Hm; [|done]. destruct nd as [p' d'|p']; simpl in Hm.
    + rewrite Hf in Hm. by injection Hm as <- <-.
    + destruct Hm. congruence.
  - unfold dst. rewrite <- app_assoc. by apply files_apart.
  - destruct (mkdir_from_spec _ _ _ _ _ Hmk) as (Ha & Hb & Hc).
    simpl in Hb, Hc.
    eexists. split; [exact Hcp|].
    assert (Hwf1 : wf fs1).
    { eapply mkdir_from_wf; [exact Hwf| |exact Hmk].
      simpl. by apply Forall_app in Hgd as [? _]. }
    assert (Hnew : ∀ x nd, files (st_world s) !! x = None →
               fs1 !! x = Some nd →
               nd = Dir p ∧ x `prefix_of` T ++ rel').
    { intros x nd H1 H2. destruct (Hb _ _ H1 H2) as (-> & q & _ & Hq & ->).
      done. }
    assert (Hdone : done_at F T fs0
                      (<[dst := File p d]> fs1) (rel' ++ [n])).
    { exists p, d. split; [done|]. rewrite app_assoc. apply lookup_insert_eq. }
    assert (Hkeep : ∀ rel1, done_at F T fs0 (files (st_world s)) rel1 →
               done_at F T fs0 (<[dst := File p d]> fs1) rel1).
    { intros rel1 (p1 & d1 & H1 & H2).
      destruct (decide (rel1 = rel' ++ [n])) as [->|Hne1]; [done|].
      exists p1, d1. split; [done|]. rewrite lookup_insert_ne.
      - by apply Ha.
      - unfold dst. rewrite <- app_assoc. intros Heq.
        by apply app_inv_head in Heq. }
    assert (Hstill : ∀ rel1,
               is_file0 F fs0 rel1 →
               job_of rf rt F T rel1
                 ∈ sending_job (st_walker s) ++ busy_jobs (st_workers s)
               ∨ done_at F T fs0 (files (st_world s)) rel1 →
               job_of rf rt F T rel1
                 ∈ sending_job (st_walker s)
                     ++ busy_jobs (<[i := Idle]> (st_workers s))
               ∨ done_at F T fs0 (<[dst := File p d]> fs1) rel1).
    { intros rel1 (p1 & d1 & Hf1) [Hin|Hd]; [|right; by apply Hkeep].
      rewrite Hperm in Hin.
      apply elem_of_app in Hin as [Hin|[Heq|Hin]%elem_of_cons].
      - left. by apply elem_of_app; left.
      - apply (job_of_inj F T fs0) in Heq; eauto. subst rel1. by right.
      - left. by apply elem_of_app; right. }
    split; unfold inflight; simpl; try done.
    + (* well-formed *)
      apply wf_insert; [done|by apply (Hc (T ++ rel'))|done|].
      right. intros c'.
      destruct (fs1 !! (dst ++ [c'])) as [nd|] eqn:Hch; [|done].
      destruct (files (st_world s) !! (dst ++ [c'])) as [nd0|] eqn:Hch0.
      * destruct (wf_parent _ Hwf _ _ _ Hch0) as [pp Hpp].
        unfold dst in Hpp. rewrite <- app_assoc in Hpp.
        apply Hdst in Hpp; [|done]. destruct Hpp. congruence.
      * destruct (Hnew _ _ Hch0 Hch) as [_ Hq%prefix_length].
        unfold dst in Hq. rewrite !length_app in Hq. simpl in Hq. lia.
    + (* the source is untouched *)
      intros x. rewrite lookup_insert_ne.
      * rewrite <- Hsrc.
        destruct (files (st_world s) !! (F ++ x)) as [nd|] eqn:Hx;
          [by apply Ha|].
        destruct (fs1 !! (F ++ x)) as [nd|] eqn:Hx1; [|done].
        destruct (Hnew _ _ Hx Hx1) as [_ Hq]. by apply apart_prefix in Hq.
      * unfold dst. rewrite <- app_assoc. intros Heq. symmetry in Heq.
        by apply (files_apart F T) in Heq.
    + destruct HTd as [pT HpT]. exists pT.
      rewrite lookup_insert_ne by done. by apply Ha.
    + (* the destination mirrors the source *)
      intros x nd Hx Hl.
      destruct (decide (x = rel' ++ [n])) as [->|Hne1].
      * unfold dst in Hl. rewrite <- app_assoc, lookup_insert_eq in Hl.
        by simplify_eq.
      * rewrite lookup_insert_ne in Hl.
        -- destruct (files (st_world s) !! (T ++ x)) as [nd0|] eqn:Hx0.
           ++ rewrite (Ha _ _ Hx0) in Hl. simplify_eq. by apply Hdst.
           ++ destruct (Hnew _ _ Hx0 Hl) as [-> Hq].
              apply prefix_app_inv in Hq. simpl. by apply Hstrict.
        -- unfold dst. rewrite <- app_assoc. intros Heq.
           by apply app_inv_head in Heq.
    + intros j' Hj'. apply Hjobs.
      apply elem_of_app in Hj' as [Hj'|Hj'].
      * by apply elem_of_app; left.
      * apply elem_of_app; right. rewrite Hperm. by apply elem_of_cons; right.
    + intros i' e. by apply lookup_insert_not.
    + by apply insert_nonempty.
    + intros rel1 Hf1. destruct (Hcover rel1 Hf1) as [Hp|Hrest]; [by left|].
      right. apply Hstill; [done|]. destruct Hrest; auto.
    + intros x Hx. destruct (Hseen x Hx) as [H0|(rel1 & Heq & Hf1 & Hc1)];
        [by left|].
      right. exists rel1. split; [done|]. split; [done|]. by apply Hstill.
    + intros [?|He]%elem_of_insert_inv; [done|]. by apply Hexit.
    + intros Hcl. apply Hclosed in Hcl.
      by apply (all_exited_lookup _ i (Busy (job_of rf rt F T (rel' ++ [n]))))
        in Hcl.
Qed.

Lemma inv_step a s s' :
  lateral_inv rf rt F T fs0 seen0 s →
  step (render rf F) (render rt T) a s = Some s' →
  lateral_inv rf rt F T fs0 seen0 s'.
Proof.
  intros Hinv Hs. destruct a; simpl in Hs.
  - (* visit *)
    destruct (st_walker s) as [[|path todo]| | | |] eqn:Hwk; simplify_eq.
    by apply inv_visit.
  - (* close work *)
    destruct (st_walker s) as [[|path todo]| | | |] eqn:Hwk; simplify_eq.
    destruct Hinv as [Hwf Hsrc HTd Hdst Htodo Hjobs Hwalker Hworkers Hsome
                        Hcover Hseen Herrs Hexit Hclosed Hresult].
    rewrite Hwk in *. unfold pending, inflight in *.
    split; unfold pending, inflight; simpl in *; try done.
  - (* hand off *)
    destruct (st_walker s) as [todo|j todo| | |] eqn:Hwk; simplify_eq.
    destruct (st_workers s !! i) as [[]|] eqn:Hi; simplify_eq.
    destruct Hinv as [Hwf Hsrc HTd Hdst Htodo Hjobs Hwalker Hworkers Hsome
                        Hcover Hseen Herrs Hexit Hclosed Hresult].
    rewrite Hwk in *. unfold pending, inflight in *.
    pose proof (busy_jobs_take (st_workers s) i j Hi) as Hperm.
    split; unfold pending, inflight; simpl in *; try done.
    + intros j' Hj'. apply Hjobs. by rewrite Hperm in Hj'.
    + intros i' e. by apply lookup_insert_not.
    + by apply insert_nonempty.
    + intros rel Hf. rewrite Hperm. by apply Hcover.
    + intros x Hx. setoid_rewrite Hperm. by apply Hseen.
    + intros [?|He]%elem_of_insert_inv; [done|]. by apply Hexit in He.
    + intros Hcl. apply Hclosed in Hcl.
      by apply (all_exited_lookup _ i Idle) in Hcl.
  - (* transfer *)
    destruct (st_workers s !! i) as [[|j| |]|] eqn:Hi; simplify_eq.
    destruct (inv_transfer i j s Hinv Hi) as (w' & Hcp & Hinv').
    rewrite Hcp in Hs. by simplify_eq.
  - (* report *)
    destruct (st_workers s !! i) as [[| |e|]|] eqn:Hi; simplify_eq.
    by destruct (li_workers _ _ _ _ _ _ _ Hinv i e).
  - (* the walker reports *)
    pose proof (li_walker _ _ _ _ _ _ _ Hinv) as Hw.
    by destruct (st_walker s); simplify_eq.
  - (* exit *)
    destruct (st_walker s) eqn:Hwk; simplify_eq.
    destruct (st_workers s !! i) as [[]|] eqn:Hi; simplify_eq.
    destruct Hinv as [Hwf Hsrc HTd Hdst Htodo Hjobs Hwalker Hworkers Hsome
                        Hcover Hseen Herrs Hexit Hclosed Hresult].
    rewrite Hwk in *. unfold pending, inflight in *.
    pose proof (busy_jobs_same (st_workers s) i Idle Exited Hi) as Hsame.
    split; unfold pending, inflight; simpl in *; rewrite ?Hwk, ?Hsame;
      try done.
    + intros i' e. by apply lookup_insert_not.
    + by apply insert_nonempty.
    + intros Hcl. apply Hclosed in Hcl.
      by apply (all_exited_lookup _ i Idle) in Hcl.
  - (* close failures *)
    destruct (all_exited (st_workers s) && negb (st_closed s)) eqn:Hc;
      simplify_eq.
    apply andb_true_iff in Hc as [Hall Hcl].
    destruct Hinv as [Hwf Hsrc HTd Hdst Htodo Hjobs Hwalker Hworkers Hsome
                        Hcover Hseen Herrs Hexit Hclosed Hresult].
    split; simpl; try done.
    intros r Hr. destruct (Hresult r Hr) as [Hcl' _].
    rewrite Hcl' in Hcl. done.
  - (* collect *)
    destruct (st_result s) eqn:Hr; [done|].
    destruct (st_closed s) eqn:Hcl; simplify_eq.
    destruct Hinv as [Hwf Hsrc HTd Hdst Htodo Hjobs Hwalker Hworkers Hsome
                        Hcover Hseen Herrs Hexit Hclosed Hresult].
    split; simpl; try done.
    + intros _. by apply Hclosed.
    + intros r [= <-]. by rewrite Herrs.
Qed.

(** Once [Copy] has returned, every file of the source is at the
    destination. *)
Lemma inv_returned s r :
  lateral_inv rf rt F T fs0 seen0 s →
  st_result s = Some r →
  r = None
  ∧ ∀ rel p d, fs0 !! (F ++ rel) = Some (File p d) →
               files (st_world s) !! (T ++ rel) = Some (File p d).
Proof.
  intros [Hwf Hsrc HTd Hdst Htodo Hjobs Hwalker Hworkers Hsome
            Hcover Hseen Herrs Hexit Hclosed Hresult] Hr.
  destruct (Hresult r Hr) as [Hcl ->]. split; [done|].
  apply Hclosed in Hcl.
  assert (Hfin : st_walker s = Finished).
  { apply Hexit. destruct (st_workers s) as [|wr ws] eqn:Hws; [done|].
    rewrite (all_exited_lookup _ 0 wr Hcl eq_refl).
    by apply elem_of_cons; left. }
  intros rel p d Hf.
  destruct (Hcover rel) as [(r0 & _ & Hin)|[Hin|(p' & d' & H1 & H2)]].
  - by exists p, d.
  - rewrite Hfin in Hin. by apply elem_of_nil in Hin.
  - unfold inflight in Hin.
    rewrite Hfin, (all_exited_no_busy _ Hcl) in Hin.
    by apply elem_of_nil in Hin.
  - congruence.
Qed.

End LateralSteps.

Lemma spawn_all_idle parallel wr : wr ∈ copyFiles_spawn parallel → wr = Idle.
Proof.
  unfold copyFiles_spawn. intros H.
  by apply list_elem_of_fmap in H as (x & -> & _).
Qed.

Lemma spawn_no_busy parallel : busy_jobs (copyFiles_spawn parallel) = [].
Proof.
  unfold copyFiles_spawn, busy_jobs.
  induction (seqZ 0 _) as [|x l IH]; [done|]. simpl. apply IH.
Qed.

Lemma spawn_nonempty parallel : parallel ≠ 1%Z → copyFiles_spawn parallel ≠ [].
Proof.
  intros Hp Hnil. apply (f_equal length) in Hnil.
  unfold copyFiles_spawn in Hnil. rewrite length_fmap, length_seqZ in Hnil.
  unfold effective_parallel in Hnil. simpl in Hnil.
  destruct (Z.ltb_spec parallel 1); lia.
Qed.

(** The invariant holds when [Copy] hands over to its goroutines. *)
Lemma inv_init c rf rt F T w c1 s0 :
  wf (files w) →
  F ≠ [] → T ≠ [] → Forall good_name F → Forall good_name T →
  Parallel c ≠ 1%Z →
  (∀ rel, rel ≠ [] → files w !! (T ++ rel) = None) →
  Copy c (render rf F) (render rt T) w = Copying c1 s0 →
  ∃ fs0,
    wf fs0
    ∧ (∃ p, fs0 !! F = Some (Dir p))
    ∧ (∀ x n, files w !! x = Some n → fs0 !! x = Some n)
    ∧ (∀ x p d, fs0 !! x = Some (File p d) → files w !! x = Some (File p d))
    ∧ lateral_inv rf rt F T fs0 (default ∅ (seen c)) s0.
Proof.
  intros Hwf HF HT HgF HgT Hpar Hfree Hc.
  apply Copy_Copying in Hc as (_ & perm & fs0 & Hfrom & _ & Hmk & -> & ->).
  unfold Fs.lookup in Hfrom. apply resolve_Some in Hfrom.
  rewrite key_render in Hfrom, Hmk by done.
  destruct (mkdir_from_spec _ _ _ _ _ Hmk) as (Ha & Hb & Hc).
  simpl in Hb, Hc.
  assert (Hwf0 : wf fs0).
  { eapply mkdir_from_wf; [exact Hwf| |exact Hmk]. done. }
  exists fs0. split; [done|]. split; [eauto|]. split; [done|].
  split.
  { intros x p d Hx. destruct (files w !! x) as [n|] eqn:Hw.
    - apply Ha in Hw. congruence.
    - by destruct (Hb _ _ Hw Hx) as [? _]. }
  split; unfold pending, inflight; simpl; rewrite ?spawn_no_busy; try done.
  - by apply (Hc T).
  - intros rel n Hrel Hn.
    destruct (Hb _ _ (Hfree rel Hrel) Hn) as (_ & q & _ & Hq%prefix_length & Heq).
    apply (f_equal length) in Heq. rewrite length_app in Heq.
    destruct rel; [done|]. simpl in Heq. lia.
  - intros path ->%list_elem_of_singleton. exists []. rewrite app_nil_r. eauto.
  - intros j Hj. by apply elem_of_nil in Hj.
  - intros i e Hi. by apply list_elem_of_lookup_2, spawn_all_idle in Hi.
  - by apply spawn_nonempty.
  - intros rel Hf. left. exists []. split; [apply prefix_nil|].
    rewrite app_nil_r. by apply list_elem_of_singleton.
  - auto.
  - by intros ?%spawn_all_idle.
Qed.

(** ** A lateral directory copy returns *)

Lemma NoDup_readDirNames (fs : gmap (list string) node) k :
  NoDup (Fs.readDirNames fs k).
Proof.
  unfold Fs.readDirNames. rewrite merge_sort_Permutation.
  pose proof (fin_maps.NoDup_fst_map_to_list fs) as Hnd.
  induction (map_to_list fs) as [|[k' n] l IH]; simpl; [constructor|].
  simpl in Hnd. apply NoDup_cons in Hnd as [Hk' Hnd].
  destruct (Fs.child_name k k') as [c|] eqn:Hc; simpl; [|by apply IH].
  apply NoDup_cons. split; [|by apply IH].
  intros Hin. apply list_elem_of_omap in Hin as ([k2 n2] & Hin2 & Hc2).
  apply child_name_Some in Hc, Hc2. simpl in Hc2. subst k' k2.
  apply Hk'. apply list_elem_of_fmap. by exists (k ++ [c], n2).
Qed.

Lemma entries_bounded (fs : gmap (list string) node) (l : list (list string)) :
  NoDup l → (∀ k, k ∈ l → is_Some (fs !! k)) → length l ≤ size (dom fs).
Proof.
  intros Hnd Hin. rewrite <- (size_list_to_set (C := gset (list string)) l Hnd).
  apply subseteq_size. intros k Hk. apply elem_of_list_to_set in Hk.
  by apply elem_of_dom, Hin.
Qed.

Section Returns.
Context (from to : string).

(** With the walk over and all workers idle, the copy winds up. *)
Lemma exit_all s a rest :
  st_walker s = Finished →
  st_workers s = replicate a Exited ++ rest →
  Forall (λ wr, wr = Idle) rest →
  ∃ s', exec from to (AExit <$> seq a (length rest)) s = Some s'
        ∧ st_workers s' = replicate (a + length rest) Exited
        ∧ st_closed s' = st_closed s ∧ st_errs s' = st_errs s
        ∧ st_result s' = st_result s.
Proof.
  revert s a. induction rest as [|wr rest IH]; intros s a Hwk Hws Hidle.
  - exists s. rewrite app_nil_r in Hws. rewrite Nat.add_0_r. done.
  - apply Forall_cons in Hidle as [-> Hidle]. simpl.
    rewrite Hwk, Hws.
    rewrite lookup_app_r by (rewrite length_replicate; lia).
    rewrite length_replicate, Nat.sub_diag. simpl.
    destruct (IH (set_worker s a Exited) (S a)) as (s' & He & H1 & H2 & H3 & H4).
    + done.
    + simpl. rewrite Hws.
      rewrite insert_app_r_alt by (rewrite length_replicate; lia).
      rewrite length_replicate, Nat.sub_diag. simpl.
      by rewrite app_comm_cons, replicate_cons_app, <- app_assoc.
    + done.
    + exists s'. split; [exact He|]. rewrite H1.
      split; [f_equal; lia|done].
Qed.

Lemma all_exited_replicate n : all_exited (replicate n Exited) = true.
Proof. induction n; simpl; auto. Qed.

Lemma finish_run s :
  quiet s → st_walker s = Walking [] → st_errs s = [] →
  ∃ acts s', exec from to acts s = Some s' ∧ st_result s' = Some None.
Proof.
  intros (Hidle & Hcl & Hres) Hwk Herrs.
  destruct (exit_all (set_walker s Finished) 0 (st_workers s))
    as (s1 & He & Hws & Hcl1 & Herr1 & Hres1); try done.
  simpl in *.
  eexists ([ACloseWork] ++ (AExit <$> seq 0 (length (st_workers s)))
             ++ [ACloseFailures; ACollect]), _.
  rewrite exec_app. simpl. rewrite Hwk. simpl.
  rewrite exec_app, He. simpl.
  rewrite Hws, all_exited_replicate, Hcl1, Hcl. simpl.
  rewrite Hres1, Hres. simpl. split; [reflexivity|]. simpl.
  by rewrite Herr1, Herrs.
Qed.

End Returns.

Section LateralReturns.
Context (rf rt : bool) (F T : list string).
Context (fs0 : gmap (list string) node) (seen0 : gset string).
Context (HF : F ≠ []) (HT : T ≠ []).
Context (HgT : Forall good_name T).
Context (Hun : unrelated F T).
Context (Hwf0 : wf fs0).
Context (HFdir : ∃ p, fs0 !! F = Some (Dir p)).
Context (Hseen0 : ∀ rel, Forall good_name rel →
                         render rt (T ++ rel) ∉ seen0).

Lemma walk_inv_visited visited p todo rel0 :
  Path.key p = F ++ rel0 → is_Some (fs0 !! (F ++ rel0)) →
  walk_inv F fs0 visited (p :: todo) →
  walk_inv F fs0 ((F ++ rel0) :: visited) todo.
Proof.
  intros Hkey Hs [Hnd Hdom Hpar]. simpl in *. rewrite Hkey in *. split.
  - simpl. by rewrite Permutation_middle.
  - intros k [->|Hk]%elem_of_cons; auto.
  - intros rel c Hin. apply elem_of_cons; right. apply (Hpar rel c).
    apply elem_of_app.
    apply elem_of_app in Hin as [[Heq|Hin]%elem_of_cons|Hin]; auto.
    + right. rewrite Heq. by apply elem_of_cons; left.
    + right. by apply elem_of_cons; right.
Qed.

Lemma walk_inv_children visited p todo rel0 names :
  Path.key p = F ++ rel0 → is_Some (fs0 !! (F ++ rel0)) →
  NoDup names →
  (∀ c, c ∈ names → is_Some (fs0 !! (F ++ rel0 ++ [c]))) →
  walk_inv F fs0 visited (p :: todo) →
  walk_inv F fs0 ((F ++ rel0) :: visited)
    ((render rf <$> ((λ c, F ++ rel0 ++ [c]) <$> names)) ++ todo).
Proof using HF Hwf0.
  intros Hkey Hs Hnames Hin Hold.
  pose proof (walk_inv_visited _ _ _ _ Hkey Hs Hold) as [Hnd Hdom Hpar].
  destruct Hold as [Hnd0 _ Hpar0]. simpl in Hnd0. rewrite Hkey in Hnd0.
  simpl in Hpar0. rewrite Hkey in Hpar0.
  set (g := λ c : string, F ++ rel0 ++ [c]) in *.
  assert (Hkeys : Path.key <$> ((render rf <$> (g <$> names)) ++ todo)
                  = (g <$> names) ++ (Path.key <$> todo)).
  { rewrite fmap_app. f_equal. rewrite <- !list_fmap_compose.
    apply Forall_fmap_ext_1, Forall_forall. intros c Hc. simpl.
    apply (key_from F fs0); auto. }
  assert (Hfresh : ∀ c, g c ∉ ((F ++ rel0) :: visited) ++ (Path.key <$> todo)).
  { intros c Hc.
    assert (Hv : F ++ rel0 ∈ visited).
    { apply (Hpar0 rel0 c). apply elem_of_app.
      apply elem_of_app in Hc as [[Heq|Hc]%elem_of_cons|Hc]; auto.
      - apply (f_equal length) in Heq. unfold g in Heq.
        rewrite !length_app in Heq. simpl in Heq. lia.
      - right. by apply elem_of_cons; right. }
    apply NoDup_app in Hnd0 as (_ & Hno & _).
    apply (Hno _ Hv). by apply elem_of_cons; left. }
  split; [|done|]; rewrite Hkeys.
  - rewrite (Permutation_app_comm (g <$> names)), app_assoc.
    apply NoDup_app. split; [done|]. split.
    + intros k Hk [c [-> _]]%list_elem_of_fmap. by apply (Hfresh c).
    + apply NoDup_fmap_2; [|done]. intros c c' Heq. unfold g in Heq.
      apply app_inv_head, app_inv_head in Heq. by injection Heq.
  - intros rel c Hc.
    apply elem_of_app in Hc as [Hc|[Hc|Hc]%elem_of_app].
    + apply (Hpar rel c). by apply elem_of_app; left.
    + apply list_elem_of_fmap in Hc as (c' & Heq & _). unfold g in Heq.
      apply app_inv_head in Heq. apply app_inj_tail in Heq as [-> _].
      by apply elem_of_cons; left.
    + apply (Hpar rel c). by apply elem_of_app; right.
Qed.

Lemma todo_head s p todo :
  lateral_inv rf rt F T fs0 seen0 s →
  st_walker s = Walking (p :: todo) →
  ∃ rel0, p = render rf (F ++ rel0)
          ∧ is_Some (fs0 !! (F ++ rel0))
          ∧ Path.key p = F ++ rel0.
Proof using HF Hwf0.
  intros Hinv Hwk.
  destruct (li_todo _ _ _ _ _ _ _ Hinv p) as (rel0 & -> & Hs0).
  { rewrite Hwk. by apply elem_of_cons; left. }
  exists rel0. split; [done|]. split; [done|]. by apply (key_from F fs0).
Qed.

Lemma exec_cons from to a acts s s1 :
  step from to a s = Some s1 →
  exec from to (a :: acts) s = exec from to acts s1.
Proof. intros Hs. simpl. by rewrite Hs. Qed.

(** Worker 0 takes every job as soon as it is sent: the walk goes on
    until nothing is left to visit, which takes one visit for each entry
    of the source at most. *)
Lemma lateral_returns n :
  ∀ visited s todo,
    size (dom fs0) ≤ length visited + n →
    lateral_inv rf rt F T fs0 seen0 s → quiet s →
    st_walker s = Walking todo →
    walk_inv F fs0 visited todo →
    ∃ acts s', exec (render rf F) (render rt T) acts s = Some s'
               ∧ st_result s' = Some None.
Proof using All.
  induction n as [|n IH]; intros visited s todo Hsize Hinv Hq Hwk Hwalk;
    (destruct todo as [|p todo];
     [apply finish_run; [done|done|by apply (li_errs _ _ _ _ _ _ _ Hinv)]|]);
    destruct (todo_head s p todo Hinv Hwk) as (rel0 & -> & Hs0 & Hkey);
    pose proof (walk_inv_visited _ _ _ _ Hkey Hs0 Hwalk) as Hwalk1.
  { (* no entry is left to visit *)
    exfalso.
    assert (S (length visited) ≤ size (dom fs0)); [|lia].
    apply (entries_bounded fs0 ((F ++ rel0) :: visited)).
    - destruct Hwalk1 as [Hnd _ _].
      by apply NoDup_app in Hnd as [? _].
    - apply Hwalk1. }
  set (p := render rf (F ++ rel0)) in *.
  assert (Hsize1 : size (dom fs0) ≤ length ((F ++ rel0) :: visited) + n)
    by (simpl; lia).
  assert (Hstep : step (render rf F) (render rt T) AVisit s
                  = Some (visit (render rf F) (render rt T) p todo s)).
  { simpl. by rewrite Hwk. }
  pose proof (inv_step rf rt F T fs0 seen0 HF HT HgT Hun Hwf0 HFdir Hseen0
                _ _ _ Hinv Hstep) as Hinv1.
  destruct Hq as (Hidle & Hcl & Hres).
  destruct Hs0 as [n0 Hn0].
  assert (Hlook : resolve (files (st_world s)) (Path.key p) = inr n0).
  { rewrite Hkey. apply resolve_wf; [by apply Hinv|].
    by rewrite (li_src _ _ _ _ _ _ _ Hinv). }
  destruct n0 as [pm d|perm].
  - (* a regular file *)
    destruct (visit_file (render rf F) (render rt T) p todo s pm d Hlook)
      as (w' & Hw' & Hvis).
    cbv zeta in Hvis. revert Hvis. case_decide as Hin; intros Hvis;
      rewrite Hvis in Hstep, Hinv1.
    + (* already in the Seen-set *)
      edestruct (IH ((F ++ rel0) :: visited)) as (acts & s' & He & Hr);
        [exact Hsize1|exact Hinv1|by split|reflexivity|exact Hwalk1|].
      exists (AVisit :: acts), s'. by rewrite (exec_cons _ _ _ _ _ _ Hstep).
    + (* sent to worker 0 and transferred *)
      assert (Hw0 : st_workers s !! 0 = Some Idle).
      { pose proof (li_some _ _ _ _ _ _ _ Hinv) as Hne.
        destruct (st_workers s) as [|wr ws]; [done|].
        by apply Forall_cons in Hidle as [-> _]. }
      match type of Hinv1 with
      | lateral_inv _ _ _ _ _ _ ?st => set (s1 := st) in *
      end.
      set (j := {| From := p;
                   To := Path.Join2 (render rt T)
                           (Path.Replace1 p (render rf F) "") |}) in *.
      assert (Hstep2 : step (render rf F) (render rt T) (AHandOff 0) s1
                = Some (set_worker (set_walker s1 (Walking todo)) 0 (Busy j))).
      { simpl. by rewrite Hw0. }
      pose proof (inv_step rf rt F T fs0 seen0 HF HT HgT Hun Hwf0 HFdir
                    Hseen0 _ _ _ Hinv1 Hstep2) as Hinv2.
      destruct (inv_transfer rf rt F T fs0 seen0 HF HT HgT Hun Hwf0 Hseen0
                  0 j _ Hinv2) as (w3 & Hcp & Hinv3).
      { simpl. apply list_lookup_insert_eq.
        by apply lookup_lt_Some in Hw0. }
      match type of Hinv3 with
      | lateral_inv _ _ _ _ _ _ ?st => set (s3 := st) in *
      end.
      assert (Hstep3 : step (render rf F) (render rt T) (ATransfer 0)
                         (set_worker (set_walker s1 (Walking todo)) 0 (Busy j))
                       = Some s3).
      { simpl. rewrite list_lookup_insert_eq
          by by apply lookup_lt_Some in Hw0.
        unfold j in *. simpl in Hcp |- *. by rewrite Hcp. }
      edestruct (IH ((F ++ rel0) :: visited) s3)
        as (acts & s' & He & Hr);
        [exact Hsize1|exact Hinv3| |reflexivity|exact Hwalk1|].
      { split; [|by split]. simpl.
        rewrite list_insert_insert_eq. by apply Forall_insert. }
      exists (AVisit :: AHandOff 0 :: ATransfer 0 :: acts), s'.
      rewrite (exec_cons _ _ _ _ _ _ Hstep), (exec_cons _ _ _ _ _ _ Hstep2).
      by rewrite (exec_cons _ _ _ _ _ _ Hstep3).
  - (* a directory *)
    destruct (visit_dir (render rf F) (render rt T) p todo s perm Hlook)
      as (w' & Hw' & Hvis).
    rewrite Hvis in Hstep, Hinv1. rewrite Hkey in Hstep, Hinv1.
    set (names := Fs.readDirNames (files (st_world s)) (F ++ rel0)) in *.
    assert (Hchild : ∀ c, c ∈ names → is_Some (fs0 !! (F ++ rel0 ++ [c]))).
    { intros c Hc. apply elem_of_readDirNames in Hc.
      by rewrite <- app_assoc, (li_src _ _ _ _ _ _ _ Hinv) in Hc. }
    assert (Hjoin : Path.Join2 p <$> names
                    = render rf <$> ((λ c, F ++ rel0 ++ [c]) <$> names)).
    { rewrite <- list_fmap_compose.
      apply Forall_fmap_ext_1, Forall_forall. intros c Hc. simpl.
      pose proof (good_in_fs0 F fs0 _ Hwf0 (Hchild c Hc)) as Hg.
      rewrite app_assoc in Hg. apply Forall_app in Hg as [Hg1 Hg2].
      apply Forall_inv in Hg2. unfold p.
      rewrite Join2_name; [by rewrite <- app_assoc|by destruct F|done..]. }
    rewrite Hjoin in Hstep, Hinv1.
    edestruct (IH ((F ++ rel0) :: visited)) as (acts & s' & He & Hr);
      [exact Hsize1|exact Hinv1|by split|reflexivity| |].
    { apply (walk_inv_children visited p); try done.
      apply NoDup_readDirNames. }
    exists (AVisit :: acts), s'. by rewrite (exec_cons _ _ _ _ _ _ Hstep).
Qed.

End LateralReturns.

Lemma walk_inv_init rf F fs0 :
  F ≠ [] → Forall good_name F → walk_inv F fs0 [] [render rf F].
Proof.
  intros HF HgF. split; simpl; rewrite ?key_render by done.
  - apply NoDup_singleton.
  - intros k Hk. by apply elem_of_nil in Hk.
  - intros rel c Heq%list_elem_of_singleton.
    apply (f_equal length) in Heq. rewrite !length_app in Heq.
    simpl in Heq. lia.
Qed.

(** * The claims *)

(** C1. The loop of [copyFiles] starts one goroutine less than the
    parallelism degree N it settled on (N is 10 for a degree below 1):
    N - 1 workers, none at all for a degree of 1, and 9 by default. *)
Theorem copyFiles_starts_one_worker_less (parallel : Z) :
  effective_parallel parallel
    = (if (parallel <? 1)%Z then 10%Z else parallel)
  ∧ length (copyFiles_spawn parallel)
      = Z.to_nat (effective_parallel parallel - 1)
  ∧ copyFiles_spawn 1 = []
  ∧ length (copyFiles_spawn 0) = 9.
Proof.
  split; [reflexivity|]. split; [|split; reflexivity].
  unfold copyFiles_spawn. rewrite length_fmap. apply length_seqZ.
Qed.

(** C2. [copyFile] onto an existing, longer file returns [nil] and leaves
    the destination with the source's bytes followed by the tail of what
    it held, under its old permission bits: the file is opened with
    [O_CREATE|O_RDWR], which does not truncate. The same through [Copy]
    with [Clobber] set. *)
Theorem copyFile_keeps_old_tail :
  has_flag (Z.lor O_CREATE O_RDWR) O_TRUNC = false
  ∧ (∃ w, copyFile "a" "b" Fixture.clobbered = (inr tt, w)
          ∧ files w !! ["a"] = Some (File 420 "xy")
          ∧ files w !! ["b"] = Some (File 384 "xyllo"))
  ∧ (∃ c w, Copy Fixture.clobbering "a" "b" Fixture.clobbered
              = Returned c None w
            ∧ files w !! ["b"] = Some (File 384 "xyllo")).
Proof.
  split; [reflexivity|]. split.
  - eexists. split; [vm_compute; reflexivity|]. split; vm_compute; reflexivity.
  - eexists _, _. split; [vm_compute; reflexivity|]. vm_compute; reflexivity.
Qed.







(** C5. A [Copy] that gets to stat its arguments ([from] and [to] differ):
    when the stat of [from] fails it returns that error wrapped as
    "reading file metadata"; when [from] is there, [to] exists and
    [Clobber] is false it returns [ErrClobberAvoided{to}]. In both cases
    the files are as before and the port has only been asked to stat. *)
Theorem Copy_short_circuits c from to w :
  from ≠ to →
  (∀ e, Fs.lookup w from = inl e →
     ∃ c' w',
       Copy c from to w =
         Returned c'
           (Some (Wrap "reading file metadata" (PathError "stat" from e))) w'
       ∧ files w' = files w
       ∧ trace w' = trace w ++ [CallStat from])
  ∧ (∀ n n', Fs.lookup w from = inr n → Fs.lookup w to = inr n' →
       Clobber c = false →
       ∃ c' w',
         Copy c from to w = Returned c' (Some (ErrClobberAvoided to)) w'
         ∧ files w' = files w
         ∧ trace w' = trace w ++ [CallStat from; CallStat to]).
Proof.
  intros Hne. split.
  - intros e He. eexists _, _. split; [by apply Copy_stat_error|].
    split; reflexivity.
  - intros n n' Hf Ht Hc. eexists _, _. split.
    + eapply Copy_guard; eauto. by rewrite Ht.
    + split; reflexivity.
Qed.

Lemma Copy_short_circuits_witness :
  ("nope" : string) ≠ "b"
  ∧ Fs.lookup Fixture.clobbered "nope" = inl ENOENT
  ∧ Fs.lookup Fixture.clobbered "a" = inr (File 420 "xy")
  ∧ Fs.lookup Fixture.clobbered "b" = inr (File 384 "hello")
  ∧ (∃ c' w',
       Copy Fixture.plain_copier "nope" "b" Fixture.clobbered =
         Returned c'
           (Some (Wrap "reading file metadata"
                       (PathError "stat" "nope" ENOENT))) w'
       ∧ files w' = files Fixture.clobbered
       ∧ trace w' = trace Fixture.clobbered ++ [CallStat "nope"])
  ∧ (∃ c' w',
       Copy Fixture.plain_copier "a" "b" Fixture.clobbered =
         Returned c' (Some (ErrClobberAvoided "b")) w'
       ∧ files w' = files Fixture.clobbered
       ∧ trace w' = trace Fixture.clobbered ++ [CallStat "a"; CallStat "b"]).
Proof.
  split; [done|]. split; [reflexivity|]. split; [reflexivity|].
  split; [reflexivity|].
  assert (Hne : ("nope" : string) ≠ "b") by done.
  assert (Hne' : ("a" : string) ≠ "b") by done.
  split.
  - apply (proj1 (Copy_short_circuits Fixture.plain_copier "nope" "b"
                    Fixture.clobbered Hne) ENOENT).
    reflexivity.
  - apply (proj2 (Copy_short_circuits Fixture.plain_copier "a" "b"
                    Fixture.clobbered Hne')
             (File 420 "xy") (File 384 "hello")); reflexivity.
Defined.

(** C6. [Copy(x, x)] returns [nil] at once, for any [x], any [Copier] and
    any filesystem: the [Copier] and the files are as before and no call
    at all has reached the port. *)
Theorem Copy_same_path_is_noop c x w : Copy c x x w = Returned c None w.
Proof. unfold Copy. by rewrite String.eqb_refl. Qed.

(** C7. On [partial], with [Clobber] set: the transfer to [to/b] fails,
    [Copy] returns a [Failures] with exactly that error, and the transfer
    to [to/a] does not fail; yet [to/a] does not hold the bytes of
    [from/a] but those followed by the tail of what it held before. *)
Theorem untouched_tail_after_partial_failure :
  ∃ c s0 s e,
    Copy Fixture.clobbering "from" "to" Fixture.partial = Copying c s0
    ∧ exec "from" "to" Fixture.partial_run s0 = Some s
    ∧ e = Wrap "creating to/b" (PathError "open" "to/b" EISDIR)
    ∧ st_result s = Some (Some (Failures [e]))
    ∧ st_ran s = [({| From := "from/a"; To := "to/a" |}, None);
                   ({| From := "from/b"; To := "to/b" |}, Some e)]
    ∧ files (st_world s) !! ["from"; "a"] = Some (File 420 "xy")
    ∧ files (st_world s) !! ["to"; "a"] = Some (File 420 "xyllo").
Proof.
  eexists _, _, _, _. split; [vm_compute; reflexivity|].
  split; [vm_compute; reflexivity|]. split; [reflexivity|].
  split; [vm_compute; reflexivity|]. split; [vm_compute; reflexivity|].
  split; vm_compute; reflexivity.
Qed.

(** C8. In a directory copy the walk function stores a destination path
    in the Seen-set before it sends the job, and sends nothing for a path
    the set already holds; so in every execution the destinations of the
    jobs sent are pairwise different and all in the Seen-set, and the
    transfers run are some of the jobs sent, each at most once. *)
Theorem walker_sends_each_destination_once
  (parallel : Z) (seen0 : gset string) (from to : string) (w : world)
  (acts : list action) (s : state) :
  exec from to acts (copier_copy parallel seen0 from w) = Some s →
  (∀ path info sn,
     Path.Join2 to (Path.Replace1 path from "") ∈ sn →
     walker_visit from to path info sn = (sn, None))
  ∧ (∀ path info sn sn' j,
       walker_visit from to path info sn = (sn', Some j) →
       (To j ∉ sn) ∧ To j ∈ sn')
  ∧ NoDup (To <$> st_emitted s)
  ∧ (∀ j, j ∈ st_emitted s → To j ∈ st_seen s)
  ∧ (st_ran s).*1 ⊆+ st_emitted s
  ∧ NoDup (To <$> (st_ran s).*1).
Proof.
  intros He.
  assert (Hinv : emitted_once seen0 s).
  { eapply exec_invariant; [|apply emitted_once_init|exact He].
    intros a s1 s2. apply emitted_once_step. }
  destruct Hinv as [Hnd Hsn _ Hw].
  assert (Hsub : (st_ran s).*1 ⊆+ st_emitted s).
  { rewrite <- Hw. apply submseteq_inserts_r. done. }
  split; [|split; [|split; [done|split; [|split; [done|]]]]].
  - intros path info sn Hin. unfold walker_visit.
    destruct (IsDir info); [done|]. by rewrite decide_True.
  - intros path info sn sn' j. unfold walker_visit.
    destruct (IsDir info); [done|]. case_decide; [done|].
    intros [= <- <-]. simpl. split; [done|]. apply elem_of_union_l.
    by apply elem_of_singleton.
  - intros j Hj. by apply Hsn.
  - apply (fmap_submseteq To) in Hsub.
    apply submseteq_Permutation in Hsub as [k Hk]. rewrite Hk in Hnd.
    by apply NoDup_app in Hnd as [? _].
Qed.

Lemma walker_sends_each_destination_once_witness :
  ∃ s, exec "from" "to" (Fixture.full_run 9)
         (copier_copy 0 ∅ "from" Fixture.tree) = Some s
       ∧ NoDup (To <$> st_emitted s)
       ∧ (st_ran s).*1 ⊆+ st_emitted s.
Proof.
  destruct (exec "from" "to" (Fixture.full_run 9)
              (copier_copy 0 ∅ "from" Fixture.tree)) as [s|] eqn:He.
  - exists s. split; [reflexivity|].
    pose proof (walker_sends_each_destination_once 0 ∅ "from" "to"
                  Fixture.tree (Fixture.full_run 9) s He) as H.
    split; [apply H|apply H].
  - vm_compute in He. discriminate He.
Defined.

(** C9. On the tree [from/a], [from/d/c]: with parallelism 1 no worker is
    started, so in every execution the destination [to] stays without
    files, and [Copy] returns [nil]; with parallelism 4 and 32 [Copy]
    returns [nil] with both files at the destination. *)
Theorem parallelism_one_copies_nothing :
  (∀ c s0 acts s,
     Copy (Fixture.with_parallel 1) "from" "to" Fixture.tree
       = Copying c s0 →
     exec "from" "to" acts s0 = Some s →
     files (st_world s) !! ["to"; "a"] = None
     ∧ files (st_world s) !! ["to"; "d"; "c"] = None)
  ∧ (∃ c s0 s,
       Copy (Fixture.with_parallel 1) "from" "to" Fixture.tree
         = Copying c s0
       ∧ exec "from" "to" Fixture.idle_run s0 = Some s
       ∧ st_result s = Some None)
  ∧ (∃ c s0 s,
       Copy (Fixture.with_parallel 4) "from" "to" Fixture.tree
         = Copying c s0
       ∧ exec "from" "to" (Fixture.full_run 3) s0 = Some s
       ∧ st_result s = Some None
       ∧ files (st_world s) !! ["to"; "a"] = Some (File 420 "xy")
       ∧ files (st_world s) !! ["to"; "d"; "c"] = Some (File 384 "hello"))
  ∧ (∃ c s0 s,
       Copy (Fixture.with_parallel 32) "from" "to" Fixture.tree
         = Copying c s0
       ∧ exec "from" "to" (Fixture.full_run 31) s0 = Some s
       ∧ st_result s = Some None
       ∧ files (st_world s) !! ["to"; "a"] = Some (File 420 "xy")
       ∧ files (st_world s) !! ["to"; "d"; "c"] = Some (File 384 "hello")).
Proof.
  split; [|split; [|split]].
  - intros c s0 acts s Hc He. vm_compute in Hc. injection Hc as <- <-.
    eapply no_workers_no_transfer in He as [_ ->]; [|reflexivity].
    split; vm_compute; reflexivity.
  - eexists _, _, _. split; [vm_compute; reflexivity|].
    split; vm_compute; reflexivity.
  - eexists _, _, _. split; [vm_compute; reflexivity|].
    split; [vm_compute; reflexivity|].
    split; [|split]; vm_compute; reflexivity.
  - eexists _, _, _. split; [vm_compute; reflexivity|].
    split; [vm_compute; reflexivity|].
    split; [|split]; vm_compute; reflexivity.
Qed.

(** C10. With [Clobber] false, [Copy] returns [ErrClobberAvoided{to}]
    whenever the stat of [to] fails with an error other than not-exist,
    although nothing may exist at [to]; the files are left as they were. *)
Theorem Copy_guard_fires_on_other_stat_errors c from to w n e :
  from ≠ to →
  Fs.lookup w from = inr n →
  Fs.lookup w to = inl e →
  e ≠ ENOENT →
  Clobber c = false →
  ∃ c' w',
    Copy c from to w = Returned c' (Some (ErrClobberAvoided to)) w'
    ∧ files w' = files w.
Proof.
  intros Hne Hf Ht He Hc. eexists _, _. split.
  - eapply Copy_guard; eauto. rewrite Ht. congruence.
  - reflexivity.
Qed.

Lemma Copy_guard_fires_on_other_stat_errors_witness :
  Fs.lookup Fixture.blocked "f/x" = inl ENOTDIR
  ∧ files Fixture.blocked !! ["f"; "x"] = None
  ∧ ∃ c' w',
      Copy Fixture.plain_copier "src" "f/x" Fixture.blocked
        = Returned c' (Some (ErrClobberAvoided "f/x")) w'
      ∧ files w' = files Fixture.blocked.
Proof.
  split; [reflexivity|]. split; [reflexivity|].
  apply (Copy_guard_fires_on_other_stat_errors Fixture.plain_copier
           "src" "f/x" Fixture.blocked (File 420 "xy") ENOTDIR);
    [done | reflexivity | reflexivity | done | reflexivity].
Defined.

(** * Further properties *)

(** ** More facts on paths and on the filesystem port *)

Section KeyFacts.

Lemma Split_no_sep s : Forall (λ x, no_sep x = true) (Path.Split s).
Proof.
  induction s as [|c s IH]; simpl.
  - by apply Forall_singleton.
  - destruct (Path.is_sep c) eqn:Hc.
    + by apply Forall_cons.
    + destruct (Path.Split s) as [|t ts]; [by apply Forall_singleton; simpl; rewrite Hc|].
      apply Forall_cons in IH as [Ht Hts]. apply Forall_cons. split; [|done].
      simpl. by rewrite Hc.
Qed.

Lemma clean_step_rooted_good st c :
  Forall good_name st → no_sep c = true →
  Forall good_name (Path.clean_step true st c).
Proof.
  intros Hst Hc. unfold Path.clean_step.
  destruct (String.eqb_spec c "") as [->|H1]; [done|].
  destruct (String.eqb_spec c ".") as [->|H2]; [done|]. simpl.
  destruct (String.eqb_spec c "..") as [->|H3].
  - destruct st as [|top rest]; [done|].
    apply Forall_cons in Hst as [Htop Hrest].
    destruct (String.eqb_spec top "..") as [->|_]; [|done].
    by destruct Htop as (_ & _ & ? & _).
  - apply Forall_cons. done.
Qed.

Lemma fold_clean_rooted_good l st :
  Forall good_name st → Forall (λ x, no_sep x = true) l →
  Forall good_name (fold_left (Path.clean_step true) l st).
Proof.
  revert st. induction l as [|c l IH]; intros st Hst Hl; [done|].
  apply Forall_cons in Hl as [Hc Hl]. simpl. apply IH; [|done].
  by apply clean_step_rooted_good.
Qed.

(** The elements a path resolves to are names. *)
Lemma key_good p : Forall good_name (Path.key p).
Proof.
  unfold Path.key, Path.clean_elems. apply Forall_rev.
  apply fold_clean_rooted_good; [done|apply Split_no_sep].
Qed.

Lemma key_Dir_name r n :
  good_name n → Path.key (Path.Dir (render r [n])) = [].
Proof.
  intros Hn. unfold Path.Dir, render. simpl Path.Join.
  destruct r; str; simpl.
  - rewrite up_to_last_sep_name by by apply good_name_no_sep. reflexivity.
  - rewrite up_to_last_sep_name by by apply good_name_no_sep. reflexivity.
Qed.

(** The directory of a clean path. *)
Lemma key_Dir_plain to kd n :
  plain to (kd ++ [n]) →
  Path.key to = kd ++ [n] ∧ Path.key (Path.Dir to) = kd.
Proof.
  intros (Hk & Hg & r & ->). split; [by apply key_render|].
  pose proof Hg as Hg'. apply Forall_app in Hg' as [Hgd Hn]. apply Forall_inv in Hn.
  destruct kd as [|x kd].
  - simpl. by apply key_Dir_name.
  - rewrite Dir_render by done. by apply key_render.
Qed.

End KeyFacts.

Section TransferMore.
Implicit Types fs : gmap (list string) node.

Lemma kept_refl fs : kept fs fs.
Proof. intros k nd Hk. eauto. Qed.

Lemma kept_trans fs1 fs2 fs3 : kept fs1 fs2 → kept fs2 fs3 → kept fs1 fs3.
Proof.
  intros H12 H23 k nd Hk. destruct (H12 _ _ Hk) as (nd1 & Hk1 & Hi1).
  destruct (H23 _ _ Hk1) as (nd2 & Hk2 & Hi2). exists nd2.
  split; [done|]. congruence.
Qed.

Lemma transfer_effect_refl kt kdir fs : transfer_effect kt kdir fs fs.
Proof. split; [done|eauto|congruence]. Qed.

Lemma transfer_effect_trans kt kdir fs1 fs2 fs3 :
  transfer_effect kt kdir fs1 fs2 → transfer_effect kt kdir fs2 fs3 →
  transfer_effect kt kdir fs1 fs3.
Proof.
  intros [Ho1 Hd1 Hn1] [Ho2 Hd2 Hn2]. split.
  - intros k nd Hk Hne. apply Ho2; [|done]. by apply Ho1.
  - intros nd Hk. destruct (Hd1 _ Hk) as (nd1 & Hk1 & Hi1).
    destruct (Hd2 _ Hk1) as (nd2 & Hk2 & Hi2). exists nd2.
    split; [done|]. congruence.
  - intros k nd Hk Hk3. destruct (fs2 !! k) as [nd2|] eqn:Hk2.
    + destruct (Hn1 _ _ Hk Hk2) as [[-> (m & d & ->)]|[Hpre (p & ->)]].
      * left. split; [done|].
        destruct (Hd2 _ Hk2) as (nd3 & Hk3' & Hi). simplify_eq.
        destruct nd; simplify_eq/=. eauto.
      * right. split; [done|].
        destruct (decide (k = kt)) as [->|Hne].
        -- destruct (Hd2 _ Hk2) as (nd3 & Hk3' & Hi). simplify_eq.
           destruct nd; simplify_eq/=. eauto.
        -- rewrite (Ho2 _ _ Hk2 Hne) in Hk3. simplify_eq. eauto.
    + by apply Hn2.
Qed.

Lemma transfer_effect_kept kt kdir fs fs' :
  transfer_effect kt kdir fs fs' → kept fs fs'.
Proof.
  intros [Ho Hd _] k nd Hk. destruct (decide (k = kt)) as [->|Hne].
  - by apply Hd.
  - exists nd. split; [by apply Ho|done].
Qed.

Lemma resolve_error_absent fs k e :
  wf fs → resolve fs k = inl e → fs !! k = None.
Proof.
  intros Hwf Hr. destruct (fs !! k) as [n|] eqn:Hk; [|done].
  rewrite (resolve_wf _ _ _ Hwf Hk) in Hr. done.
Qed.

(** A path that does not exist for [stat]: nothing is there and no
    regular file lies on the way. *)
Lemma resolve_from_ENOENT fs pre rest :
  wf fs → resolve_from fs pre rest = inl ENOENT →
  ∀ q p d, q `prefix_of` rest → fs !! (pre ++ q) ≠ Some (File p d).
Proof.
  intros Hwf. revert pre. induction rest as [|c rest IH]; intros pre; simpl.
  - destruct (fs !! pre) eqn:Hp; [done|]. intros _ q p d Hq.
    apply prefix_nil_inv in Hq as ->. rewrite app_nil_r. congruence.
  - destruct (fs !! pre) as [[m d0|m]|] eqn:Hp; [done| |].
    + intros Hr q p d Hq. destruct q as [|c' q].
      * rewrite app_nil_r. congruence.
      * apply prefix_cons_inv_1 in Hq as Hc. subst c'.
        apply prefix_cons_inv_2 in Hq.
        replace (pre ++ c :: q) with ((pre ++ [c]) ++ q)
          by by rewrite <- app_assoc.
        by apply IH.
    + intros _ q p d Hq Hf. destruct q as [|c' q].
      * rewrite app_nil_r in Hf. congruence.
      * destruct (wf_prefix_dir fs pre (c' :: q) Hwf) as [m Hm];
          [done|eauto|congruence].
Qed.

Lemma mkdir_from_id fs pre rest perm :
  wf fs → is_Some (fs !! (pre ++ rest)) →
  (∀ m d, fs !! (pre ++ rest) ≠ Some (File m d)) →
  Fs.mkdir_from fs pre rest perm = inr fs.
Proof.
  intros Hwf. revert pre. induction rest as [|c rest IH]; intros pre Hs Hnf.
  - simpl. rewrite app_nil_r in Hs, Hnf. destruct Hs as [[m d|m] Hn].
    + by destruct (Hnf m d).
    + by rewrite Hn.
  - simpl.
    destruct (wf_prefix_dir fs pre (c :: rest) Hwf) as [m ->]; [done|done|].
    assert (Hc : is_Some (fs !! (pre ++ [c]))).
    { destruct rest as [|c' rest].
      - done.
      - destruct (wf_prefix_dir fs (pre ++ [c]) (c' :: rest) Hwf)
          as [m' Hm']; [done|by rewrite <- app_assoc|eauto]. }
    destruct Hc as [nd ->]. apply IH; by rewrite <- app_assoc.
Qed.

Lemma mkdir_from_file fs pre rest perm m d :
  wf fs → fs !! (pre ++ rest) = Some (File m d) →
  Fs.mkdir_from fs pre rest perm = inl ENOTDIR.
Proof.
  intros Hwf. revert pre. induction rest as [|c rest IH]; intros pre Hf.
  - simpl. rewrite app_nil_r in Hf. by rewrite Hf.
  - simpl.
    destruct (wf_prefix_dir fs pre (c :: rest) Hwf) as [m' ->];
      [done|eauto|].
    assert (Hc : is_Some (fs !! (pre ++ [c]))).
    { destruct rest as [|c' rest].
      - eauto.
      - destruct (wf_prefix_dir fs (pre ++ [c]) (c' :: rest) Hwf)
          as [m'' Hm'']; [done|rewrite <- app_assoc; eauto|eauto]. }
    destruct Hc as [nd ->]. apply IH. by rewrite <- app_assoc.
Qed.

Lemma bind_inv {A B} (m : io A) (k : A → io B) w r w' :
  (m ≫= k) w = (r, w') →
  (∃ e, m w = (inl e, w') ∧ r = inl e)
  ∨ (∃ a w1, m w = (inr a, w1) ∧ k a w1 = (r, w')).
Proof.
  unfold mbind, io_bind, bind. destruct (m w) as [[e|a] w1].
  - intros [= <- <-]. left. eauto.
  - intros Hk. right. eauto.
Qed.

Lemma wrap_inv {A} msg (m : io A) w r w' :
  wrap msg m w = (r, w') →
  ∃ r0, m w = (r0, w')
        ∧ r = match r0 with inl e => inl (Wrap msg e) | inr a => inr a end.
Proof.
  unfold wrap. destruct (m w) as [[e|a] w1]; intros [= <- <-]; eauto.
Qed.

Lemma Open_inv p w r w' :
  Fs.Open p w = (r, w') →
  files w' = files w
  ∧ ∀ h, r = inr h →
      h = Path.key p ∧ ∃ n, resolve (files w) (Path.key p) = inr n.
Proof.
  unfold Fs.Open, mbind, io_bind, bind, log, get_files, fail. simpl.
  destruct (resolve (files w) (Path.key p)) as [e|n] eqn:Hr;
    intros [= <- <-]; (split; [done|]); intros h [= <-]. eauto.
Qed.

Lemma File_Stat_inv h w r w' :
  Fs.File_Stat h w = (r, w') →
  w' = w ∧ ∀ fi, r = inr fi → ∃ n, files w !! h = Some n ∧ fi = info_of n.
Proof.
  unfold Fs.File_Stat, mbind, io_bind, bind, get_files, fail. simpl.
  destruct (files w !! h) as [n|] eqn:Hn; intros [= <- <-];
    (split; [done|]); intros fi [= <-]. eauto.
Qed.

Lemma MkdirAll_inv p perm w r w' :
  Fs.MkdirAll p perm w = (r, w') →
  (∃ e, r = inl (PathError "mkdir" p e) ∧ files w' = files w
        ∧ Fs.mkdir_from (files w) [] (Path.key p) perm = inl e)
  ∨ (r = inr tt
     ∧ Fs.mkdir_from (files w) [] (Path.key p) perm = inr (files w')).
Proof.
  unfold Fs.MkdirAll, mbind, io_bind, bind, log, get_files, put_files, fail.
  simpl.
  destruct (Fs.mkdir_from (files w) [] (Path.key p) perm) as [e|fs'] eqn:Hm;
    intros [= <- <-]; [left|right]; eauto.
Qed.

Lemma OpenFile_inv p perm w r w' :
  Fs.OpenFile p (Z.lor O_CREATE O_RDWR) perm w = (r, w') →
  (files w' = files w
   ∧ ((∃ e, r = inl (PathError "open" p e))
      ∨ (r = inr (Path.key p)
         ∧ ∃ m d, resolve (files w) (Path.key p) = inr (File m d))))
  ∨ (r = inr (Path.key p)
     ∧ resolve (files w) (Path.key p) = inl ENOENT
     ∧ (∃ p', resolve (files w) (removelast (Path.key p)) = inr (Dir p'))
     ∧ files w' = <[Path.key p := File perm ""]> (files w)).
Proof.
  unfold Fs.OpenFile, mbind, io_bind, bind, log, get_files, put_files, fail.
  simpl.
  destruct (resolve (files w) (Path.key p)) as [[]|[m d|m]] eqn:Hr; simpl.
  - destruct (resolve (files w) (removelast (Path.key p)))
      as [e|[m d|m]] eqn:Hp; simpl; intros [= <- <-].
    + left. split; [done|]. left. eauto.
    + left. split; [done|]. left. eauto.
    + right. eauto.
  - intros [= <- <-]. left. split; [done|]. left. eauto.
  - intros [= <- <-]. left. split; [done|]. left. eauto.
  - intros [= <- <-]. left. split; [done|]. left. eauto.
  - intros [= <- <-]. left. split; [done|]. right. eauto.
  - intros [= <- <-]. left. split; [done|]. left. eauto.
Qed.

Lemma io_Copy_inv dst src w r w' :
  Fs.io_Copy dst src w = (r, w') →
  (∃ e, r = inl e ∧ files w' = files w)
  ∨ (∃ m old ps d,
       r = inr (String.length d)
       ∧ files w !! src = Some (File ps d)
       ∧ files w !! dst = Some (File m old)
       ∧ files w' = <[dst := File m (Fs.overwrite old d)]> (files w)).
Proof.
  unfold Fs.io_Copy, mbind, io_bind, bind, log, get_files, put_files, fail.
  simpl.
  destruct (files w !! src) as [[ps d|ps]|] eqn:Hs; simpl.
  - destruct (files w !! dst) as [[m old|m]|] eqn:Hd; simpl;
      intros [= <- <-]; [right|left|left]; eauto 10.
  - intros [= <- <-]. left. eauto.
  - intros [= <- <-]. left. eauto.
Qed.

End TransferMore.

Section TransferEffect.
Implicit Types fs : gmap (list string) node.

Lemma wf_insert_file fs k m d :
  wf fs → k ≠ [] → Forall good_name k →
  (∃ p, fs !! removelast k = Some (Dir p)) →
  (∀ p, fs !! k ≠ Some (Dir p)) →
  wf (<[k := File m d]> fs).
Proof.
  intros Hwf Hk Hg Hp Hnd.
  destruct k as [|c kd _] using rev_ind; [done|].
  rewrite removelast_last in Hp.
  apply wf_insert; [done|done|done|]. right. intros c'.
  by apply wf_no_children.
Qed.

Lemma wf_rewrite_file fs k m old d :
  wf fs → fs !! k = Some (File m old) → wf (<[k := File m d]> fs).
Proof.
  intros Hwf Hk. destruct k as [|c kd _] using rev_ind.
  { destruct (wf_root fs Hwf) as [p Hp]. congruence. }
  apply wf_insert_file; [done|by destruct kd|by eapply wf_names| |congruence].
  rewrite removelast_last. by eapply wf_parent.
Qed.

Lemma mkdir_effect kt fs kdir perm fs1 :
  Fs.mkdir_from fs [] kdir perm = inr fs1 → transfer_effect kt kdir fs fs1.
Proof.
  intros Hm. destruct (mkdir_from_spec _ _ _ _ _ Hm) as (Ha & Hb & _). split.
  - intros k nd Hk _. by apply Ha.
  - intros nd Hk. exists nd. split; [by apply Ha|done].
  - intros k nd Hk Hk1. right.
    destruct (Hb _ _ Hk Hk1) as (-> & q & _ & Hq & ->). eauto.
Qed.

Lemma create_effect kt kdir fs m d :
  fs !! kt = None → transfer_effect kt kdir fs (<[kt := File m d]> fs).
Proof.
  intros Hn. split.
  - intros k nd Hk Hne. by rewrite lookup_insert_ne.
  - intros nd Hk. congruence.
  - intros k nd Hk Hk1. left.
    destruct (decide (kt = k)) as [->|Hne].
    + rewrite lookup_insert_eq in Hk1. simplify_eq. eauto.
    + rewrite lookup_insert_ne in Hk1 by done. congruence.
Qed.

Lemma write_effect kt kdir fs m old d :
  fs !! kt = Some (File m old) →
  transfer_effect kt kdir fs (<[kt := File m d]> fs).
Proof.
  intros Hn. split.
  - intros k nd Hk Hne. by rewrite lookup_insert_ne.
  - intros nd Hk. simplify_eq. rewrite lookup_insert_eq. eauto.
  - intros k nd Hk Hk1.
    destruct (decide (kt = k)) as [->|Hne]; [congruence|].
    rewrite lookup_insert_ne in Hk1 by done. congruence.
Qed.

(** Whatever it returns, [copyFile] leaves a well-formed filesystem in
    which nothing but the destination and the directories on the way to
    it has changed. *)
Lemma copyFile_effect from to w r w' :
  wf (files w) → copyFile from to w = (r, w') →
  wf (files w')
  ∧ transfer_effect (Path.key to) (Path.key (Path.Dir to))
      (files w) (files w').
Proof.
  intros Hwf Hcp. unfold copyFile in Hcp.
  apply bind_inv in Hcp as [(e & Ho & ->)|(fromFile & w1 & Ho & Hcp)].
  { apply wrap_inv in Ho as (r0 & Ho & _). apply Open_inv in Ho as [-> _].
    split; [done|apply transfer_effect_refl]. }
  apply wrap_inv in Ho as (r0 & Ho & Hr0). apply Open_inv in Ho as [Hf1 _].
  apply bind_inv in Hcp as [(e & Hs & ->)|(fromFi & w2 & Hs & Hcp)].
  { apply wrap_inv in Hs as (r1 & Hs & _).
    apply File_Stat_inv in Hs as [-> _]. rewrite Hf1.
    split; [done|apply transfer_effect_refl]. }
  apply wrap_inv in Hs as (r1 & Hs & _). apply File_Stat_inv in Hs as [-> _].
  rewrite <- Hf1 in *. clear Hf1 Hr0 r0.
  apply bind_inv in Hcp as [(e & Hm & ->)|([] & w3 & Hm & Hcp)].
  { apply wrap_inv in Hm as (r2 & Hm & Hr2).
    apply MkdirAll_inv in Hm as [(e' & -> & -> & _)|[-> _]]; [|done].
    split; [done|apply transfer_effect_refl]. }
  apply wrap_inv in Hm as (r2 & Hm & Hr2).
  apply MkdirAll_inv in Hm as [(e' & -> & _)|[-> Hm]]; [done|].
  assert (Hwf3 : wf (files w3)).
  { eapply mkdir_from_wf; [exact Hwf| |exact Hm]. apply key_good. }
  assert (He3 : transfer_effect (Path.key to) (Path.key (Path.Dir to))
                  (files w1) (files w3))
    by (eapply mkdir_effect; exact Hm).
  clear Hm Hr2.
  apply bind_inv in Hcp as [(e & Hf & ->)|(toFile & w4 & Hf & Hcp)].
  { apply wrap_inv in Hf as (r3 & Hf & Hr3).
    apply OpenFile_inv in Hf as [[-> _]|(-> & _)]; [done|done]. }
  apply wrap_inv in Hf as (r3 & Hf & Hr3).
  assert (Hwf4 : wf (files w4)
                 ∧ transfer_effect (Path.key to) (Path.key (Path.Dir to))
                     (files w1) (files w4)
                 ∧ toFile = Path.key to).
  { apply OpenFile_inv in Hf
      as [[-> [[e ->]|[-> _]]]|(-> & Hr & [p' Hp] & ->)]; simplify_eq.
    - done.
    - split; [|split; [|done]].
      + apply wf_insert_file; [done| |apply key_good| |].
        * intros Hk. rewrite Hk in Hr.
          destruct (wf_root _ Hwf3) as [p0 H0].
          by rewrite (resolve_wf _ _ _ Hwf3 H0) in Hr.
        * exists p'. by apply resolve_Some.
        * intros p Hk. by rewrite (resolve_wf _ _ _ Hwf3 Hk) in Hr.
      + eapply transfer_effect_trans; [exact He3|].
        apply create_effect. by eapply resolve_error_absent. }
  destruct Hwf4 as (Hwf4 & He4 & ->). clear Hf Hr3 He3 Hwf3.
  apply bind_inv in Hcp as [(e & Hc & ->)|(nb & w5 & Hc & Hcp)].
  { apply wrap_inv in Hc as (r4 & Hc & Hr4).
    apply io_Copy_inv in Hc
      as [(e' & -> & ->)|(m & old & ps & d & -> & _)]; done. }
  apply wrap_inv in Hc as (r4 & Hc & Hr4).
  unfold mret, io_ret, ret in Hcp. injection Hcp as <- <-.
  apply io_Copy_inv in Hc
    as [(e' & -> & ->)|(m & old & ps & d & -> & _ & Hd & ->)]; [done|].
  split.
  - by eapply wf_rewrite_file.
  - eapply transfer_effect_trans; [exact He4|]. by eapply write_effect.
Qed.

End TransferEffect.

Section TransferCases.
Implicit Types fs : gmap (list string) node.

Lemma length_append (a b : string) :
  String.length (a +:+ b) = String.length a + String.length b.
Proof. induction a as [|c a IH]; [done|]. str. simpl. by rewrite IH. Qed.

Lemma length_drop_chars n (s : string) :
  String.length (Path.drop_chars n s) = String.length s - n.
Proof.
  revert s. induction n as [|n IH]; intros [|c s]; simpl; try done.
Qed.

Lemma drop_chars_all n (s : string) :
  String.length s ≤ n → Path.drop_chars n s = "".
Proof.
  revert s. induction n as [|n IH]; intros [|c s]; simpl; try done; [lia|].
  intros Hl. apply IH. lia.
Qed.

(** What is in a file after [d] has been written over [old] from its
    start: [d], then what [old] held beyond the length of [d]. *)
Lemma overwrite_shape old d :
  String.prefix d (Fs.overwrite old d) = true
  ∧ String.length (Fs.overwrite old d)
    = String.length old `max` String.length d
  ∧ (String.length old ≤ String.length d → Fs.overwrite old d = d).
Proof.
  unfold Fs.overwrite. split; [apply prefix_append|]. split.
  - rewrite length_append, length_drop_chars. lia.
  - intros Hl. rewrite drop_chars_all by done. apply append_nil_r.
Qed.

Lemma plain_last to kt :
  plain to kt → ∃ kd n, kt = kd ++ [n].
Proof.
  intros (Hk & _). destruct kt as [|n kd _] using rev_ind; [done|]. eauto.
Qed.

Lemma lookup_Some_file w p m d :
  Fs.lookup w p = inr (File m d) → files w !! Path.key p = Some (File m d).
Proof. apply resolve_Some. Qed.

(** [copyFile] to a path at which nothing exists. *)
Lemma copyFile_absent from to kd n p d w :
  wf (files w) → plain to (kd ++ [n]) →
  Fs.lookup w from = inr (File p d) →
  Fs.lookup w to = inl ENOENT →
  ∃ fs1 tr,
    copyFile from to w
      = (inr tt, {| files := <[kd ++ [n] := File p d]> fs1; trace := tr |})
    ∧ Fs.mkdir_from (files w) [] kd p = inr fs1.
Proof.
  intros Hwf Hto Hf Ht. destruct (key_Dir_plain _ _ _ Hto) as [Hkt Hkd].
  unfold Fs.lookup in Ht. rewrite Hkt in Ht.
  assert (Hnone : files w !! (kd ++ [n]) = None)
    by by eapply resolve_error_absent.
  apply resolve_Some in Hf.
  eapply copyFile_mirror; try done.
  - by destruct Hto as (_ & ? & _).
  - intros q p' d' Hq.
    apply (resolve_from_ENOENT (files w) [] (kd ++ [n]) Hwf Ht).
    by apply prefix_app_r.
  - by left.
  - congruence.
Qed.

(** [copyFile] to a path at which a regular file exists. *)
Lemma copyFile_present from to kt p d m old w :
  wf (files w) → plain to kt →
  Fs.lookup w from = inr (File p d) →
  files w !! kt = Some (File m old) →
  ∃ tr,
    copyFile from to w
      = (inr tt, {| files := <[kt := File m (Fs.overwrite old d)]> (files w);
                    trace := tr |}).
Proof.
  intros Hwf Hto Hf Ht. destruct (plain_last _ _ Hto) as (kd & n & ->).
  destruct (key_Dir_plain _ _ _ Hto) as [Hkt Hkd].
  destruct (wf_parent _ Hwf _ _ _ Ht) as [pd Hpd].
  unfold copyFile.
  erewrite bind_ok; last first.
  { apply wrap_ok. eapply Open_ok. exact Hf. }
  erewrite bind_ok; last first.
  { apply wrap_ok. eapply File_Stat_ok. by apply resolve_Some in Hf. }
  simpl Mode.
  erewrite bind_ok; last first.
  { apply wrap_ok, MkdirAll_ok. rewrite Hkd.
    apply mkdir_from_id; [done|simpl; eauto|simpl; congruence]. }
  erewrite bind_ok; last first.
  { apply wrap_ok. eapply OpenFile_existing; simpl; rewrite Hkt.
    by apply resolve_wf. }
  erewrite bind_ok; last first.
  { apply wrap_ok. eapply io_Copy_ok; simpl.
    - by apply resolve_Some in Hf.
    - rewrite Hkt. exact Ht. }
  simpl. rewrite Hkt. eauto.
Qed.

(** [copyFile] to a path at which a directory exists. *)
Lemma copyFile_onto_dir from to kt p d m w :
  wf (files w) → plain to kt →
  Fs.lookup w from = inr (File p d) →
  files w !! kt = Some (Dir m) →
  ∃ tr,
    copyFile from to w
      = (inl (Wrap ("creating " +:+ to) (PathError "open" to EISDIR)),
         {| files := files w; trace := tr |}).
Proof.
  intros Hwf Hto Hf Ht. destruct (plain_last _ _ Hto) as (kd & n & ->).
  destruct (key_Dir_plain _ _ _ Hto) as [Hkt Hkd].
  destruct (wf_parent _ Hwf _ _ _ Ht) as [pd Hpd].
  unfold copyFile.
  erewrite bind_ok; last first.
  { apply wrap_ok. eapply Open_ok. exact Hf. }
  erewrite bind_ok; last first.
  { apply wrap_ok. eapply File_Stat_ok. by apply resolve_Some in Hf. }
  simpl Mode.
  erewrite bind_ok; last first.
  { apply wrap_ok, MkdirAll_ok. rewrite Hkd.
    apply mkdir_from_id; [done|simpl; eauto|simpl; congruence]. }
  unfold Fs.OpenFile, wrap, mbind, io_bind, bind, log, get_files, fail.
  simpl. rewrite Hkt, (resolve_wf _ _ _ Hwf Ht). simpl. eauto.
Qed.

(** [Copy] of a regular file, past the clobber guard. *)
Lemma Copy_regular c from to w p d :
  from ≠ to →
  Fs.lookup w from = inr (File p d) →
  Fs.lookup w to = inl ENOENT ∨ Clobber c = true →
  Copy c from to w
  = let '(r, w') :=
      copyFile from to
        {| files := files w;
           trace := (trace w ++ [CallStat from]) ++ [CallStat to] |} in
    Returned (with_fs c) (err_of r) w'.
Proof.
  intros Hne Hf Hg. unfold Copy.
  destruct (String.eqb_spec from to) as [->|_]; [done|].
  rewrite Stat_eq, Hf, Stat_eq. simpl.
  replace (negb (os_IsNotExist _) && negb (Clobber c)) with false; [done|].
  symmetry. apply andb_false_iff. destruct Hg as [Hg|Hg].
  - left. unfold Fs.lookup in *. simpl. by rewrite Hg.
  - right. by rewrite Hg.
Qed.

End TransferCases.

(** ** File transfer *)



(** X2. [copyFile] of a regular file to a clean path at which a regular
    file exists returns [nil] and writes over that file from its start:
    the destination keeps its permission bits and holds the bytes of the
    source, followed by what it held beyond their length; it holds
    exactly the bytes of the source when it was not longer. No other
    entry changes. *)
Theorem copyFile_writes_over_an_existing_file from to kt p d m old w :
  wf (files w) →
  plain to kt →
  Fs.lookup w from = inr (File p d) →
  files w !! kt = Some (File m old) →
  ∃ w', copyFile from to w = (inr tt, w')
    ∧ files w' = <[kt := File m (Fs.overwrite old d)]> (files w)
    ∧ String.prefix d (Fs.overwrite old d) = true
    ∧ String.length (Fs.overwrite old d)
      = String.length old `max` String.length d
    ∧ (String.length old ≤ String.length d → Fs.overwrite old d = d).
Proof.
  intros Hwf Hto Hf Ht.
  destruct (copyFile_present _ _ _ _ _ _ _ _ Hwf Hto Hf Ht) as [tr Hcp].
  eexists. split; [exact Hcp|]. split; [done|]. apply overwrite_shape.
Qed.

Lemma copyFile_writes_over_an_existing_file_witness :
  ∃ w', copyFile "b" "a" Fixture.clobbered = (inr tt, w')
        ∧ files w' = <[["a"] := File 420 "hello"]> (files Fixture.clobbered).
Proof.
  assert (Hw : wf (files Fixture.clobbered)).
  { apply wfb_wf. vm_compute. reflexivity. }
  assert (Ht : plain "a" ["a"]).
  { split; [done|]. split; [|by exists false].
    apply Forall_singleton, good_nameb_spec. reflexivity. }
  destruct (copyFile_writes_over_an_existing_file "b" "a" ["a"] 384 "hello"
              420 "xy" Fixture.clobbered Hw Ht)
    as (w' & Hcp & Hfs & _ & _ & Hsame); [reflexivity|reflexivity|].
  exists w'. split; [exact Hcp|]. rewrite Hfs, Hsame; [done|].
  simpl. lia.
Defined.

(** X3. Whatever [copyFile] returns, on a well-formed filesystem it
    leaves a well-formed one in which every entry that existed is still
    there with its kind and permission bits, every entry other than the
    destination is as it was, and what is new is the destination, as a
    regular file, or a directory on the way to it. *)
Theorem copyFile_changes_the_destination_only from to w r w' :
  wf (files w) →
  copyFile from to w = (r, w') →
  wf (files w')
  ∧ kept (files w) (files w')
  ∧ (∀ k nd, files w !! k = Some nd → k ≠ Path.key to →
       files w' !! k = Some nd)
  ∧ (∀ k nd, files w !! k = None → files w' !! k = Some nd →
       (k = Path.key to ∧ ∃ m d, nd = File m d)
       ∨ (k `prefix_of` Path.key (Path.Dir to) ∧ ∃ p, nd = Dir p)).
Proof.
  intros Hwf Hcp. destruct (copyFile_effect _ _ _ _ _ Hwf Hcp) as [Hwf' He].
  split; [done|]. split; [by eapply transfer_effect_kept|].
  destruct He as [Ho _ Hn]. done.
Qed.

Lemma copyFile_changes_the_destination_only_witness :
  ∃ r w', copyFile "from/b" "to/b" Fixture.partial = (r, w')
          ∧ is_Some (err_of r)
          ∧ files w' !! ["to"; "a"] = Some (File 420 "hello")
          ∧ files w' !! ["to"; "b"] = Some (Dir 493).
Proof.
  assert (Hw : wf (files Fixture.partial)).
  { apply wfb_wf. vm_compute. reflexivity. }
  destruct (copyFile "from/b" "to/b" Fixture.partial) as [r w'] eqn:Hcp.
  exists r, w'. split; [reflexivity|].
  destruct (copyFile_changes_the_destination_only _ _ _ _ _ Hw Hcp)
    as (_ & Hk & Ho & _).
  split; [vm_compute in Hcp; injection Hcp as <- _; by eexists|].
  split.
  - apply Ho; [reflexivity|done].
  - destruct (Hk ["to"; "b"] (Dir 493)) as (nd & Hnd & Hi); [reflexivity|].
    rewrite Hnd. by destruct nd; simplify_eq/=.
Defined.

(** ** [Copy] of a regular file *)





(** X6. [Copy] of a regular file to a clean path at which a directory
    exists, with [Clobber] set, does not copy into the directory: it
    returns the error of opening the directory for writing, wrapped as
    "creating <to>", and the files are as before. *)
Theorem Copy_of_a_file_onto_a_directory c from to kt p d m w :
  wf (files w) →
  plain to kt →
  Fs.lookup w from = inr (File p d) →
  files w !! kt = Some (Dir m) →
  Clobber c = true →
  ∃ c' w',
    Copy c from to w
      = Returned c'
          (Some (Wrap ("creating " +:+ to) (PathError "open" to EISDIR))) w'
    ∧ files w' = files w.
Proof.
  intros Hwf Hto Hf Ht Hc.
  assert (Hne : from ≠ to).
  { intros ->. apply resolve_Some in Hf.
    destruct Hto as (Hk & Hg & r & ->). rewrite key_render in Hf by done.
    congruence. }
  rewrite (Copy_regular c from to w p d) by eauto.
  destruct (copyFile_onto_dir from to kt p d m
              {| files := files w;
                 trace := (trace w ++ [CallStat from]) ++ [CallStat to] |})
    as (tr & ->); try done.
  eexists _, _. split; reflexivity.
Qed.

Lemma Copy_of_a_file_onto_a_directory_witness :
  ∃ c' w',
    Copy Fixture.clobbering "from/a" "to/b" Fixture.partial
      = Returned c'
          (Some (Wrap "creating to/b" (PathError "open" "to/b" EISDIR))) w'
    ∧ files w' = files Fixture.partial.
Proof.
  assert (Hw : wf (files Fixture.partial)).
  { apply wfb_wf. vm_compute. reflexivity. }
  assert (Ht : plain "to/b" ["to"; "b"]).
  { split; [done|]. split; [|by exists false].
    repeat (apply Forall_cons; split; [by apply good_nameb_spec|]).
    constructor. }
  apply (Copy_of_a_file_onto_a_directory Fixture.clobbering "from/a" "to/b"
           ["to"; "b"] 420 "xy" 493 Fixture.partial Hw Ht); reflexivity.
Defined.

(** ** [Copy] of a directory, before its goroutines start *)

(** X7. [Copy] of a directory to a path at which a regular file exists,
    with [Clobber] set, returns the error of [MkdirAll] as it is, not
    wrapped, and the files are as before. *)
Theorem Copy_of_a_directory_onto_a_file c from to pf m d w :
  wf (files w) →
  Fs.lookup w from = inr (Dir pf) →
  Fs.lookup w to = inr (File m d) →
  Clobber c = true →
  ∃ c' w',
    Copy c from to w = Returned c' (Some (PathError "mkdir" to ENOTDIR)) w'
    ∧ files w' = files w.
Proof.
  intros Hwf Hf Ht Hc.
  assert (Hne : from ≠ to) by (intros ->; congruence).
  unfold Copy. destruct (String.eqb_spec from to) as [->|_]; [done|].
  rewrite Stat_eq, Hf, Stat_eq. unfold Fs.lookup in *. simpl.
  rewrite Ht. simpl. rewrite Hc. simpl.
  unfold Fs.MkdirAll, mbind, io_bind, bind, log, get_files, put_files, fail.
  simpl. apply resolve_Some in Ht.
  rewrite (mkdir_from_file _ [] _ _ m d) by done.
  eexists _, _. split; reflexivity.
Qed.

Lemma Copy_of_a_directory_onto_a_file_witness :
  ∃ c' w',
    Copy Fixture.clobbering "from/d" "from/a" Fixture.tree
      = Returned c' (Some (PathError "mkdir" "from/a" ENOTDIR)) w'
    ∧ files w' = files Fixture.tree.
Proof.
  assert (Hw : wf (files Fixture.tree)).
  { apply wfb_wf. vm_compute. reflexivity. }
  apply (Copy_of_a_directory_onto_a_file Fixture.clobbering "from/d" "from/a"
           493 420 "xy" Fixture.tree Hw); reflexivity.
Defined.

(** ** The winding down of a directory copy *)

Section WindingDown.
Context (from to : string).

Lemma all_exited_Forall ws :
  all_exited ws = true ↔ Forall (λ wr, wr = Exited) ws.
Proof.
  induction ws as [|wr ws IH]; simpl.
  - split; [by constructor|done].
  - rewrite andb_true_iff, Forall_cons, IH.
    destruct wr; split; intros [? ?]; done.
Qed.

Lemma all_exited_head ws :
  ws ≠ [] → all_exited ws = true → Exited ∈ ws.
Proof.
  destruct ws as [|wr ws]; [done|]. intros _ H.
  rewrite (all_exited_lookup _ 0 wr H eq_refl). by apply elem_of_cons; left.
Qed.

Lemma exited_insert (ws : list worker) i wr :
  wr ≠ Exited → Exited ∈ <[i := wr]> ws → Exited ∈ ws.
Proof. intros Hne [Heq|H]%elem_of_insert_inv; [by destruct Hne|done]. Qed.

Lemma visit_walker path todo s :
  match st_walker (visit from to path todo s) with
  | Walking _ | Sending _ _ => True
  | Failing e => walk_error e
  | Finished | Panicked => False
  end.
Proof.
  unfold visit, walk_error.
  destruct (Fs.Lstat path (st_world s)) as [[e|info] w']; simpl; [eauto|].
  destruct (walker_visit from to path info (st_seen s)) as [seen' [j|]];
    destruct (IsDir info); simpl;
    try destruct (Fs.ReadDirNames path w') as [[e|names] w'']; simpl; eauto.
Qed.

Lemma winding_down_init parallel seen0 w :
  winding_down (copier_copy parallel seen0 from w).
Proof.
  split; simpl; try done. by intros ?%spawn_all_idle.
Qed.

Lemma winding_down_step a s s' :
  winding_down s → step from to a s = Some s' → winding_down s'.
Proof.
  intros [Hex Hcl Hres] Hs. destruct a; simpl in Hs.
  - (* visit *)
    destruct (st_walker s) as [[|path todo]| | | |] eqn:Hwk; simplify_eq.
    destruct (visit_bookkeeping from to path todo s)
      as (Hws & _ & Hc & He & Hr & _).
    split; rewrite ?Hws, ?Hc, ?He, ?Hr; try done.
    intros Hin. by apply Hex in Hin.
  - (* close work *)
    destruct (st_walker s) as [[|path todo]| | | |] eqn:Hwk; simplify_eq.
    split; simpl; done.
  - (* hand off *)
    destruct (st_walker s) as [todo|j todo| | |] eqn:Hwk; simplify_eq.
    destruct (st_workers s !! i) as [[]|] eqn:Hi; simplify_eq.
    split; simpl; try done.
    + intros Hin%exited_insert; [|done]. by apply Hex in Hin.
    + intros Hc. apply Hcl in Hc.
      by apply (all_exited_lookup _ _ _ Hc) in Hi.
  - (* transfer *)
    destruct (st_workers s !! i) as [[|j| |]|] eqn:Hi; simplify_eq.
    destruct (copyFile (From j) (To j) (st_world s)) as [r w'] eqn:Hcp.
    simplify_eq. split; simpl; try done.
    + intros Hin%exited_insert; [by apply Hex|by destruct r].
    + intros Hc. apply Hcl in Hc.
      by apply (all_exited_lookup _ _ _ Hc) in Hi.
  - (* report *)
    destruct (st_workers s !! i) as [[| |e|]|] eqn:Hi; simplify_eq.
    destruct (st_result s) eqn:Hr; simplify_eq.
    split; simpl; rewrite ?Hr; try done.
    + intros Hin%exited_insert; [by apply Hex|done].
    + intros Hc. apply Hcl in Hc.
      by apply (all_exited_lookup _ _ _ Hc) in Hi.
  - (* walker reports *)
    destruct (st_walker s) as [| |e| |] eqn:Hwk; simplify_eq.
    destruct (st_result s) eqn:Hr, (st_closed s) eqn:Hc; simplify_eq;
      split; simpl; rewrite ?Hr, ?Hc; try done;
      intros Hin; by apply Hex in Hin.
  - (* exit *)
    destruct (st_walker s) eqn:Hwk; simplify_eq.
    destruct (st_workers s !! i) as [[]|] eqn:Hi; simplify_eq.
    split; simpl; try done.
    intros Hc. apply Hcl in Hc.
    by apply (all_exited_lookup _ _ _ Hc) in Hi.
  - (* close failures *)
    destruct (all_exited _) eqn:Hall; simpl in Hs; [|done].
    destruct (st_closed s) eqn:Hc; simpl in Hs; simplify_eq.
    split; simpl; try done.
    intros r Hr. by destruct (Hres r Hr).
  - (* collect *)
    destruct (st_result s) eqn:Hr; [done|].
    destruct (st_closed s) eqn:Hc; simplify_eq.
    split; simpl; try done. by intros r [= <-].
Qed.

Lemma step_workers_length a s s' :
  step from to a s = Some s' → length (st_workers s') = length (st_workers s).
Proof.
  intros Hs. destruct a; simpl in Hs.
  - destruct (st_walker s) as [[|path todo]| | | |]; simplify_eq.
    by destruct (visit_bookkeeping from to path todo s) as (-> & _).
  - destruct (st_walker s) as [[|path todo]| | | |]; simplify_eq. done.
  - destruct (st_walker s), (st_workers s !! i) as [[]|]; simplify_eq.
    simpl. apply length_insert.
  - destruct (st_workers s !! i) as [[|j| |]|]; simplify_eq.
    destruct (copyFile _ _ _). simplify_eq. simpl. apply length_insert.
  - destruct (st_workers s !! i) as [[]|], (st_result s); simplify_eq.
    simpl. apply length_insert.
  - destruct (st_walker s), (st_result s), (st_closed s); simplify_eq; done.
  - destruct (st_walker s), (st_workers s !! i) as [[]|]; simplify_eq.
    simpl. apply length_insert.
  - destruct (_ && _); simplify_eq. done.
  - destruct (st_result s), (st_closed s); simplify_eq. done.
Qed.

Lemma exec_workers_length acts s s' :
  exec from to acts s = Some s' → length (st_workers s') = length (st_workers s).
Proof.
  revert s. induction acts as [|a acts IH]; intros s; simpl.
  - by intros [= ->].
  - destruct (step from to a s) as [s1|] eqn:Hs; [|done]. intros He.
    rewrite (IH _ He). by eapply step_workers_length.
Qed.

(** Once [collectErrors] has returned, with [work] closed and every
    worker gone, no step is left to take. *)
Lemma returned_is_final s a :
  st_walker s = Finished → all_exited (st_workers s) = true →
  st_closed s = true → is_Some (st_result s) →
  step from to a s = None.
Proof.
  intros Hwk Hall Hc [r Hr].
  destruct a; simpl; rewrite ?Hwk, ?Hc, ?Hr, ?Hall; try done.
  - destruct (st_workers s !! i) as [wr|] eqn:Hi; [|done].
    by rewrite (all_exited_lookup _ _ _ Hall Hi).
  - destruct (st_workers s !! i) as [wr|] eqn:Hi; [|done].
    by rewrite (all_exited_lookup _ _ _ Hall Hi).
  - destruct (st_workers s !! i) as [wr|] eqn:Hi; [|done].
    by rewrite (all_exited_lookup _ _ _ Hall Hi).
Qed.

(** *** The errors collected *)

Lemma reporting_take (ws : list worker) i wr e :
  ws !! i = Some wr → (∀ e', wr ≠ Reporting e') →
  reporting (<[i := Reporting e]> ws) ≡ₚ e :: reporting ws.
Proof.
  revert i. induction ws as [|w0 ws IH]; intros [|i] Hi Hwr; simplify_eq/=.
  - unfold reporting. simpl. destruct wr; simpl; try done. by edestruct Hwr.
  - unfold reporting in *. simpl. destruct w0; simpl; rewrite IH by done;
      [done|done|apply Permutation_swap|done].
Qed.

Lemma reporting_release (ws : list worker) i e wr' :
  ws !! i = Some (Reporting e) → (∀ e', wr' ≠ Reporting e') →
  reporting ws ≡ₚ e :: reporting (<[i := wr']> ws).
Proof.
  revert i. induction ws as [|w0 ws IH]; intros [|i] Hi Hwr; simplify_eq/=.
  - unfold reporting. simpl. destruct wr'; simpl; try done. by edestruct Hwr.
  - unfold reporting in *. simpl. destruct w0; simpl; rewrite IH by done;
      [done|done|apply Permutation_swap|done].
Qed.

Lemma reporting_same (ws : list worker) i wr wr' :
  ws !! i = Some wr →
  (∀ e', wr ≠ Reporting e') → (∀ e', wr' ≠ Reporting e') →
  reporting (<[i := wr']> ws) = reporting ws.
Proof.
  revert i. induction ws as [|w0 ws IH]; intros [|i] Hi H1 H2; simplify_eq/=.
  - unfold reporting. simpl. destruct wr, wr'; simpl; try done;
      first [by edestruct H1 | by edestruct H2].
  - unfold reporting in *. simpl. by rewrite IH.
Qed.

Lemma all_exited_no_reporting ws : all_exited ws = true → reporting ws = [].
Proof.
  induction ws as [|wr ws IH]; [done|]. simpl.
  intros [Hw Hws]%andb_true_iff. destruct wr; try done.
  unfold reporting in *. simpl. by apply IH.
Qed.

Lemma spawn_no_reporting parallel : reporting (copyFiles_spawn parallel) = [].
Proof.
  unfold copyFiles_spawn, reporting.
  induction (seqZ 0 _) as [|x l IH]; [done|]. simpl. apply IH.
Qed.

Lemma failed_app ran1 ran2 : failed (ran1 ++ ran2) = failed ran1 ++ failed ran2.
Proof. apply omap_app. Qed.

Lemma errors_accounted_init parallel seen0 w :
  errors_accounted (copier_copy parallel seen0 from w) [].
Proof.
  split; simpl; try done; [|lia]. by rewrite spawn_no_reporting.
Qed.

Lemma errors_accounted_step a s s' l :
  errors_accounted s l → step from to a s = Some s' →
  ∃ l', errors_accounted s' l' ∧ (l' = l ∨ ∃ e, st_walker s = Failing e).
Proof.
  intros [Hp Hw H1 Hon Hf] Hs. destruct a; simpl in Hs.
  - (* visit *)
    destruct (st_walker s) as [[|path todo]| | | |] eqn:Hwk; simplify_eq.
    assert (l = []) as ->.
    { destruct l; [done|]. by destruct Hon as [?|?]. }
    destruct (visit_bookkeeping from to path todo s)
      as (Hws & Hran & _ & He & _).
    pose proof (visit_walker path todo s) as Hv.
    exists []. split; [|by left]. split; rewrite ?Hws, ?Hran, ?He; try done.
    intros e Heq. by rewrite Heq in Hv.
  - (* close work *)
    destruct (st_walker s) as [[|path todo]| | | |] eqn:Hwk; simplify_eq.
    exists l. split; [|by left]. split; simpl; auto. done.
  - (* hand off *)
    destruct (st_walker s) as [todo|j todo| | |] eqn:Hwk; simplify_eq.
    destruct (st_workers s !! i) as [[]|] eqn:Hi; simplify_eq.
    assert (l = []) as ->.
    { destruct l; [done|]. by destruct Hon as [?|?]. }
    exists []. split; [|by left]. split; simpl; try done.
    by rewrite (reporting_same _ i Idle (Busy j)).
  - (* transfer *)
    destruct (st_workers s !! i) as [[|j| |]|] eqn:Hi; simplify_eq.
    destruct (copyFile (From j) (To j) (st_world s)) as [[e|[]] w'] eqn:Hcp;
      simplify_eq; exists l; (split; [|by left]); split; simpl; try done.
    + rewrite failed_app. simpl.
      rewrite (reporting_take _ i (Busy j)) by done.
      rewrite <- Permutation_middle, Hp, <- app_assoc. simpl.
      apply Permutation_middle.
    + rewrite failed_app. simpl. rewrite app_nil_r.
      by rewrite (reporting_same _ i (Busy j) Idle).
  - (* report *)
    destruct (st_workers s !! i) as [[| |e|]|] eqn:Hi; simplify_eq.
    destruct (st_result s) eqn:Hr; simplify_eq.
    exists l. split; [|by left]. split; simpl; try done.
    rewrite <- Hp.
    rewrite (reporting_release (st_workers s) i e Idle) by done.
    by rewrite <- app_assoc.
  - (* walker reports *)
    destruct (st_walker s) as [| |e| |] eqn:Hwk; simplify_eq.
    assert (l = []) as ->.
    { destruct l; [done|]. by destruct Hon as [?|?]. }
    destruct (st_result s) eqn:Hr, (st_closed s) eqn:Hc; simplify_eq.
    + exists []. split; [|by left]. split; simpl; done.
    + exists []. split; [|by left]. split; simpl; done.
    + exists [e]. split; [|right; eauto]. split; simpl; try done.
      * rewrite app_nil_r in Hp. rewrite <- Hp, <- !app_assoc.
        apply Permutation_app_head, Permutation_app_comm.
      * apply Forall_singleton. by apply Hf.
      * auto.
  - (* exit *)
    destruct (st_walker s) eqn:Hwk; simplify_eq.
    destruct (st_workers s !! i) as [[]|] eqn:Hi; simplify_eq.
    exists l. split; [|by left]. split; simpl; try done.
    + by rewrite (reporting_same _ i Idle Exited).
    + by rewrite Hwk.
    + by rewrite Hwk.
  - (* close failures *)
    destruct (all_exited _ && _); simplify_eq. exists l.
    split; [|by left]. split; done.
  - (* collect *)
    destruct (st_result s); [done|]. destruct (st_closed s); simplify_eq.
    exists l. split; [|by left]. split; done.
Qed.

End WindingDown.

Lemma exec_winding_down from to acts parallel seen0 w s :
  exec from to acts (copier_copy parallel seen0 from w) = Some s →
  winding_down s.
Proof.
  intros He. eapply exec_invariant; [|apply winding_down_init|exact He].
  intros a s1 s2. apply winding_down_step.
Qed.

Lemma exec_errors_accounted from to acts parallel seen0 w s :
  exec from to acts (copier_copy parallel seen0 from w) = Some s →
  ∃ l, errors_accounted s l.
Proof.
  intros He.
  apply (exec_invariant from to (λ s1, ∃ l, errors_accounted s1 l))
    with (acts := acts) (s := copier_copy parallel seen0 from w);
    [|eauto using errors_accounted_init|done].
  intros a s1 s2 [l Hl] Hs.
  destruct (errors_accounted_step _ _ _ _ _ l Hl Hs) as (l' & Hl' & _).
  eauto.
Qed.

(** Without workers no transfer is ever run. *)
Lemma no_workers_nothing_ran from to acts s s' :
  st_workers s = [] →
  exec from to acts s = Some s' →
  st_ran s' = st_ran s.
Proof.
  intros Hw He.
  apply (exec_invariant from to
           (λ s1, st_workers s1 = [] ∧ st_ran s1 = st_ran s))
    with (acts := acts) (s := s); [|done|done].
  clear. intros a s1 s2 [Hw Hf] Hs.
  destruct a; simpl in Hs; rewrite ?Hw in Hs; simpl in Hs.
  - destruct (st_walker s1) as [[|path todo]| | | |]; simplify_eq.
    destruct (visit_bookkeeping from to path todo s1)
      as (-> & -> & _). done.
  - destruct (st_walker s1) as [[|path todo]| | | |]; simplify_eq. done.
  - by destruct (st_walker s1).
  - done.
  - done.
  - destruct (st_walker s1), (st_result s1), (st_closed s1); simplify_eq; done.
  - by destruct (st_walker s1).
  - destruct (negb (st_closed s1)); simplify_eq. done.
  - destruct (st_result s1), (st_closed s1); simplify_eq. done.
Qed.

(** ** The directory copy, in every execution *)

(** X8. A directory copy with at least one worker ([Parallel] is not 1):
    when [Copy] returns, the walk is over and [work] is closed, every
    worker has exited, every job the walker sent has been transferred,
    once, and nothing of the copy is left that could still take a step. *)
Theorem Copy_returns_when_all_is_done c from to w c1 s0 acts s r :
  Parallel c ≠ 1%Z →
  Copy c from to w = Copying c1 s0 →
  exec from to acts s0 = Some s →
  st_result s = Some r →
  st_walker s = Finished
  ∧ Forall (λ wr, wr = Exited) (st_workers s)
  ∧ (st_ran s).*1 ≡ₚ st_emitted s
  ∧ ∀ a, step from to a s = None.
Proof.
  intros Hpar Hc He Hr.
  apply Copy_Copying in Hc as (_ & perm & fs' & _ & _ & _ & _ & ->).
  pose proof (exec_winding_down _ _ _ _ _ _ _ He) as [Hex Hcl Hres].
  pose proof (exec_seen_grows _ _ _ _ _ _ _ He) as [_ _ _ Hwhere].
  destruct (Hres r Hr) as [Hclosed _]. pose proof (Hcl Hclosed) as Hall.
  assert (Hfin : st_walker s = Finished).
  { apply Hex, all_exited_head; [|done]. intros Hnil.
    apply exec_workers_length in He. rewrite Hnil in He. simpl in He.
    apply (spawn_nonempty _ Hpar). by apply nil_length_inv. }
  split; [done|]. split; [by apply all_exited_Forall|]. split.
  - rewrite <- Hwhere, Hfin, (all_exited_no_busy _ Hall). simpl.
    by rewrite app_nil_r.
  - intros a. apply returned_is_final; eauto.
Qed.

Lemma Copy_returns_when_all_is_done_witness :
  ∃ c1 s0 s,
    Copy Fixture.plain_copier "from" "to" Fixture.tree = Copying c1 s0
    ∧ exec "from" "to" (Fixture.full_run 9) s0 = Some s
    ∧ st_walker s = Finished
    ∧ (st_ran s).*1 ≡ₚ st_emitted s.
Proof.
  destruct (Copy Fixture.plain_copier "from" "to" Fixture.tree)
    as [|c1 s0] eqn:Hc; [vm_compute in Hc; discriminate Hc|].
  destruct (exec "from" "to" (Fixture.full_run 9) s0) as [s|] eqn:He;
    [|vm_compute in Hc; injection Hc as <- <-;
      vm_compute in He; discriminate He].
  destruct (st_result s) as [r|] eqn:Hr;
    [|vm_compute in Hc; injection Hc as <- <-;
      vm_compute in He; injection He as <-;
      vm_compute in Hr; discriminate Hr].
  exists c1, s0, s. split; [reflexivity|]. split; [exact He|].
  assert (Hp : Parallel Fixture.plain_copier ≠ 1%Z) by done.
  destruct (Copy_returns_when_all_is_done Fixture.plain_copier "from" "to"
              Fixture.tree c1 s0 _ s r Hp Hc He Hr) as (Hf & _ & Hran & _).
  split; [exact Hf|exact Hran].
Defined.

(** X9. When [Copy] of a directory returns, it returns what
    [collectErrors] made of the errors it received: these are the errors
    of the transfers that failed, one for each, in some order, and at
    most one error of the walk, wrapped as "walking file system". [Copy]
    returns [nil] exactly when there is none, and a [Failures] that is
    not empty otherwise. *)
Theorem Copy_returns_the_errors_of_the_failed_transfers
  c from to w c1 s0 acts s r :
  Copy c from to w = Copying c1 s0 →
  exec from to acts s0 = Some s →
  st_result s = Some r →
  ∃ l, st_errs s ≡ₚ failed (st_ran s) ++ l
       ∧ Forall walk_error l ∧ length l ≤ 1
       ∧ (r = None ↔ failed (st_ran s) = [] ∧ l = [])
       ∧ (∀ e, r = Some e → e = Failures (st_errs s) ∧ st_errs s ≠ []).
Proof.
  intros Hc He Hr.
  apply Copy_Copying in Hc as (_ & perm & fs' & _ & _ & _ & _ & ->).
  pose proof (exec_winding_down _ _ _ _ _ _ _ He) as [Hex Hcl Hres].
  destruct (exec_errors_accounted _ _ _ _ _ _ _ He) as [l [Hp Hw H1 _ _]].
  destruct (Hres r Hr) as [Hclosed ->].
  rewrite (all_exited_no_reporting _ (Hcl Hclosed)), app_nil_r in Hp.
  exists l. split; [done|]. split; [done|]. split; [done|]. split.
  - destruct (st_errs s) as [|e errs] eqn:Herrs; simpl.
    + split; [|done]. intros _. symmetry in Hp.
      apply Permutation_nil_r in Hp. by apply app_eq_nil in Hp.
    + split; [done|]. intros [H1' ->]. rewrite H1' in Hp.
      by apply Permutation_nil_r in Hp.
  - intros e. destruct (st_errs s); simpl; [done|]. by intros [= <-].
Qed.

Lemma Copy_returns_the_errors_of_the_failed_transfers_witness :
  ∃ c1 s0 s r l,
    Copy Fixture.clobbering "from" "to" Fixture.partial = Copying c1 s0
    ∧ exec "from" "to" Fixture.partial_run s0 = Some s
    ∧ st_result s = Some r
    ∧ st_errs s ≡ₚ failed (st_ran s) ++ l
    ∧ r = Some (Failures (st_errs s)).
Proof.
  destruct (Copy Fixture.clobbering "from" "to" Fixture.partial)
    as [|c1 s0] eqn:Hc; [vm_compute in Hc; discriminate Hc|].
  destruct (exec "from" "to" Fixture.partial_run s0) as [s|] eqn:He;
    [|vm_compute in Hc; injection Hc as <- <-;
      vm_compute in He; discriminate He].
  destruct (st_result s) as [[e|]|] eqn:Hr;
    [|vm_compute in Hc; injection Hc as <- <-;
      vm_compute in He; injection He as <-;
      vm_compute in Hr; discriminate Hr..].
  destruct (Copy_returns_the_errors_of_the_failed_transfers
              Fixture.clobbering "from" "to" Fixture.partial c1 s0 _ s _
              Hc He Hr) as (l & Hp & _ & _ & _ & Hf).
  exists c1, s0, s, (Some e), l. split; [reflexivity|]. split; [exact He|].
  split; [exact Hr|]. split; [exact Hp|].
  destruct (Hf e eq_refl) as [-> _]. reflexivity.
Defined.

(** X10. With [Parallel] set to 1 no worker is started, whatever the
    directory: in every execution no transfer is run and the files stay
    as [Copy] left them after creating [to], and [Copy] can return
    [nil] at once. *)
Theorem Copy_with_Parallel_1_transfers_nothing c from to w c1 s0 :
  Parallel c = 1%Z →
  Copy c from to w = Copying c1 s0 →
  (∀ acts s, exec from to acts s0 = Some s →
     st_ran s = [] ∧ files (st_world s) = files (st_world s0))
  ∧ ∃ s, exec from to [ACloseFailures; ACollect] s0 = Some s
         ∧ st_result s = Some None.
Proof.
  intros Hpar Hc.
  apply Copy_Copying in Hc as (_ & perm & fs' & _ & _ & _ & _ & ->).
  rewrite Hpar. split.
  - intros acts s He. split.
    + by apply no_workers_nothing_ran in He.
    + by apply no_workers_no_transfer in He as [_ ?].
  - eexists. split; reflexivity.
Qed.

Lemma Copy_with_Parallel_1_transfers_nothing_witness :
  ∃ c1 s0 s,
    Copy (Fixture.with_parallel 1) "from" "to" Fixture.tree = Copying c1 s0
    ∧ exec "from" "to" Fixture.idle_run s0 = Some s
    ∧ st_ran s = [] ∧ files (st_world s) = files (st_world s0).
Proof.
  destruct (Copy (Fixture.with_parallel 1) "from" "to" Fixture.tree)
    as [|c1 s0] eqn:Hc; [vm_compute in Hc; discriminate Hc|].
  destruct (exec "from" "to" Fixture.idle_run s0) as [s|] eqn:He;
    [|vm_compute in Hc; injection Hc as <- <-;
      vm_compute in He; discriminate He].
  exists c1, s0, s. split; [reflexivity|]. split; [exact He|].
  assert (Hp : Parallel (Fixture.with_parallel 1) = 1%Z) by done.
  destruct (Copy_with_Parallel_1_transfers_nothing _ _ _ _ _ _ Hp Hc)
    as [Hall _].
  exact (Hall _ _ He).
Defined.

(** ** The transfers of a lateral copy *)

Section LateralMore.
Context (rf rt : bool) (F T : list string).
Context (fs0 : gmap (list string) node) (seen0 : gset string).
Context (HF : F ≠ []) (HT : T ≠ []).
Context (HgT : Forall good_name T).
Context (Hun : unrelated F T).
Context (Hwf0 : wf fs0).
Context (HFdir : ∃ p, fs0 !! F = Some (Dir p)).
Context (Hseen0 : ∀ rel, Forall good_name rel →
                         render rt (T ++ rel) ∉ seen0).

(** What the transfer of a job in flight does. *)
Lemma transfer_shape i j s :
  lateral_inv rf rt F T fs0 seen0 s →
  st_workers s !! i = Some (Busy j) →
  ∃ rel' n p d fs1 tr,
    j = job_of rf rt F T (rel' ++ [n])
    ∧ fs0 !! (F ++ rel' ++ [n]) = Some (File p d)
    ∧ copyFile (From j) (To j) (st_world s)
      = (inr tt, {| files := <[(T ++ rel') ++ [n] := File p d]> fs1;
                    trace := tr |})
    ∧ Fs.mkdir_from (files (st_world s)) [] (T ++ rel') p = inr fs1.
Proof.
  intros [Hwf Hsrc HTd Hdst Htodo Hjobs Hwalker Hworkers Hsome Hcover Hseen
            Herrs Hexit Hclosed Hresult] Hi.
  assert (Hperm : busy_jobs (st_workers s)
                  ≡ₚ j :: busy_jobs (<[i := Idle]> (st_workers s))).
  { by apply busy_jobs_release. }
  destruct (Hjobs j) as (rel & -> & Hne & Hfile).
  { apply elem_of_app; right. rewrite Hperm. by apply elem_of_cons; left. }
  pose proof Hfile as (p & d & Hf).
  destruct (exists_last Hne) as (rel' & n & ->).
  assert (Hgr : Forall good_name (rel' ++ [n])).
  { apply (good_rel F fs0); eauto. }
  assert (Hgd : Forall good_name ((T ++ rel') ++ [n])).
  { rewrite <- app_assoc. by apply Forall_app. }
  assert (Hstrict : ∀ q, q `prefix_of` rel' →
             ∃ pp, fs0 !! (F ++ q) = Some (Dir pp)).
  { intros q [r ->].
    apply (wf_prefix_dir fs0 (F ++ q) (r ++ [n]) Hwf0); [by destruct r|].
    rewrite <- !app_assoc in *. eauto. }
  destruct (copyFile_mirror (From (job_of rf rt F T (rel' ++ [n])))
              (To (job_of rf rt F T (rel' ++ [n])))
              (F ++ rel' ++ [n]) (T ++ rel') n p d (st_world s))
    as (fs1 & tr & Hcp & Hmk); try done.
  - simpl. apply (key_from F fs0); eauto.
  - simpl. rewrite (key_to T) by done. by rewrite app_assoc.
  - simpl. rewrite app_assoc, Dir_render.
    + apply (key_to T); [done..|]. by apply Forall_app in Hgr as [? _].
    + by destruct T.
    + by apply Forall_app in Hgd as [? _].
    + apply Forall_app in Hgr as [_ Hn]. by apply Forall_inv in Hn.
  - by rewrite Hsrc.
  - intros q p' d' Hq Hfq.
    destruct (prefix_weak_total q T (T ++ rel')) as [[r ->]|[q' ->]];
      [done|by apply prefix_app_r|..].
    + destruct r as [|c r].
      * rewrite app_nil_r in HTd. destruct HTd. congruence.
      * destruct (wf_prefix_dir _ q (c :: r) Hwf) as [pp Hpp];
          [done|by destruct HTd; eauto|congruence].
    + apply prefix_app_inv in Hq. destruct q' as [|c q'].
      * rewrite app_nil_r in Hfq. destruct HTd. congruence.
      * apply Hdst in Hfq; [|done]. simpl in Hfq.
        destruct (Hstrict _ Hq). congruence.
  - destruct (files (st_world s) !! ((T ++ rel') ++ [n])) as [nd|] eqn:Hd;
      [|by left].
    right. pose proof Hd as Hm. rewrite <- app_assoc in Hm.
    apply Hdst in Hm; [|done]. destruct nd as [p' d'|p']; simpl in Hm.
    + rewrite Hf in Hm. by injection Hm as <- <-.
    + destruct Hm. congruence.
  - rewrite <- app_assoc. by apply (files_apart F T).
  - eexists rel', n, p, d, fs1, tr. done.
Qed.

Lemma dirs_transfer i j s w' :
  lateral_inv rf rt F T fs0 seen0 s →
  dirs_from_files F T fs0 (files (st_world s)) →
  st_workers s !! i = Some (Busy j) →
  copyFile (From j) (To j) (st_world s) = (inr tt, w') →
  dirs_from_files F T fs0 (files w').
Proof.
  intros Hinv Hdirs Hi Hcp.
  destruct (transfer_shape i j s Hinv Hi)
    as (rel' & n & p & d & fs1 & tr & -> & Hf & Hcp' & Hmk).
  rewrite Hcp' in Hcp. injection Hcp as <-. simpl.
  destruct (mkdir_from_spec _ _ _ _ _ Hmk) as (Ha & Hb & _). simpl in Hb.
  intros rel m Hrel Hd.
  assert (Hne : (T ++ rel') ++ [n] ≠ T ++ rel).
  { intros Heq. rewrite <- Heq, lookup_insert_eq in Hd. done. }
  rewrite lookup_insert_ne in Hd by done.
  destruct (files (st_world s) !! (T ++ rel)) as [nd|] eqn:Hold.
  - rewrite (Ha _ _ Hold) in Hd. injection Hd as ->.
    destruct (Hdirs rel m Hrel Hold) as (r' & d' & Hr' & Hsrc & Hdst).
    exists r', d'. split; [done|]. split; [done|].
    destruct (decide ((T ++ rel') ++ [n] = T ++ rel ++ r')) as [Heq|Hne'].
    + rewrite Heq, lookup_insert_eq. rewrite <- app_assoc in Heq.
      apply app_inv_head in Heq. rewrite <- Heq in Hsrc. congruence.
    + rewrite lookup_insert_ne by done. by apply Ha.
  - destruct (Hb _ _ Hold Hd) as ([= ->] & q & _ & Hq & Heq).
    rewrite <- Heq in Hq. apply prefix_app_inv in Hq as [r ->].
    exists (r ++ [n]), d. split; [by destruct r|].
    rewrite <- !app_assoc in *. split; [done|]. apply lookup_insert_eq.
Qed.

Lemma dirs_step a s s' :
  lateral_inv rf rt F T fs0 seen0 s →
  dirs_from_files F T fs0 (files (st_world s))
  ∧ all_succeeded (st_ran s) →
  step (render rf F) (render rt T) a s = Some s' →
  dirs_from_files F T fs0 (files (st_world s'))
  ∧ all_succeeded (st_ran s').
Proof.
  intros Hinv [Hdirs Hran] Hs. destruct a; simpl in Hs.
  - destruct (st_walker s) as [[|path todo]| | | |]; simplify_eq.
    destruct (visit_bookkeeping (render rf F) (render rt T) path todo s)
      as (_ & -> & _ & _ & _ & -> & _). done.
  - destruct (st_walker s) as [[|path todo]| | | |]; simplify_eq. done.
  - destruct (st_walker s), (st_workers s !! i) as [[]|]; simplify_eq. done.
  - destruct (st_workers s !! i) as [[|j| |]|] eqn:Hi; simplify_eq.
    destruct (inv_transfer rf rt F T fs0 seen0 HF HT HgT Hun Hwf0 Hseen0
                i j s Hinv Hi) as (w' & Hcp & _).
    rewrite Hcp in Hs. simplify_eq. simpl. split.
    + by eapply dirs_transfer.
    + apply Forall_app. split; [done|]. by apply Forall_singleton.
  - destruct (st_workers s !! i) as [[]|], (st_result s); simplify_eq. done.
  - destruct (st_walker s), (st_result s), (st_closed s); simplify_eq; done.
  - destruct (st_walker s), (st_workers s !! i) as [[]|]; simplify_eq. done.
  - destruct (_ && _); simplify_eq. done.
  - destruct (st_result s), (st_closed s); simplify_eq. done.
Qed.

Lemma exec_lateral acts s0 s :
  lateral_inv rf rt F T fs0 seen0 s0 →
  dirs_from_files F T fs0 (files (st_world s0)) →
  all_succeeded (st_ran s0) →
  exec (render rf F) (render rt T) acts s0 = Some s →
  lateral_inv rf rt F T fs0 seen0 s
  ∧ dirs_from_files F T fs0 (files (st_world s))
  ∧ all_succeeded (st_ran s).
Proof.
  intros Hinv Hd Hr He.
  apply (exec_invariant (render rf F) (render rt T)
           (λ s1, lateral_inv rf rt F T fs0 seen0 s1
                  ∧ dirs_from_files F T fs0 (files (st_world s1))
                  ∧ all_succeeded (st_ran s1)))
    with (acts := acts) (s := s0); [|done|done].
  intros a s1 s2 (H1 & H2) Hs. split.
  - by eapply inv_step.
  - by eapply dirs_step.
Qed.

End LateralMore.

(** Where a lateral copy starts. *)
Lemma lateral_init c rf rt F T w c1 s0 :
  wf (files w) →
  F ≠ [] → T ≠ [] → Forall good_name F → Forall good_name T →
  unrelated F T →
  Parallel c ≠ 1%Z →
  (∀ rel, rel ≠ [] → files w !! (T ++ rel) = None) →
  Copy c (render rf F) (render rt T) w = Copying c1 s0 →
  ∃ fs0,
    wf fs0
    ∧ (∃ p, fs0 !! F = Some (Dir p))
    ∧ (∀ rel, fs0 !! (F ++ rel) = files w !! (F ++ rel))
    ∧ lateral_inv rf rt F T fs0 (default ∅ (seen c)) s0
    ∧ dirs_from_files F T fs0 (files (st_world s0))
    ∧ all_succeeded (st_ran s0).
Proof.
  intros Hwf HF HT HgF HgT Hun Hpar Hfree Hc.
  destruct (inv_init c rf rt F T w c1 s0)
    as (fs0 & Hwf0 & HFd & Hsub & Hold & Hinv); try done.
  apply Copy_Copying in Hc as (_ & perm & fs' & _ & _ & Hmk & _ & ->).
  rewrite key_render in Hmk by done.
  destruct (mkdir_from_spec _ _ _ _ _ Hmk) as (Ha & Hb & _). simpl in Hb.
  pose proof (li_src _ _ _ _ _ _ _ Hinv) as Hsrc. simpl in Hsrc.
  exists fs0. split; [done|]. split; [done|]. split; [|split; [done|split]].
  - intros rel. rewrite <- Hsrc.
    destruct (files w !! (F ++ rel)) as [nd|] eqn:Hw; [by apply Ha|].
    destruct (fs' !! (F ++ rel)) as [nd|] eqn:H1; [|done].
    destruct (Hb _ _ Hw H1) as (_ & q & _ & [r Hq] & Heq).
    destruct Hun as [Hun _]. destruct Hun. exists (rel ++ r).
    by rewrite app_assoc, Heq.
  - simpl. intros rel m Hrel Hd.
    destruct (Hb _ _ (Hfree rel Hrel) Hd) as (_ & q & _ & Hq%prefix_length & Heq).
    apply (f_equal length) in Heq. rewrite length_app in Heq.
    destruct rel; [done|]. simpl in Heq. lia.
  - simpl. constructor.
Qed.

(** What holds in every state of a lateral copy. *)
Lemma lateral_states c from to F T w c1 s0 acts s :
  wf (files w) →
  plain from F → plain to T → unrelated F T →
  Parallel c ≠ 1%Z →
  (∀ x, x ∈ default ∅ (seen c) → ¬ T `prefix_of` Path.key x) →
  (∀ rel, rel ≠ [] → files w !! (T ++ rel) = None) →
  Copy c from to w = Copying c1 s0 →
  exec from to acts s0 = Some s →
  ∃ rf rt fs0,
    (∀ rel, fs0 !! (F ++ rel) = files w !! (F ++ rel))
    ∧ lateral_inv rf rt F T fs0 (default ∅ (seen c)) s
    ∧ dirs_from_files F T fs0 (files (st_world s))
    ∧ all_succeeded (st_ran s).
Proof.
  intros Hwf (HF & HgF & rf & ->) (HT & HgT & rt & ->) Hun Hpar Hseen Hfree
         Hc He.
  destruct (lateral_init c rf rt F T w c1 s0)
    as (fs0 & Hwf0 & HFd & Hsrc & Hinv & Hdirs & Hran); try done.
  assert (Hseen0 : ∀ rel, Forall good_name rel →
             render rt (T ++ rel) ∉ default ∅ (seen c)).
  { intros rel Hg Hin. apply Hseen in Hin. apply Hin.
    rewrite (key_to T) by done. by apply prefix_app_r. }
  exists rf, rt, fs0. split; [done|].
  eapply exec_lateral; eauto.
Qed.

(** ** A lateral directory copy *)





(** ** Entries are kept *)

Section Kept.
Context (from to : string).

Lemma step_kept a s s' :
  wf (files (st_world s)) →
  step from to a s = Some s' →
  wf (files (st_world s'))
  ∧ kept (files (st_world s)) (files (st_world s')).
Proof.
  intros Hwf Hs. destruct a; simpl in Hs.
  - destruct (st_walker s) as [[|path todo]| | | |]; simplify_eq.
    destruct (visit_bookkeeping from to path todo s)
      as (_ & _ & _ & _ & _ & -> & _). split; [done|apply kept_refl].
  - destruct (st_walker s) as [[|path todo]| | | |]; simplify_eq.
    split; [done|apply kept_refl].
  - destruct (st_walker s), (st_workers s !! i) as [[]|]; simplify_eq.
    split; [done|apply kept_refl].
  - destruct (st_workers s !! i) as [[|j| |]|] eqn:Hi; simplify_eq.
    destruct (copyFile (From j) (To j) (st_world s)) as [r w'] eqn:Hcp.
    simplify_eq. simpl.
    destruct (copyFile_effect _ _ _ _ _ Hwf Hcp) as [Hwf' He].
    split; [done|]. by eapply transfer_effect_kept.
  - destruct (st_workers s !! i) as [[]|], (st_result s); simplify_eq.
    split; [done|apply kept_refl].
  - destruct (st_walker s), (st_result s), (st_closed s); simplify_eq;
      (split; [done|apply kept_refl]).
  - destruct (st_walker s), (st_workers s !! i) as [[]|]; simplify_eq.
    split; [done|apply kept_refl].
  - destruct (_ && _); simplify_eq. split; [done|apply kept_refl].
  - destruct (st_result s), (st_closed s); simplify_eq.
    split; [done|apply kept_refl].
Qed.

Lemma exec_kept acts s s' :
  wf (files (st_world s)) →
  exec from to acts s = Some s' →
  wf (files (st_world s'))
  ∧ kept (files (st_world s)) (files (st_world s')).
Proof.
  intros Hwf He.
  apply (exec_invariant from to
           (λ s1, wf (files (st_world s1))
                  ∧ kept (files (st_world s)) (files (st_world s1))))
    with (acts := acts) (s := s); [|split; [done|apply kept_refl]|done].
  intros a s1 s2 [Hwf1 Hk1] Hs.
  destruct (step_kept a s1 s2 Hwf1 Hs) as [Hwf2 Hk2].
  split; [done|]. by eapply kept_trans.
Qed.

End Kept.

Lemma mkdir_kept fs kdir perm fs' :
  Fs.mkdir_from fs [] kdir perm = inr fs' → kept fs fs'.
Proof.
  intros Hm. eapply (transfer_effect_kept []). by eapply mkdir_effect.
Qed.

(** ** What [Copy] never does *)

(** X13. On a well-formed filesystem [Copy] never removes an entry and
    never changes the kind or the permission bits of an entry that
    exists, whatever it returns and in whatever order its goroutines
    run: every entry is still there, a directory as a directory, a
    regular file as a regular file, with the permission bits it had. In
    particular a file that is written over keeps its permission bits. *)
Theorem Copy_keeps_every_entry c from to w :
  wf (files w) →
  (∀ c' r w', Copy c from to w = Returned c' r w' →
     wf (files w') ∧ kept (files w) (files w'))
  ∧ (∀ c1 s0 acts s,
       Copy c from to w = Copying c1 s0 →
       exec from to acts s0 = Some s →
       wf (files (st_world s)) ∧ kept (files w) (files (st_world s))).
Proof.
  intros Hwf. split.
  - intros c' r w'. unfold Copy.
    destruct (String.eqb_spec from to) as [->|Hne].
    { intros [= <- <- <-]. split; [done|apply kept_refl]. }
    rewrite Stat_eq. destruct (Fs.lookup w from) as [e|n] eqn:Hf.
    { intros [= <- <- <-]. split; [done|apply kept_refl]. }
    rewrite Stat_eq. simpl.
    destruct (negb (os_IsNotExist _) && negb (Clobber c)) eqn:Hg.
    { intros [= <- <- <-]. split; [done|apply kept_refl]. }
    destruct n as [perm data|perm]; simpl.
    + destruct (copyFile _ _ _) as [r1 w1] eqn:Hcp. intros [= <- <- <-].
      apply copyFile_effect in Hcp as [Hwf' He]; [|done].
      split; [done|]. by eapply transfer_effect_kept.
    + destruct (Fs.MkdirAll _ _ _) as [[e|[]] w3] eqn:Hm; [|done].
      intros [= <- <- <-].
      apply MkdirAll_inv in Hm as [(e' & _ & Hfs & _)|[? _]]; [|done].
      simpl in Hfs. rewrite Hfs. split; [done|apply kept_refl].
  - intros c1 s0 acts s Hc He.
    apply Copy_Copying in Hc as (_ & perm & fs' & _ & _ & Hmk & _ & ->).
    assert (Hwf' : wf fs').
    { eapply mkdir_from_wf; [exact Hwf| |exact Hmk]. apply key_good. }
    apply exec_kept in He as [Hwfs Hk]; [|done].
    split; [done|]. eapply kept_trans; [|exact Hk]. simpl.
    by eapply mkdir_kept.
Qed.

Lemma Copy_keeps_every_entry_witness :
  ∃ c' w', Copy Fixture.clobbering "a" "b" Fixture.clobbered
             = Returned c' None w'
           ∧ ∃ d, files w' !! ["b"] = Some (File 384 d).
Proof.
  assert (Hw : wf (files Fixture.clobbered)).
  { apply wfb_wf. vm_compute. reflexivity. }
  destruct (Copy Fixture.clobbering "a" "b" Fixture.clobbered)
    as [c' [e|] w'|] eqn:Hc;
    [vm_compute in Hc; discriminate Hc| |vm_compute in Hc; discriminate Hc].
  exists c', w'. split; [reflexivity|].
  destruct (Copy_keeps_every_entry Fixture.clobbering "a" "b"
              Fixture.clobbered Hw) as [Hret _].
  destruct (Hret _ _ _ Hc) as [_ Hk].
  destruct (Hk ["b"] (File 384 "hello")) as (nd & Hnd & Hi); [reflexivity|].
  destruct nd as [m d|m]; simplify_eq/=. eauto.
Defined.

(** ** More facts on the walk and on the errors *)

Section WalkerFacts.

Lemma Replace1_first_dot a b :
  (∀ x y : string, a ≠ x +:+ String "." y) →
  Path.Replace1 (a +:+ String "." b) "." "" = a +:+ b.
Proof.
  induction a as [|c a IH]; intros Hno.
  - str. rewrite Replace1_unfold. simpl. by destruct b.
  - str. rewrite Replace1_unfold. cbn [String.prefix].
    destruct (ascii_dec "." c) as [<-|Hc].
    + destruct (Hno "" a). reflexivity.
    + rewrite IH; [done|]. intros x y ->. by destruct (Hno (String c x) y).
Qed.

Lemma copyFile_error_wrapped from to w e w' :
  copyFile from to w = (inl e, w') → ∃ msg cause, e = Wrap msg cause.
Proof.
  unfold copyFile. intros Hcp.
  repeat (apply bind_inv in Hcp as [(e0 & Hm & [= ->])|(? & ? & _ & Hcp)];
          [apply wrap_inv in Hm as ([e1|?] & _ & [= ->]); eauto|]).
  done.
Qed.

End WalkerFacts.

Section Skipping.
Context (rf rt : bool) (F T : list string).
Context (fs0 : gmap (list string) node) (seen0 : gset string).
Context (HF : F ≠ []) (HT : T ≠ []).
Context (HgT : Forall good_name T).
Context (Hwf0 : wf fs0).
Context (HFdir : ∃ p, fs0 !! F = Some (Dir p)).
Context (Hall : ∀ rel p d, fs0 !! (F ++ rel) = Some (File p d) →
                           render rt (T ++ rel) ∈ seen0).

Lemma skipping_visit path todo s :
  skipping rf F fs0 seen0 s →
  st_walker s = Walking (path :: todo) →
  skipping rf F fs0 seen0 (visit (render rf F) (render rt T) path todo s).
Proof.
  intros [Hfs Hsn Hwalker Htodo Hws Hem Hran Herrs Hres] Hwk.
  rewrite Hwk in *. simpl in *.
  destruct (Htodo path) as (rel0 & -> & Hs0); [by apply elem_of_cons; left|].
  pose proof (key_from F fs0 rf rel0 Hwf0 HF Hs0) as Hkey.
  pose proof (good_rel F fs0 rel0 Hwf0 Hs0) as Hg0.
  destruct Hs0 as [n0 Hn0].
  assert (Hr : resolve (files (st_world s))
                 (Path.key (render rf (F ++ rel0))) = inr n0).
  { rewrite Hkey, Hfs. by apply resolve_wf. }
  destruct n0 as [p d|perm].
  - assert (Hne : rel0 ≠ []).
    { apply (file_rel_nonempty F fs0); [done|]. by exists p, d. }
    destruct (visit_file (render rf F) (render rt T) _ todo s p d Hr)
      as (w' & Hw' & ->).
    cbv zeta. rewrite toPath_render by done.
    rewrite decide_True by (rewrite Hsn; by eapply Hall).
    split; simpl; rewrite ?Hw', ?Hem; try done.
    intros path' Hp. apply Htodo. by apply elem_of_cons; right.
  - destruct (visit_dir (render rf F) (render rt T) _ todo s perm Hr)
      as (w' & Hw' & ->).
    rewrite Hkey.
    split; simpl; rewrite ?Hw', ?Hem; try done.
    intros path' [Hp|Hp]%elem_of_app.
    + apply list_elem_of_fmap in Hp as (c & -> & Hc).
      rewrite Hfs in Hc. apply elem_of_readDirNames in Hc.
      rewrite <- app_assoc in Hc.
      pose proof (good_in_fs0 F fs0 _ Hwf0 Hc) as Hg.
      rewrite app_assoc in Hg. apply Forall_app in Hg as [Hg1 Hg2].
      apply Forall_inv in Hg2.
      exists (rel0 ++ [c]). split; [|done].
      rewrite Join2_name; [by rewrite <- app_assoc|by destruct F|done..].
    + apply Htodo. by apply elem_of_cons; right.
Qed.

Lemma skipping_workers (ws : list worker) i wr :
  Forall (λ wr, wr = Idle ∨ wr = Exited) ws →
  wr = Idle ∨ wr = Exited →
  Forall (λ wr, wr = Idle ∨ wr = Exited) (<[i := wr]> ws).
Proof. intros Hws Hwr. by apply Forall_insert. Qed.

Lemma skipping_step a s s' :
  skipping rf F fs0 seen0 s →
  step (render rf F) (render rt T) a s = Some s' →
  skipping rf F fs0 seen0 s'.
Proof.
  intros Hinv Hs. destruct a; simpl in Hs.
  - destruct (st_walker s) as [[|path todo]| | | |] eqn:Hwk; simplify_eq.
    by apply skipping_visit.
  - destruct (st_walker s) as [[|path todo]| | | |] eqn:Hwk; simplify_eq.
    destruct Hinv as [Hfs Hsn Hwalker Htodo Hws Hem Hran Herrs Hres].
    split; simpl; try done. intros path Hp. by apply elem_of_nil in Hp.
  - pose proof (sk_walker _ _ _ _ _ Hinv) as Hw.
    by destruct (st_walker s); simplify_eq.
  - destruct (st_workers s !! i) as [[|j| |]|] eqn:Hi; simplify_eq.
    pose proof (sk_workers _ _ _ _ _ Hinv) as Hws.
    rewrite Forall_lookup in Hws. by destruct (Hws _ _ Hi).
  - destruct (st_workers s !! i) as [[| |e|]|] eqn:Hi; simplify_eq.
    pose proof (sk_workers _ _ _ _ _ Hinv) as Hws.
    rewrite Forall_lookup in Hws. by destruct (Hws _ _ Hi).
  - pose proof (sk_walker _ _ _ _ _ Hinv) as Hw.
    by destruct (st_walker s); simplify_eq.
  - destruct (st_walker s) eqn:Hwk; simplify_eq.
    destruct (st_workers s !! i) as [[]|] eqn:Hi; simplify_eq.
    destruct Hinv as [Hfs Hsn Hwalker Htodo Hws Hem Hran Herrs Hres].
    rewrite Hwk in *.
    split; simpl; rewrite ?Hwk; try done. apply skipping_workers; auto.
  - destruct (all_exited _ && _); simplify_eq.
    destruct Hinv as [Hfs Hsn Hwalker Htodo Hws Hem Hran Herrs Hres].
    split; done.
  - destruct (st_result s) eqn:Hr; [done|].
    destruct (st_closed s); simplify_eq.
    destruct Hinv as [Hfs Hsn Hwalker Htodo Hws Hem Hran Herrs Hres].
    split; simpl; try done. intros r [= <-]. by rewrite Herrs.
Qed.

End Skipping.

(** ** The walk function *)

(** X14. For clean paths [from] and [to], the walk function called on
    the regular file at the elements [rel] below [from] leaves it alone
    when [to/rel] is in the Seen-set, and otherwise stores [to/rel] in
    the Seen-set and sends the job from [from/rel] to [to/rel]: the path
    below [to] is the path below [from]. *)
Theorem walker_sends_a_file_to_the_same_relative_path
  from to F T rel info sn :
  plain from F → plain to T →
  rel ≠ [] → Forall good_name rel →
  IsDir info = false →
  let path := from +:+ "/" +:+ Path.Join rel in
  let dest := to +:+ "/" +:+ Path.Join rel in
  walker_visit from to path info sn
  = if decide (dest ∈ sn) then (sn, None)
    else ({[dest]} ∪ sn, Some {| From := path; To := dest |}).
Proof.
  intros (HF & HgF & rf & ->) (HT & HgT & rt & ->) Hrel Hg Hi. cbv zeta.
  change ("/" +:+ Path.Join rel) with (String "/" (Path.Join rel)).
  rewrite <- !render_app by done.
  unfold walker_visit. rewrite Hi. by rewrite toPath_render.
Qed.

Lemma walker_sends_a_file_to_the_same_relative_path_witness :
  walker_visit "from" "/to" "from/d/c" {| IsDir := false; Mode := 384 |} ∅
  = ({["/to/d/c"]} ∪ ∅, Some {| From := "from/d/c"; To := "/to/d/c" |}).
Proof.
  assert (Hf : plain "from" ["from"]).
  { split; [done|]. split; [|by exists false].
    apply Forall_singleton, good_nameb_spec. reflexivity. }
  assert (Ht : plain "/to" ["to"]).
  { split; [done|]. split; [|by exists true].
    apply Forall_singleton, good_nameb_spec. reflexivity. }
  assert (Hg : Forall good_name ["d"; "c"]).
  { repeat (apply Forall_cons; split; [by apply good_nameb_spec|]).
    constructor. }
  assert (Hr : ["d"; "c"] ≠ ([] : list string)) by done.
  pose proof (walker_sends_a_file_to_the_same_relative_path "from" "/to"
                ["from"] ["to"] ["d"; "c"]
                {| IsDir := false; Mode := 384 |} ∅ Hf Ht Hr Hg eq_refl) as H.
  cbv zeta in H. rewrite decide_False in H by apply not_elem_of_empty.
  exact H.
Defined.

(** X15. When [from] is ".", the paths [afero.Walk] passes do not begin
    with it and [strings.Replace] removes the first dot it finds in the
    path instead: the regular file [a.b], with no dot in [a], is sent to
    [Join(to, ab)]. *)
Theorem walker_drops_the_first_dot_below_dot to a b info sn :
  (∀ x y : string, a ≠ x +:+ "." +:+ y) →
  IsDir info = false →
  let path := a +:+ "." +:+ b in
  let dest := Path.Join2 to (a +:+ b) in
  walker_visit "." to path info sn
  = if decide (dest ∈ sn) then (sn, None)
    else ({[dest]} ∪ sn, Some {| From := path; To := dest |}).
Proof.
  intros Hno Hi. cbv zeta.
  change ("." +:+ b) with (String "." b).
  unfold walker_visit. rewrite Hi. by rewrite Replace1_first_dot.
Qed.

Lemma walker_drops_the_first_dot_below_dot_witness :
  walker_visit "." "/out" "foo.exe" {| IsDir := false; Mode := 420 |} ∅
  = ({["/out/fooexe"]} ∪ ∅,
     Some {| From := "foo.exe"; To := "/out/fooexe" |}).
Proof.
  assert (Hno : ∀ x y : string, "foo" ≠ x +:+ "." +:+ y).
  { intros x y Heq.
    change ("." +:+ y) with (String "." y) in Heq.
    destruct x as [|c0 [|c1 [|c2 [|c3 x]]]]; str; simplify_eq. }
  pose proof (walker_drops_the_first_dot_below_dot "/out" "foo" "exe"
                {| IsDir := false; Mode := 420 |} ∅ Hno eq_refl) as H.
  cbv zeta in H. rewrite decide_False in H by apply not_elem_of_empty.
  exact H.
Defined.

(** ** The Seen-set of a [Copier] that is used again *)

(** X16. A directory copy by a [Copier] whose Seen-set already holds the
    destination [to/rel] of every regular file at [rel] below [from], as
    it does after a complete copy of [from] to [to] by the same
    [Copier]: in every execution nothing is sent and nothing is
    transferred, so that the files stay as [Copy] left them after
    creating [to] (a file that was removed from [to] meanwhile is not
    copied again), and [Copy] returns [nil]. *)
Theorem Copy_skips_what_the_Seen_set_holds c from to F T w c1 s0 acts s :
  wf (files w) →
  plain from F → plain to T →
  (∀ rel p d, files w !! (F ++ rel) = Some (File p d) →
     to +:+ "/" +:+ Path.Join rel ∈ default ∅ (seen c)) →
  Copy c from to w = Copying c1 s0 →
  exec from to acts s0 = Some s →
  files (st_world s) = files (st_world s0)
  ∧ st_seen s = default ∅ (seen c)
  ∧ st_emitted s = [] ∧ st_ran s = []
  ∧ ∀ r, st_result s = Some r → r = None.
Proof.
  intros Hwf (HF & HgF & rf & ->) (HT & HgT & rt & ->) Hall Hc He.
  apply Copy_Copying in Hc as (_ & perm & fs' & Hfrom & _ & Hmk & _ & ->).
  unfold Fs.lookup in Hfrom. apply resolve_Some in Hfrom.
  rewrite key_render in Hfrom, Hmk by done.
  destruct (mkdir_from_spec _ _ _ _ _ Hmk) as (Ha & Hb & _).
  assert (Hwf' : wf fs').
  { eapply mkdir_from_wf; [exact Hwf| |exact Hmk]. done. }
  assert (HFd : ∃ p, fs' !! F = Some (Dir p)) by eauto.
  assert (Hall' : ∀ rel p d, fs' !! (F ++ rel) = Some (File p d) →
                    render rt (T ++ rel) ∈ default ∅ (seen c)).
  { intros rel p d Hf.
    assert (Hrel : rel ≠ []).
    { intros ->. rewrite app_nil_r in Hf. destruct HFd. congruence. }
    rewrite render_app by done. apply (Hall rel p d).
    destruct (files w !! (F ++ rel)) as [nd|] eqn:Hw.
    - apply Ha in Hw. congruence.
    - by destruct (Hb _ _ Hw Hf) as [? _]. }
  assert (Hinv : skipping rf F fs' (default ∅ (seen c)) s).
  { eapply exec_invariant; [| |exact He].
    - intros a s1 s2. by apply (skipping_step rf rt F T fs').
    - split; simpl; try done.
      + intros path ->%list_elem_of_singleton. exists [].
        rewrite app_nil_r. split; [done|]. destruct HFd. eauto.
      + apply Forall_forall. intros wr Hwr%spawn_all_idle. by left. }
  destruct Hinv as [Hfs Hsn _ _ _ Hem Hran _ Hres]. done.
Qed.

Lemma Copy_skips_what_the_Seen_set_holds_witness :
  ∃ c1 s0 s,
    Copy {| Fs := None; Clobber := false; Parallel := 0;
            seen := Some ({["to/a"]} ∪ {["to/d/c"]}) |}
         "from" "to" Fixture.tree = Copying c1 s0
    ∧ exec "from" "to" (Fixture.skipping_run 9) s0 = Some s
    ∧ st_result s = Some None
    ∧ st_ran s = []
    ∧ files (st_world s) = files (st_world s0).
Proof.
  set (c := {| Fs := None; Clobber := false; Parallel := 0;
               seen := Some ({["to/a"]} ∪ {["to/d/c"]}) |}).
  destruct (Copy c "from" "to" Fixture.tree)
    as [|c1 s0] eqn:Hc; [vm_compute in Hc; discriminate Hc|].
  destruct (exec "from" "to" (Fixture.skipping_run 9) s0) as [s|] eqn:He;
    [|vm_compute in Hc; injection Hc as <- <-;
      vm_compute in He; discriminate He].
  destruct (st_result s) as [r|] eqn:Hr;
    [|vm_compute in Hc; injection Hc as <- <-;
      vm_compute in He; injection He as <-;
      vm_compute in Hr; discriminate Hr].
  exists c1, s0, s. split; [reflexivity|]. split; [exact He|].
  assert (Hw : wf (files Fixture.tree)).
  { apply wfb_wf. vm_compute. reflexivity. }
  assert (Hf : plain "from" ["from"]).
  { split; [done|]. split; [|by exists false].
    apply Forall_singleton, good_nameb_spec. reflexivity. }
  assert (Ht : plain "to" ["to"]).
  { split; [done|]. split; [|by exists false].
    apply Forall_singleton, good_nameb_spec. reflexivity. }
  assert (Hs : ∀ rel p d,
             files Fixture.tree !! (["from"] ++ rel) = Some (File p d) →
             "to" +:+ "/" +:+ Path.Join rel ∈ default ∅ (seen c)).
  { intros rel p d Hl. apply elem_of_map_to_list in Hl. vm_compute in Hl.
    repeat (apply elem_of_cons in Hl as [Hl|Hl];
            [try discriminate Hl; injection Hl as -> _ _|]).
    - simpl. apply elem_of_union_r, elem_of_singleton. reflexivity.
    - simpl. apply elem_of_union_l, elem_of_singleton. reflexivity.
    - by apply elem_of_nil in Hl. }
  destruct (Copy_skips_what_the_Seen_set_holds c "from" "to" ["from"] ["to"]
              Fixture.tree c1 s0 _ s Hw Hf Ht Hs Hc He)
    as (Hfs & _ & _ & Hran & Hres).
  split; [by rewrite (Hres r Hr) in Hr|]. split; [exact Hran|exact Hfs].
Defined.

(** ** The errors of [Copy] *)

Lemma Copy_ErrClobberAvoided_inv c from to w c' p w' :
  Copy c from to w = Returned c' (Some (ErrClobberAvoided p)) w' →
  from ≠ to
  ∧ (∃ n, Fs.lookup w from = inr n)
  ∧ Fs.lookup w to ≠ inl ENOENT
  ∧ Clobber c = false
  ∧ p = to ∧ c' = with_fs c
  ∧ w' = {| files := files w;
            trace := trace w ++ [CallStat from; CallStat to] |}.
Proof.
  unfold Copy. destruct (String.eqb_spec from to) as [->|Hne]; [done|].
  rewrite Stat_eq. destruct (Fs.lookup w from) as [e|n] eqn:Hf; [done|].
  rewrite Stat_eq. simpl.
  destruct (negb (os_IsNotExist _) && negb (Clobber c)) eqn:Hg.
  - intros [= <- <- <-]. apply andb_true_iff in Hg as [Hg1 Hg2].
    apply negb_true_iff in Hg1, Hg2. split; [done|]. split; [eauto|].
    split.
    { intros Hto. unfold Fs.lookup in *. simpl in Hg1.
      by rewrite Hto in Hg1. }
    split; [done|]. split; [done|]. split; [done|].
    by rewrite <- app_assoc.
  - destruct n as [perm data|perm]; simpl.
    + destruct (copyFile _ _ _) as [[e|[]] w1] eqn:Hcp; [|done].
      apply copyFile_error_wrapped in Hcp as (msg & cause & ->). done.
    + destruct (Fs.MkdirAll _ _ _) as [[e|[]] w3] eqn:Hm; [|done].
      apply MkdirAll_inv in Hm as [(e' & [= ->] & _)|[? _]]; done.
Qed.

(** What the goroutines of a directory copy return. *)
Lemma exec_result_Failures from to acts parallel seen0 w s e :
  exec from to acts (copier_copy parallel seen0 from w) = Some s →
  st_result s = Some (Some e) →
  e = Failures (st_errs s) ∧ st_errs s ≠ [].
Proof.
  intros He Hr.
  pose proof (exec_winding_down _ _ _ _ _ _ _ He) as [_ _ Hres].
  destruct (Hres _ Hr) as [_ Heq]. destruct (st_errs s); simplify_eq/=.
  done.
Qed.

(** X17. [Copy] returns [ErrClobberAvoided] in one case only: [from] and
    [to] differ, the stat of [from] succeeded, the stat of [to] did not
    fail with a not-exist error, and [Clobber] is false. It then carries
    [to], and nothing but the two stats has reached the filesystem. A
    directory copy never returns it from its goroutines: what these
    return is [nil] or a [Failures]. *)
Theorem Copy_avoids_clobbering_in_one_case_only c from to w :
  (∀ c' p w',
     Copy c from to w = Returned c' (Some (ErrClobberAvoided p)) w'
     ↔ from ≠ to
       ∧ (∃ n, Fs.lookup w from = inr n)
       ∧ Fs.lookup w to ≠ inl ENOENT
       ∧ Clobber c = false
       ∧ p = to ∧ c' = with_fs c
       ∧ w' = {| files := files w;
                 trace := trace w ++ [CallStat from; CallStat to] |})
  ∧ (∀ c1 s0 acts s e,
       Copy c from to w = Copying c1 s0 →
       exec from to acts s0 = Some s →
       st_result s = Some (Some e) →
       ∃ errs, e = Failures errs).
Proof.
  split.
  - intros c' p w'. split; [apply Copy_ErrClobberAvoided_inv|].
    intros (Hne & [n Hf] & Hto & Hc & -> & -> & ->).
    by eapply Copy_guard.
  - intros c1 s0 acts s e Hc He Hr.
    apply Copy_Copying in Hc as (_ & perm & fs' & _ & _ & _ & _ & ->).
    destruct (exec_result_Failures _ _ _ _ _ _ _ _ He Hr) as [-> _]. eauto.
Qed.

(** ** The loop of [Failures.Error] *)

Section MessageFacts.
Context (Error : error → string).

Lemma Failures_loop_app len ii list b b0 :
  Failures_loop Error len ii list (b0 +:+ b)
  = b0 +:+ Failures_loop Error len ii list b.
Proof.
  revert ii b. induction list as [|e list IH]; intros ii b; simpl; [done|].
  destruct (negb (ii =? len - 1)%Z);
    rewrite <- ?IH, ?append_assoc; done.
Qed.

Lemma Failures_loop_from_empty len ii list b :
  Failures_loop Error len ii list b
  = b +:+ Failures_loop Error len ii list "".
Proof.
  rewrite <- Failures_loop_app. by rewrite append_nil_r.
Qed.

Lemma Failures_loop_join list ii :
  Failures_loop Error (ii + Z.of_nat (length list)) ii list ""
  = String.concat ("," +:+ nl) (Error <$> list).
Proof.
  revert ii. induction list as [|e list IH]; intros ii; [done|].
  cbn [Failures_loop length fmap list_fmap String.concat].
  rewrite append_nil_l.
  replace (ii + Z.of_nat (S (length list)))%Z
    with ((ii + 1) + Z.of_nat (length list))%Z by lia.
  destruct (Z.eqb_spec ii (ii + 1 + Z.of_nat (length list) - 1))
    as [Heq|Hne]; cbn [negb].
  - destruct list as [|e' list]; [done|]. simpl in Heq. lia.
  - destruct list as [|e' list]; [simpl in Hne; lia|].
    rewrite Failures_loop_from_empty, IH.
    cbn [fmap list_fmap]. by rewrite append_assoc.
Qed.

End MessageFacts.

(** ** The messages of the errors *)

(** X18. The message of a [Failures] is "[", the messages of the
    failures joined with a comma and a line feed, none after the
    last, and a line feed and "]"; that of an empty [Failures] is "[",
    a line feed and "]". *)
Theorem Failures_Error_joins_the_messages
  (Error : error → string) (list : list error) :
  Failures_Error Error list
  = "[" +:+ String.concat ("," +:+ nl) (Error <$> list) +:+ nl +:+ "]".
Proof.
  unfold Failures_Error. cbv zeta.
  rewrite <- (Failures_loop_join Error list 0).
  rewrite Failures_loop_from_empty. simpl.
  by rewrite append_assoc.
Qed.

(** ** The command *)

(** X19. The command [cp], whatever its arguments and the filesystem:
    with fewer than two arguments it prints through [oops] and makes no
    call on the filesystem; it sets [Clobber], so that the error it
    prints through [fatal] is never an [ErrClobberAvoided], whether
    [Copy] returned at once or from its goroutines; and it exits with
    status 0 in every case, also when it has printed an error. *)
Theorem cp_exits_with_0_and_never_avoids_clobbering args w :
  (length args < 2 →
   main args w = Exit 0 (Some (Oops ("not enough arguments" +:+ nl))) w)
  ∧ (∀ code out w',
       main args w = Exit code out w' →
       code = 0%Z ∧ ∀ f p, out ≠ Some (Fatal f (ErrClobberAvoided p)))
  ∧ (∀ from to rest c s0 acts s err,
       args = from :: to :: rest →
       main args w = Running c s0 →
       exec from to acts s0 = Some s →
       st_result s = Some err →
       ∃ out, main_end err (st_world s) = Exit 0 out (st_world s)
              ∧ ∀ f p, out ≠ Some (Fatal f (ErrClobberAvoided p))).
Proof.
  split; [|split].
  - destruct args as [|from [|to rest]]; simpl; try done. lia.
  - intros code out w'. destruct args as [|from [|to rest]]; simpl.
    + intros [= <- <- <-]. done.
    + intros [= <- <- <-]. done.
    + destruct (Copy main_copier from to w) as [c' [err|] w1|c1 s1] eqn:Hc;
        simpl; intros [= <- <- <-]; (split; [done|]); [|done].
      intros f p [= _ ->].
      by apply Copy_ErrClobberAvoided_inv in Hc as (_ & _ & _ & ? & _).
  - intros from to rest c s0 acts s err -> Hm He Hr. simpl in Hm.
    destruct (Copy main_copier from to w) as [c' e w1|c1 s1] eqn:Hc.
    { by destruct e. }
    injection Hm as <- <-.
    apply Copy_Copying in Hc as (_ & perm & fs' & _ & _ & _ & _ & ->).
    destruct err as [e|]; simpl; eexists; (split; [reflexivity|]); [|done].
    destruct (exec_result_Failures _ _ _ _ _ _ _ _ He Hr) as [-> _]. done.
Qed.

Lemma cp_exits_with_0_and_never_avoids_clobbering_witness :
  main ["a"] Fixture.clobbered
  = Exit 0 (Some (Oops ("not enough arguments" +:+ nl))) Fixture.clobbered
  ∧ ∃ w', main ["a"; "b"] Fixture.clobbered = Exit 0 None w'
          ∧ files w' !! ["b"] = Some (File 384 "xyllo").
Proof.
  split.
  - apply (cp_exits_with_0_and_never_avoids_clobbering ["a"]
             Fixture.clobbered). simpl. lia.
  - eexists. split; vm_compute; reflexivity.
Defined.

(** ** What the Seen-set holds *)

Section SeenFacts.
Context (from to : string).

Lemma seen_exact_step seen0 a s s' :
  st_seen s = seen0 ∪ list_to_set (To <$> st_emitted s) →
  step from to a s = Some s' →
  st_seen s' = seen0 ∪ list_to_set (To <$> st_emitted s').
Proof.
  intros Hinv Hs. destruct a; simpl in Hs.
  - destruct (st_walker s) as [[|path todo]| | | |]; simplify_eq.
    destruct (visit_bookkeeping from to path todo s)
      as (_ & _ & _ & _ & _ & _ & Hcase).
    destruct Hcase as [(-> & -> & _)|(j & todo' & _ & _ & -> & ->)]; [done|].
    rewrite fmap_app, list_to_set_app_L, Hinv. simpl.
    rewrite (right_id_L ∅ (∪)).
    rewrite (comm_L (∪) {[To j]}). by rewrite (assoc_L (∪)).
  - destruct (st_walker s) as [[|path todo]| | | |]; simplify_eq. done.
  - destruct (st_walker s), (st_workers s !! i) as [[]|]; simplify_eq. done.
  - destruct (st_workers s !! i) as [[|j| |]|]; simplify_eq.
    destruct (copyFile _ _ _). simplify_eq. done.
  - destruct (st_workers s !! i) as [[]|], (st_result s); simplify_eq. done.
  - destruct (st_walker s), (st_result s), (st_closed s); simplify_eq; done.
  - destruct (st_walker s), (st_workers s !! i) as [[]|]; simplify_eq. done.
  - destruct (_ && _); simplify_eq. done.
  - destruct (st_result s), (st_closed s); simplify_eq. done.
Qed.

End SeenFacts.

(** ** Where a directory copy starts *)



(** ** The Seen-set *)

(** X21. In every execution of a directory copy the Seen-set is the set
    the copy began with and the destinations of the jobs the walker has
    sent or is sending, and nothing else. *)
Theorem Seen_set_is_what_was_sent
  (parallel : Z) (seen0 : gset string) (from to : string) (w : world)
  (acts : list action) (s : state) :
  exec from to acts (copier_copy parallel seen0 from w) = Some s →
  st_seen s = seen0 ∪ list_to_set (To <$> st_emitted s).
Proof.
  intros He.
  apply (exec_invariant from to
           (λ s1, st_seen s1 = seen0 ∪ list_to_set (To <$> st_emitted s1)))
    with (acts := acts) (s := copier_copy parallel seen0 from w);
    [|by simpl; rewrite (right_id_L ∅ (∪))|done].
  intros a s1 s2. apply seen_exact_step.
Qed.

Lemma Seen_set_is_what_was_sent_witness :
  ∃ s, exec "from" "to" (Fixture.full_run 9)
         (copier_copy 0 ∅ "from" Fixture.tree) = Some s
       ∧ st_seen s = ∅ ∪ list_to_set (To <$> st_emitted s).
Proof.
  destruct (exec "from" "to" (Fixture.full_run 9)
              (copier_copy 0 ∅ "from" Fixture.tree)) as [s|] eqn:He.
  - exists s. split; [reflexivity|].
    exact (Seen_set_is_what_was_sent 0 ∅ "from" "to" Fixture.tree
             (Fixture.full_run 9) s He).
  - vm_compute in He. discriminate He.
Defined.

(** ** Paths that are not clean *)

Section AnyPath.

Lemma Split_sep a b :
  Path.Split (a +:+ String "/" b) = Path.Split a ++ Path.Split b.
Proof.
  induction a as [|c a IH]; [done|]. str. simpl. rewrite IH.
  destruct (Path.is_sep c); [done|].
  pose proof (Split_nonempty a). by destruct (Path.Split a).
Qed.

Lemma Split_Join_names k :
  k ≠ [] → Forall (λ x, no_sep x = true) k → Path.Split (Path.Join k) = k.
Proof.
  induction k as [|x k IH]; intros Hk Hg; [done|].
  apply Forall_cons in Hg as [Hx Hg].
  destruct k as [|y k].
  - simpl. by apply Split_name.
  - rewrite Join_cons by done. rewrite Split_app by done.
    f_equal. by apply IH.
Qed.

(** The stack of [filepath.Clean] on a path that is not rooted is the
    stack on the rooted path, on top of the [..] that lead out of the
    working directory. *)
Lemma fold_clean_unrooted l st k :
  Forall good_name st → Forall (λ x, no_sep x = true) l →
  ∃ k', fold_left (Path.clean_step false) l (st ++ replicate k "..")
        = fold_left (Path.clean_step true) l st ++ replicate k' "..".
Proof.
  revert st k. induction l as [|c l IH]; intros st k Hst Hl; simpl; [eauto|].
  apply Forall_cons in Hl as [Hc Hl].
  unfold Path.clean_step at 2 4.
  destruct (String.eqb_spec c "") as [->|H1]; simpl; [by apply IH|].
  destruct (String.eqb_spec c ".") as [->|H2]; simpl; [by apply IH|].
  destruct (String.eqb_spec c "..") as [->|H3].
  - destruct st as [|top rest]; simpl.
    + destruct k as [|k]; simpl.
      * by apply (IH [] 1).
      * by apply (IH [] (S (S k))).
    + apply Forall_cons in Hst as [Htop Hrest].
      destruct (String.eqb_spec top "..") as [->|_].
      * by destruct Htop as (_ & _ & ? & _).
      * by apply IH.
  - apply (IH (c :: st) k); [|done]. apply Forall_cons. done.
Qed.

Lemma clean_elems_unrooted l :
  Forall (λ x, no_sep x = true) l →
  ∃ k, Path.clean_elems false l = replicate k ".." ++ Path.clean_elems true l.
Proof.
  intros Hl. destruct (fold_clean_unrooted l [] 0) as [k Hk]; [done..|].
  exists k. unfold Path.clean_elems. simpl in Hk. rewrite Hk.
  rewrite rev_app_distr. f_equal.
  clear. induction k as [|k IH]; [done|]. simpl. rewrite IH.
  clear. induction k as [|k IH]; [done|]. simpl. by rewrite <- IH.
Qed.

Lemma clean_elems_rooted_good l :
  Forall (λ x, no_sep x = true) l → Forall good_name (Path.clean_elems true l).
Proof.
  intros Hl. unfold Path.clean_elems. apply Forall_rev.
  by apply fold_clean_rooted_good.
Qed.

Lemma clean_elems_dotdots k g :
  Forall good_name g →
  Path.clean_elems true (replicate k ".." ++ g) = g.
Proof.
  intros Hg. rewrite clean_elems_app_good by done.
  replace (Path.clean_elems true (replicate k "..")) with ([] : list string);
    [done|].
  unfold Path.clean_elems. induction k as [|k IH]; [done|]. simpl. exact IH.
Qed.

Lemma Join_names_nonempty k :
  k ≠ [] → Forall (λ x : string, x ≠ "") k → Path.Join k ≠ "".
Proof.
  destruct k as [|x k]; [done|]. intros _ [Hx _]%Forall_cons.
  destruct x as [|c x]; [done|]. by destruct k.
Qed.

(** [filepath.Clean] does not change what a path resolves to. *)
Lemma key_Clean s : Path.key (Path.Clean s) = Path.key s.
Proof.
  pose proof (Split_no_sep s) as Hs.
  pose proof (clean_elems_rooted_good _ Hs) as Hg.
  unfold Path.Clean, Path.key at 2.
  destruct (Path.rooted s) eqn:Hr.
  - (* rooted *)
    str. simpl String.eqb. cbv iota.
    set (g := Path.clean_elems true (Path.Split s)) in *.
    unfold Path.key.
    change (Path.Split (String "/" (Path.Join g)))
      with ((if true then [""] else []) ++ Path.Split (Path.Join g)).
    rewrite clean_elems_head. destruct (decide (g = [])) as [->|Hne]; [done|].
    rewrite Split_Join by done. by apply clean_elems_good.
  - (* not rooted *)
    str. destruct (clean_elems_unrooted _ Hs) as [k Hk]. rewrite Hk.
    set (g := Path.clean_elems true (Path.Split s)) in *.
    destruct (decide (replicate k ".." ++ g = [])) as [Hnil|Hne].
    + rewrite Hnil. simpl. apply app_eq_nil in Hnil as [_ ->]. done.
    + assert (Hj : Path.Join (replicate k ".." ++ g) ≠ "").
      { apply Join_names_nonempty; [done|]. apply Forall_app. split.
        - apply Forall_forall. by intros x [-> _]%elem_of_replicate.
        - eapply Forall_impl; [exact Hg|]. by intros x (? & _). }
      apply String.eqb_neq in Hj. rewrite Hj. unfold Path.key.
      rewrite Split_Join_names; [by apply clean_elems_dotdots|done|].
      apply Forall_app. split.
      * apply Forall_forall. by intros x [-> _]%elem_of_replicate.
      * eapply Forall_impl; [exact Hg|]. by intros x (_ & _ & _ & ?).
Qed.

(** [filepath.Join] of any path and a name resolves to the name below
    what the path resolves to. *)
Lemma key_Join2 p n :
  good_name n → Path.key (Path.Join2 p n) = Path.key p ++ [n].
Proof.
  intros Hn. unfold Path.Join2.
  destruct (String.eqb_spec p "") as [->|Hp]; simpl.
  - destruct (String.eqb_spec n "") as [->|_]; [by destruct Hn|]. simpl.
    rewrite key_Clean. unfold Path.key.
    rewrite Split_name by by apply good_name_no_sep.
    apply clean_elems_good. by apply Forall_singleton.
  - rewrite key_Clean. unfold Path.key. str. rewrite Split_sep.
    rewrite (Split_name n) by by apply good_name_no_sep.
    apply clean_elems_app_good. by apply Forall_singleton.
Qed.

End AnyPath.

Section WalkSound.
Context (from to : string).

(** The paths a visit of a directory queues exist. *)
Lemma children_exist (fs : gmap (list string) node) path path' :
  wf fs →
  path' ∈ Path.Join2 path <$> Fs.readDirNames fs (Path.key path) →
  ∃ n, Path.key path' = Path.key path ++ [n]
       ∧ is_Some (fs !! (Path.key path ++ [n])).
Proof.
  intros Hwf Hp. apply list_elem_of_fmap in Hp as (n & -> & Hn).
  apply elem_of_readDirNames in Hn. exists n. split; [|done].
  apply key_Join2. destruct Hn as [nd Hnd].
  pose proof (wf_names _ Hwf _ _ Hnd) as Hg.
  apply Forall_app in Hg as [_ Hg]. by apply Forall_inv in Hg.
Qed.

Lemma walk_sound_visit path todo s :
  walk_sound s →
  st_walker s = Walking (path :: todo) →
  walk_sound (visit from to path todo s).
Proof.
  intros [Hwf Htodo Hwalker] Hwk. rewrite Hwk in *. simpl in *.
  destruct (Htodo path) as [n Hn]; [by apply elem_of_cons; left|].
  pose proof (resolve_wf _ _ _ Hwf Hn) as Hr.
  destruct n as [p d|perm].
  - destruct (visit_file from to _ todo s p d Hr) as (w' & Hw' & ->).
    cbv zeta. case_decide; split; simpl; rewrite ?Hw'; try done;
      intros path' Hp; apply Htodo; by apply elem_of_cons; right.
  - destruct (visit_dir from to _ todo s perm Hr) as (w' & Hw' & ->).
    split; simpl; rewrite ?Hw'; try done.
    intros path' [Hp|Hp]%elem_of_app.
    + destruct (children_exist _ _ _ Hwf Hp) as (n & -> & Hs). done.
    + apply Htodo. by apply elem_of_cons; right.
Qed.

Lemma walk_sound_step a s s' :
  walk_sound s → step from to a s = Some s' → walk_sound s'.
Proof.
  intros Hinv Hs. destruct a; simpl in Hs.
  - destruct (st_walker s) as [[|path todo]| | | |] eqn:Hwk; simplify_eq.
    by apply walk_sound_visit.
  - destruct (st_walker s) as [[|path todo]| | | |] eqn:Hwk; simplify_eq.
    destruct Hinv as [Hwf Htodo Hwalker]. split; simpl; try done.
    intros path Hp. by apply elem_of_nil in Hp.
  - destruct (st_walker s) as [todo|j todo| | |] eqn:Hwk; simplify_eq.
    destruct (st_workers s !! i) as [[]|]; simplify_eq.
    destruct Hinv as [Hwf Htodo Hwalker]. rewrite Hwk in *.
    split; simpl; done.
  - destruct (st_workers s !! i) as [[|j| |]|] eqn:Hi; simplify_eq.
    destruct (copyFile (From j) (To j) (st_world s)) as [r w'] eqn:Hcp.
    simplify_eq. destruct Hinv as [Hwf Htodo Hwalker].
    destruct (copyFile_effect _ _ _ _ _ Hwf Hcp) as [Hwf' He].
    apply transfer_effect_kept in He.
    split; simpl; try done. intros path Hp.
    destruct (Htodo path Hp) as [nd Hnd].
    destruct (He _ _ Hnd) as (nd' & Hnd' & _). eauto.
  - destruct (st_workers s !! i) as [[]|], (st_result s); simplify_eq.
    destruct Hinv as [Hwf Htodo Hwalker]. split; simpl; done.
  - pose proof (ws_walker _ Hinv) as Hw.
    by destruct (st_walker s); simplify_eq.
  - destruct (st_walker s) eqn:Hwk; simplify_eq.
    destruct (st_workers s !! i) as [[]|]; simplify_eq.
    destruct Hinv as [Hwf Htodo Hwalker]. rewrite Hwk in *.
    split; simpl; rewrite ?Hwk; done.
  - destruct (_ && _); simplify_eq.
    destruct Hinv as [Hwf Htodo Hwalker]. split; simpl; done.
  - destruct (st_result s), (st_closed s); simplify_eq.
    destruct Hinv as [Hwf Htodo Hwalker]. split; simpl; done.
Qed.

Lemma walker_held_step K fs0 p d a s s' :
  wf fs0 → fs0 !! K = Some (File p d) →
  walker_held K fs0 s → step from to a s = Some s' → walker_held K fs0 s'.
Proof.
  intros Hwf HK [<- Hws Hwalker] Hs.
  destruct a; simpl in Hs; rewrite ?Hws in Hs; simpl in Hs.
  - destruct (st_walker s) as [[|path todo]| | | |] eqn:Hwk; simplify_eq.
    destruct Hwalker as (Hsn & Htodo & path0 & Hin & Hpre).
    destruct (Htodo path) as [n Hn]; [by apply elem_of_cons; left|].
    assert (Hr : resolve (files (st_world s)) (Path.key path) = inr n).
    { apply resolve_wf; done. }
    destruct n as [p' d'|perm].
    + destruct (visit_file from to _ todo s p' d' Hr) as (w' & Hw' & ->).
      cbv zeta. rewrite Hsn.
      rewrite decide_False by apply not_elem_of_empty.
      split; simpl; done.
    + destruct (visit_dir from to _ todo s perm Hr) as (w' & Hw' & ->).
      split; simpl; try done. split; [done|]. split.
      * intros path' [Hp|Hp]%elem_of_app.
        -- destruct (children_exist _ _ _ Hwf Hp) as (c & -> & Hs). done.
        -- apply Htodo. by apply elem_of_cons; right.
      * apply elem_of_cons in Hin as [->|Hin].
        -- destruct Hpre as [[|c r] ->].
           { rewrite app_nil_r in HK. congruence. }
           assert (Hc : is_Some (files (st_world s) !! (Path.key path ++ [c]))).
           { destruct r as [|c' r]; [eauto|].
             destruct (wf_prefix_dir (files (st_world s))
                         (Path.key path ++ [c]) (c' :: r))
               as [m Hm]; [done|done|rewrite <- app_assoc; eauto|eauto]. }
           exists (Path.Join2 path c). split.
           ++ apply elem_of_app; left. apply list_elem_of_fmap.
              exists c. split; [done|]. by apply elem_of_readDirNames.
           ++ rewrite key_Join2.
              ** apply prefix_app, prefix_cons, prefix_nil.
              ** destruct Hc as [nd Hnd].
                 pose proof (wf_names _ Hwf _ _ Hnd) as Hg.
                 apply Forall_app in Hg as [_ Hg]. by apply Forall_inv in Hg.
        -- exists path0. split; [by apply elem_of_app; right|done].
  - destruct (st_walker s) as [[|path todo]| | | |] eqn:Hwk; simplify_eq.
    destruct Hwalker as (_ & _ & path0 & Hin & _). by apply elem_of_nil in Hin.
  - by destruct (st_walker s).
  - done.
  - done.
  - by destruct (st_walker s).
  - by destruct (st_walker s).
  - destruct (negb (st_closed s)); simplify_eq. split; done.
  - destruct (st_result s), (st_closed s); simplify_eq. split; done.
Qed.

End WalkSound.

Lemma prefix_inv (a s : string) :
  String.prefix a s = true → ∃ y, s = a +:+ y.
Proof.
  revert s. induction a as [|c a IH]; intros s; [by exists s|].
  destruct s as [|c' s]; [done|]. cbn [String.prefix].
  destruct (ascii_dec c c') as [<-|]; [|done].
  intros [y ->]%IH. by exists y.
Qed.

(** [strings.Replace] on a string in which [old] does not occur. *)
Lemma Replace1_absent (s old new : string) :
  (∀ x y : string, s ≠ x +:+ old +:+ y) → Path.Replace1 s old new = s.
Proof.
  induction s as [|c s IH]; intros Hno; rewrite Replace1_unfold.
  - destruct (String.prefix old "") eqn:Hp; [|done].
    apply prefix_inv in Hp as [y Hy]. by destruct (Hno "" y).
  - destruct (String.prefix old (String c s)) eqn:Hp.
    + apply prefix_inv in Hp as [y Hy]. by destruct (Hno "" y).
    + rewrite IH; [done|]. intros x y ->. by destruct (Hno (String c x) y).
Qed.

(** Where [Copy] hands over to its goroutines: the filesystem is well
    formed and [from] resolves to a directory. *)
Lemma Copying_sound c from to w c1 s0 :
  wf (files w) →
  Copy c from to w = Copying c1 s0 →
  wf (files (st_world s0))
  ∧ (∀ k nd, files w !! k = Some nd → files (st_world s0) !! k = Some nd)
  ∧ is_Some (files (st_world s0) !! Path.key from)
  ∧ s0 = copier_copy (Parallel c) (default ∅ (seen c)) from (st_world s0).
Proof.
  intros Hwf Hc.
  apply Copy_Copying in Hc as (_ & perm & fs' & Hf & _ & Hmk & _ & ->).
  destruct (mkdir_from_spec _ _ _ _ _ Hmk) as (Ha & _ & _). simpl.
  split; [|split; [done|split; [|done]]].
  - eapply mkdir_from_wf; [exact Hwf| |exact Hmk]. apply key_good.
  - apply resolve_Some in Hf. eauto.
Qed.

(** ** The walk on a well-formed filesystem *)

(** X22. On a well-formed filesystem the walk of a directory copy never
    fails, whatever [from] and [to] are, also when one lies inside the
    other: in every execution the walker sends no error and never sends
    on the closed failure channel. The errors collected or about to be
    are then those of the transfers that failed, and [Copy] returns
    [nil] exactly when no transfer has failed. *)
Theorem walk_never_fails c from to w c1 s0 acts s :
  wf (files w) →
  Copy c from to w = Copying c1 s0 →
  exec from to acts s0 = Some s →
  match st_walker s with Failing _ | Panicked => False | _ => True end
  ∧ st_errs s ++ reporting (st_workers s) ≡ₚ failed (st_ran s)
  ∧ ∀ r, st_result s = Some r →
      st_errs s ≡ₚ failed (st_ran s) ∧ (r = None ↔ failed (st_ran s) = []).
Proof.
  intros Hwf Hc He.
  destruct (Copying_sound _ _ _ _ _ _ Hwf Hc) as (Hwf0 & _ & Hfrom & Hs0).
  assert (Hinv : walk_sound s ∧ errors_accounted s []).
  { eapply (exec_invariant from to
              (λ s1, walk_sound s1 ∧ errors_accounted s1 []));
      [| |exact He].
    - intros a s1 s2 [Hw Hea] Hs. split; [by eapply walk_sound_step|].
      destruct (errors_accounted_step _ _ _ _ _ _ Hea Hs)
        as (l' & Hl' & [->|[e Hf]]); [done|].
      pose proof (ws_walker _ Hw) as Hwk. by rewrite Hf in Hwk.
    - split.
      + rewrite Hs0. split; simpl; try done.
        intros path ->%list_elem_of_singleton. done.
      + rewrite Hs0. apply errors_accounted_init. }
  destruct Hinv as [[_ _ Hwalker] [Hp _ _ _ _]]. rewrite app_nil_r in Hp.
  split; [done|]. split; [done|]. intros r Hr.
  rewrite Hs0 in He.
  pose proof (exec_winding_down _ _ _ _ _ _ _ He) as [_ Hcl Hres].
  destruct (Hres r Hr) as [Hclosed ->].
  rewrite (all_exited_no_reporting _ (Hcl Hclosed)), app_nil_r in Hp.
  split; [done|]. destruct (st_errs s) as [|e errs]; simpl.
  - symmetry in Hp. apply Permutation_nil_r in Hp. done.
  - split; [done|]. intros Hnil. rewrite Hnil in Hp.
    by apply Permutation_nil_r in Hp.
Qed.

Lemma walk_never_fails_witness :
  ∃ c1 s0 s,
    Copy Fixture.plain_copier "p" "p/z" Fixture.nested = Copying c1 s0
    ∧ exec "p" "p/z" Fixture.nested_run s0 = Some s
    ∧ st_errs s ≡ₚ failed (st_ran s)
    ∧ st_result s = Some None.
Proof.
  destruct (Copy Fixture.plain_copier "p" "p/z" Fixture.nested)
    as [|c1 s0] eqn:Hc; [vm_compute in Hc; discriminate Hc|].
  destruct (exec "p" "p/z" Fixture.nested_run s0) as [s|] eqn:He;
    [|vm_compute in Hc; injection Hc as <- <-;
      vm_compute in He; discriminate He].
  destruct (st_result s) as [r|] eqn:Hr;
    [|vm_compute in Hc; injection Hc as <- <-;
      vm_compute in He; injection He as <-;
      vm_compute in Hr; discriminate Hr].
  exists c1, s0, s. split; [reflexivity|]. split; [exact He|].
  assert (Hw : wf (files Fixture.nested)).
  { apply wfb_wf. vm_compute. reflexivity. }
  destruct (walk_never_fails Fixture.plain_copier "p" "p/z" Fixture.nested
              c1 s0 _ s Hw Hc He) as (_ & _ & Hres).
  destruct (Hres r Hr) as [Hp Hnil]. split; [exact Hp|].
  rewrite Hr. f_equal. apply Hnil.
  vm_compute in Hc. injection Hc as <- <-.
  vm_compute in He. injection He as <-. reflexivity.
Defined.

(** X23. With [Parallel] set to 1, an empty Seen-set and a regular file
    somewhere below [from], on a well-formed filesystem: the walker
    never gets to the end of the walk. In every execution it has still a
    path to visit or is blocked sending a job that no worker will ever
    receive, so that [work] is never closed, while [Copy] can return
    [nil] all the same. *)
Theorem walker_is_held_forever_with_Parallel_1
  c from to rel p d w c1 s0 acts s :
  wf (files w) →
  Parallel c = 1%Z →
  default ∅ (seen c) = ∅ →
  files w !! (Path.key from ++ rel) = Some (File p d) →
  Copy c from to w = Copying c1 s0 →
  exec from to acts s0 = Some s →
  st_workers s = []
  ∧ match st_walker s with
    | Walking (_ :: _) | Sending _ _ => True
    | _ => False
    end.
Proof.
  intros Hwf Hpar Hseen Hfile Hc He.
  destruct (Copying_sound _ _ _ _ _ _ Hwf Hc) as (Hwf0 & Hsub & Hfrom & Hs0).
  apply Hsub in Hfile.
  assert (Hinv : walker_held (Path.key from ++ rel) (files (st_world s0)) s).
  { eapply exec_invariant; [| |exact He].
    - intros a s1 s2. by eapply walker_held_step.
    - rewrite Hs0 at 2. split; simpl; try done.
      + by rewrite Hpar.
      + split; [done|]. split.
        * intros path ->%list_elem_of_singleton. done.
        * exists from. split; [by apply list_elem_of_singleton|].
          by apply prefix_app_r. }
  destruct Hinv as [_ Hws Hwalker]. split; [done|].
  destruct (st_walker s) as [[|path todo]| | | |]; try done.
  destruct Hwalker as (_ & _ & path0 & Hin & _). by apply elem_of_nil in Hin.
Qed.

Lemma walker_is_held_forever_with_Parallel_1_witness :
  ∃ c1 s0 s j todo,
    Copy (Fixture.with_parallel 1) "from" "to" Fixture.tree = Copying c1 s0
    ∧ exec "from" "to" Fixture.idle_run s0 = Some s
    ∧ st_result s = Some None
    ∧ st_walker s = Sending j todo.
Proof.
  destruct (Copy (Fixture.with_parallel 1) "from" "to" Fixture.tree)
    as [|c1 s0] eqn:Hc; [vm_compute in Hc; discriminate Hc|].
  destruct (exec "from" "to" Fixture.idle_run s0) as [s|] eqn:He;
    [|vm_compute in Hc; injection Hc as <- <-;
      vm_compute in He; discriminate He].
  assert (Hw : wf (files Fixture.tree)).
  { apply wfb_wf. vm_compute. reflexivity. }
  assert (Hf : files Fixture.tree !! (Path.key "from" ++ ["a"])
               = Some (File 420 "xy")) by reflexivity.
  destruct (walker_is_held_forever_with_Parallel_1
              (Fixture.with_parallel 1) "from" "to" ["a"] 420 "xy"
              Fixture.tree c1 s0 _ s Hw eq_refl eq_refl Hf Hc He)
    as [_ Hwalker].
  destruct (st_walker s) as [[|path todo]|j todo| | |] eqn:Hwk; try done.
  - exfalso. vm_compute in Hc. injection Hc as <- <-.
    vm_compute in He. injection He as <-. discriminate Hwk.
  - exists c1, s0, s, j, todo. split; [reflexivity|]. split; [exact He|].
    split; [|exact Hwk].
    vm_compute in Hc. injection Hc as <- <-.
    vm_compute in He. injection He as <-. reflexivity.
Defined.

(** ** The walk function on a path in which [from] does not occur *)

(** X24. When [from] does not occur in the path passed to the walk
    function, which [afero.Walk] has cleaned while [from] is as it was
    given (for example [./src], whose files are passed as [src/...]),
    [strings.Replace] removes nothing and the regular file is sent to
    [Join(to, path)]: below [to], the whole path, with the directories
    of [from]. *)
Theorem walker_keeps_the_whole_path_without_from from to path info sn :
  (∀ x y : string, path ≠ x +:+ from +:+ y) →
  IsDir info = false →
  let dest := Path.Join2 to path in
  walker_visit from to path info sn
  = if decide (dest ∈ sn) then (sn, None)
    else ({[dest]} ∪ sn, Some {| From := path; To := dest |}).
Proof.
  intros Hno Hi. cbv zeta. unfold walker_visit. rewrite Hi.
  by rewrite Replace1_absent.
Qed.

Lemma walker_keeps_the_whole_path_without_from_witness :
  walker_visit "./from" "to" "from/a" {| IsDir := false; Mode := 420 |} ∅
  = ({["to/from/a"]} ∪ ∅, Some {| From := "from/a"; To := "to/from/a" |}).
Proof.
  assert (Hno : ∀ x y : string, "from/a" ≠ x +:+ "./from" +:+ y).
  { intros x y Heq. pose proof (f_equal String.length Heq) as Hl.
    rewrite !length_append in Hl. simpl in Hl.
    destruct x as [|c x]; [|simpl in Hl; lia].
    by rewrite append_nil_l in Heq. }
  pose proof (walker_keeps_the_whole_path_without_from "./from" "to" "from/a"
                {| IsDir := false; Mode := 420 |} ∅ Hno eq_refl) as H.
  cbv zeta in H. rewrite decide_False in H by apply not_elem_of_empty.
  exact H.
Defined.

(** ** What a directory copy leaves alone *)

Section Untouched.
Context (from to : string).

Lemma untouched_step fs0 a s s' :
  wf (files (st_world s)) →
  untouched fs0 (files (st_world s)) (st_ran s) →
  step from to a s = Some s' →
  untouched fs0 (files (st_world s')) (st_ran s').
Proof.
  intros Hwf Hu Hs. destruct a; simpl in Hs.
  - destruct (st_walker s) as [[|path todo]| | | |]; simplify_eq.
    destruct (visit_bookkeeping from to path todo s)
      as (_ & -> & _ & _ & _ & -> & _). done.
  - destruct (st_walker s) as [[|path todo]| | | |]; simplify_eq. done.
  - destruct (st_walker s), (st_workers s !! i) as [[]|]; simplify_eq. done.
  - destruct (st_workers s !! i) as [[|j| |]|] eqn:Hi; simplify_eq.
    destruct (copyFile (From j) (To j) (st_world s)) as [r w'] eqn:Hcp.
    simplify_eq. simpl.
    destruct (copyFile_effect _ _ _ _ _ Hwf Hcp) as [_ [Ho _ _]].
    intros k nd Hk Hno. apply Ho.
    + apply Hu; [done|]. intros j' Hj'. apply Hno.
      rewrite fmap_app. by apply elem_of_app; left.
    + intros Heq. apply (Hno j); [|done].
      rewrite fmap_app. apply elem_of_app; right. by apply elem_of_cons; left.
  - destruct (st_workers s !! i) as [[]|], (st_result s); simplify_eq. done.
  - destruct (st_walker s), (st_result s), (st_closed s); simplify_eq; done.
  - destruct (st_walker s), (st_workers s !! i) as [[]|]; simplify_eq. done.
  - destruct (_ && _); simplify_eq. done.
  - destruct (st_result s), (st_closed s); simplify_eq. done.
Qed.

End Untouched.

(** X25. On a well-formed filesystem a directory copy writes to the
    destinations of the transfers it runs and nowhere else: in every
    execution, an entry that existed when [Copy] was called and at which
    no transfer run so far was aimed is exactly as it was. What was at
    [to] without a counterpart below [from] is left alone. *)
Theorem Copy_writes_to_the_destinations_of_its_jobs_only
  c from to w c1 s0 acts s :
  wf (files w) →
  Copy c from to w = Copying c1 s0 →
  exec from to acts s0 = Some s →
  ∀ k nd, files w !! k = Some nd →
    (∀ j, j ∈ (st_ran s).*1 → Path.key (To j) ≠ k) →
    files (st_world s) !! k = Some nd.
Proof.
  intros Hwf Hc He.
  destruct (Copying_sound _ _ _ _ _ _ Hwf Hc) as (Hwf0 & Hsub & _ & Hs0).
  assert (Hinv : wf (files (st_world s))
                 ∧ untouched (files w) (files (st_world s)) (st_ran s)).
  { eapply (exec_invariant from to
              (λ s1, wf (files (st_world s1))
                     ∧ untouched (files w) (files (st_world s1)) (st_ran s1)));
      [| |exact He].
    - intros a s1 s2 [Hw1 Hu1] Hs. split.
      + by destruct (step_kept _ _ _ _ _ Hw1 Hs).
      + by eapply untouched_step.
    - split; [done|]. intros k nd Hk _. by apply Hsub. }
  apply Hinv.
Qed.

Lemma Copy_writes_to_the_destinations_of_its_jobs_only_witness :
  ∃ c1 s0 s,
    Copy Fixture.clobbering "from" "to" Fixture.partial = Copying c1 s0
    ∧ exec "from" "to" [AVisit; AVisit; AHandOff 0; ATransfer 0] s0 = Some s
    ∧ files (st_world s) !! ["to"; "b"] = Some (Dir 493).
Proof.
  destruct (Copy Fixture.clobbering "from" "to" Fixture.partial)
    as [|c1 s0] eqn:Hc; [vm_compute in Hc; discriminate Hc|].
  destruct (exec "from" "to" [AVisit; AVisit; AHandOff 0; ATransfer 0] s0)
    as [s|] eqn:He;
    [|vm_compute in Hc; injection Hc as <- <-;
      vm_compute in He; discriminate He].
  exists c1, s0, s. split; [reflexivity|]. split; [exact He|].
  assert (Hw : wf (files Fixture.partial)).
  { apply wfb_wf. vm_compute. reflexivity. }
  apply (Copy_writes_to_the_destinations_of_its_jobs_only
           Fixture.clobbering "from" "to" Fixture.partial c1 s0 _ s Hw Hc He);
    [reflexivity|].
  intros j Hj.
  vm_compute in Hc. injection Hc as <- <-.
  vm_compute in He. injection He as <-.
  apply list_elem_of_singleton in Hj. subst j. vm_compute. discriminate.
Defined.

(** ** A lateral directory copy cannot get stuck *)

Section ExitIdle.
Context (from to : string).

(** With the walk over, the workers that are idle exit. *)
Lemma exit_idle rest :
  ∀ s pre,
    st_walker s = Finished →
    st_workers s = pre ++ rest →
    Forall (λ wr, wr = Idle ∨ wr = Exited) rest →
    ∃ acts s', exec from to acts s = Some s'
               ∧ st_workers s' = pre ++ replicate (length rest) Exited
               ∧ st_walker s' = Finished
               ∧ st_closed s' = st_closed s ∧ st_errs s' = st_errs s
               ∧ st_result s' = st_result s.
Proof.
  induction rest as [|wr rest IH]; intros s pre Hwk Hws Hrest.
  - exists [], s. simpl. by rewrite Hws.
  - apply Forall_cons in Hrest as [[->| ->] Hrest].
    + destruct (IH (set_worker s (length pre) Exited) (pre ++ [Exited]))
        as (acts & s' & He & H1 & H2 & H3 & H4 & H5); [done| |done|].
      { simpl. rewrite Hws.
        rewrite insert_app_r_alt by lia. rewrite Nat.sub_diag. simpl.
        by rewrite <- app_assoc. }
      exists (AExit (length pre) :: acts), s'. split.
      { simpl. rewrite Hwk, Hws.
        rewrite lookup_app_r by lia. rewrite Nat.sub_diag. simpl. exact He. }
      rewrite H1, <- app_assoc. done.
    + destruct (IH s (pre ++ [Exited]))
        as (acts & s' & He & H1 & H2 & H3 & H4 & H5); [done| |done|].
      { rewrite Hws. by rewrite <- app_assoc. }
      exists acts, s'. split; [done|]. rewrite H1, <- app_assoc. done.
Qed.

Lemma busy_lookup (ws : list worker) :
  busy_jobs ws ≠ [] → ∃ i j, ws !! i = Some (Busy j).
Proof.
  induction ws as [|wr ws IH]; [done|]. intros Hb.
  destruct wr as [|j| |]; try (destruct IH as (i & j & Hi); [done|];
                               by exists (S i), j).
  by exists 0, j.
Qed.

End ExitIdle.

Section LateralLive.
Context (rf rt : bool) (F T : list string).
Context (fs0 : gmap (list string) node) (seen0 : gset string).
Context (HF : F ≠ []) (HT : T ≠ []).
Context (HgT : Forall good_name T).
Context (Hun : unrelated F T).
Context (Hwf0 : wf fs0).
Context (HFdir : ∃ p, fs0 !! F = Some (Dir p)).
Context (Hseen0 : ∀ rel, Forall good_name rel →
                         render rt (T ++ rel) ∉ seen0).

(** The bookkeeping of the walk, along any step. *)
Lemma walk_inv_step a s s' visited :
  lateral_inv rf rt F T fs0 seen0 s →
  walk_inv F fs0 visited (todo_of (st_walker s)) →
  step (render rf F) (render rt T) a s = Some s' →
  ∃ visited', walk_inv F fs0 visited' (todo_of (st_walker s')).
Proof.
  intros Hinv Hwalk Hs. destruct a; simpl in Hs.
  - (* visit *)
    destruct (st_walker s) as [[|p todo]| | | |] eqn:Hwk; simplify_eq.
    simpl in Hwalk.
    destruct (todo_head rf rt F T fs0 seen0 HF Hwf0 s p todo Hinv Hwk)
      as (rel0 & -> & Hs0 & Hkey).
    exists ((F ++ rel0) :: visited).
    pose proof Hs0 as [n0 Hn0].
    assert (Hlook : resolve (files (st_world s))
                      (Path.key (render rf (F ++ rel0))) = inr n0).
    { rewrite Hkey. apply resolve_wf; [by apply Hinv|].
      by rewrite (li_src _ _ _ _ _ _ _ Hinv). }
    destruct n0 as [pm d|perm].
    + destruct (visit_file (render rf F) (render rt T) _ todo s pm d Hlook)
        as (w' & Hw' & ->).
      cbv zeta. case_decide; simpl; by eapply walk_inv_visited.
    + destruct (visit_dir (render rf F) (render rt T) _ todo s perm Hlook)
        as (w' & Hw' & ->).
      simpl. rewrite Hkey.
      set (names := Fs.readDirNames (files (st_world s)) (F ++ rel0)).
      assert (Hchild : ∀ c, c ∈ names → is_Some (fs0 !! (F ++ rel0 ++ [c]))).
      { intros c Hc. apply elem_of_readDirNames in Hc.
        by rewrite <- app_assoc, (li_src _ _ _ _ _ _ _ Hinv) in Hc. }
      assert (Hjoin : Path.Join2 (render rf (F ++ rel0)) <$> names
                      = render rf <$> ((λ c, F ++ rel0 ++ [c]) <$> names)).
      { rewrite <- list_fmap_compose.
        apply Forall_fmap_ext_1, Forall_forall. intros c Hc. simpl.
        pose proof (good_in_fs0 F fs0 _ Hwf0 (Hchild c Hc)) as Hg.
        rewrite app_assoc in Hg. apply Forall_app in Hg as [Hg1 Hg2].
        apply Forall_inv in Hg2.
        rewrite Join2_name; [by rewrite <- app_assoc|by destruct F|done..]. }
      rewrite Hjoin.
      apply (walk_inv_children rf F fs0 HF Hwf0 visited
               (render rf (F ++ rel0))); try done.
      apply NoDup_readDirNames.
  - destruct (st_walker s) as [[|p todo]| | | |] eqn:Hwk; simplify_eq.
    by exists visited.
  - destruct (st_walker s) as [todo|j todo| | |] eqn:Hwk; simplify_eq.
    destruct (st_workers s !! i) as [[]|]; simplify_eq. by exists visited.
  - destruct (st_workers s !! i) as [[|j| |]|]; simplify_eq.
    destruct (copyFile _ _ _). simplify_eq. by exists visited.
  - destruct (st_workers s !! i) as [[]|], (st_result s); simplify_eq.
    by exists visited.
  - pose proof (li_walker _ _ _ _ _ _ _ Hinv) as Hw.
    by destruct (st_walker s); simplify_eq.
  - destruct (st_walker s) eqn:Hwk; simplify_eq.
    destruct (st_workers s !! i) as [[]|]; simplify_eq.
    exists visited. simpl. by rewrite Hwk.
  - destruct (_ && _); simplify_eq. by exists visited.
  - destruct (st_result s), (st_closed s); simplify_eq. by exists visited.
Qed.

(** The workers that hold a job run their transfers. *)
Lemma flush n :
  ∀ s, lateral_inv rf rt F T fs0 seen0 s →
       length (busy_jobs (st_workers s)) ≤ n →
       ∃ acts s',
         exec (render rf F) (render rt T) acts s = Some s'
         ∧ lateral_inv rf rt F T fs0 seen0 s'
         ∧ busy_jobs (st_workers s') = []
         ∧ st_walker s' = st_walker s.
Proof.
  induction n as [|n IH]; intros s Hinv Hlen.
  - exists [], s. split; [done|]. split; [done|]. split; [|done].
    destruct (busy_jobs (st_workers s)); [done|simpl in Hlen; lia].
  - destruct (decide (busy_jobs (st_workers s) = [])) as [Hnil|Hne].
    { by exists [], s. }
    destruct (busy_lookup _ Hne) as (i & j & Hi).
    destruct (inv_transfer rf rt F T fs0 seen0 HF HT HgT Hun Hwf0 Hseen0
                i j s Hinv Hi) as (w' & Hcp & Hinv').
    match type of Hinv' with
    | lateral_inv _ _ _ _ _ _ ?st => set (s1 := st) in *
    end.
    assert (Hstep : step (render rf F) (render rt T) (ATransfer i) s
                    = Some s1).
    { simpl. rewrite Hi, Hcp. done. }
    destruct (IH s1 Hinv') as (acts & s' & He & Hinv2 & Hb & Hwk).
    { simpl.
      pose proof (busy_jobs_release (st_workers s) i j Idle Hi) as Hp.
      apply Permutation_length in Hp; [|done]. simpl in Hp. lia. }
    exists (ATransfer i :: acts), s'.
    rewrite (exec_cons _ _ _ _ _ _ Hstep). done.
Qed.

Lemma idle_or_exited s :
  lateral_inv rf rt F T fs0 seen0 s →
  busy_jobs (st_workers s) = [] →
  Forall (λ wr, wr = Idle ∨ wr = Exited) (st_workers s).
Proof.
  intros Hinv Hb. apply Forall_forall. intros wr Hwr.
  destruct wr as [|j|e|]; auto.
  - assert (Hj : j ∈ busy_jobs (st_workers s)).
    { apply list_elem_of_omap. by exists (Busy j). }
    rewrite Hb in Hj. by apply elem_of_nil in Hj.
  - apply list_elem_of_lookup in Hwr as [i Hi].
    by destruct (li_workers _ _ _ _ _ _ _ Hinv i e).
Qed.

Lemma all_idle s :
  lateral_inv rf rt F T fs0 seen0 s →
  busy_jobs (st_workers s) = [] →
  st_walker s ≠ Finished →
  quiet s.
Proof.
  intros Hinv Hb Hwk.
  assert (Hidle : Forall (λ wr, wr = Idle) (st_workers s)).
  { pose proof (idle_or_exited s Hinv Hb) as Hio.
    apply Forall_forall. intros wr Hin.
    destruct (proj1 (Forall_forall _ _) Hio wr Hin) as [->| ->]; [done|].
    by apply (li_exit _ _ _ _ _ _ _ Hinv) in Hin. }
  assert (Hcl : st_closed s = false).
  { destruct (st_closed s) eqn:Hc; [|done].
    apply (li_closed _ _ _ _ _ _ _ Hinv) in Hc.
    pose proof (li_some _ _ _ _ _ _ _ Hinv) as Hne.
    destruct (st_workers s) as [|wr ws]; [done|].
    apply Forall_cons in Hidle as [-> _]. done. }
  split; [done|]. split; [done|].
  destruct (st_result s) as [r|] eqn:Hr; [|done].
  destruct (li_result _ _ _ _ _ _ _ Hinv r Hr). congruence.
Qed.

(** From wherever a lateral copy stands, [Copy] can still return. *)
Lemma lateral_completes s visited :
  lateral_inv rf rt F T fs0 seen0 s →
  walk_inv F fs0 visited (todo_of (st_walker s)) →
  ∃ acts s', exec (render rf F) (render rt T) acts s = Some s'
             ∧ st_result s' = Some None.
Proof.
  intros Hinv0 Hwalk0.
  destruct (flush _ s Hinv0 (le_n _)) as (acts1 & s1 & He1 & Hinv & Hb & Hwk1).
  rewrite <- Hwk1 in Hwalk0. clear Hwk1.
  cut (∃ acts s', exec (render rf F) (render rt T) acts s1 = Some s'
                  ∧ st_result s' = Some None).
  { intros (acts & s' & He & Hr). exists (acts1 ++ acts), s'.
    rewrite exec_app, He1. done. }
  clear He1 Hinv0 s acts1.
  destruct (st_walker s1) as [todo|j todo|e| |] eqn:Hwk.
  - (* walking *)
    apply (lateral_returns rf rt F T fs0 seen0 HF HT HgT Hun Hwf0 HFdir
             Hseen0 (size (dom fs0)) visited s1 todo); try done; [lia|].
    apply all_idle; [done|done|congruence].
  - (* sending: worker 0 takes the job and runs it *)
    assert (Hq : quiet s1) by (apply all_idle; [done|done|congruence]).
    destruct Hq as (Hidle & Hcl & Hres).
    assert (Hw0 : st_workers s1 !! 0 = Some Idle).
    { pose proof (li_some _ _ _ _ _ _ _ Hinv) as Hne.
      destruct (st_workers s1) as [|wr ws]; [done|].
      by apply Forall_cons in Hidle as [-> _]. }
    assert (Hstep2 : step (render rf F) (render rt T) (AHandOff 0) s1
              = Some (set_worker (set_walker s1 (Walking todo)) 0 (Busy j))).
    { simpl. by rewrite Hwk, Hw0. }
    pose proof (inv_step rf rt F T fs0 seen0 HF HT HgT Hun Hwf0 HFdir
                  Hseen0 _ _ _ Hinv Hstep2) as Hinv2.
    destruct (inv_transfer rf rt F T fs0 seen0 HF HT HgT Hun Hwf0 Hseen0
                0 j _ Hinv2) as (w3 & Hcp & Hinv3).
    { simpl. apply list_lookup_insert_eq. by apply lookup_lt_Some in Hw0. }
    match type of Hinv3 with
    | lateral_inv _ _ _ _ _ _ ?st => set (s3 := st) in *
    end.
    assert (Hstep3 : step (render rf F) (render rt T) (ATransfer 0)
                       (set_worker (set_walker s1 (Walking todo)) 0 (Busy j))
                     = Some s3).
    { simpl. rewrite list_lookup_insert_eq by by apply lookup_lt_Some in Hw0.
      simpl in Hcp |- *. by rewrite Hcp. }
    destruct (lateral_returns rf rt F T fs0 seen0 HF HT HgT Hun Hwf0 HFdir
                Hseen0 (size (dom fs0)) visited s3 todo)
      as (acts & s' & He & Hr); try done; [lia| |].
    { split; [|by split]. simpl.
      rewrite list_insert_insert_eq. by apply Forall_insert. }
    exists (AHandOff 0 :: ATransfer 0 :: acts), s'.
    rewrite (exec_cons _ _ _ _ _ _ Hstep2).
    by rewrite (exec_cons _ _ _ _ _ _ Hstep3).
  - by pose proof (li_walker _ _ _ _ _ _ _ Hinv) as Hw; rewrite Hwk in Hw.
  - (* the walk is over *)
    destruct (st_result s1) as [r|] eqn:Hr.
    { destruct (li_result _ _ _ _ _ _ _ Hinv r Hr) as [_ ->].
      by exists [], s1. }
    destruct (exit_idle (render rf F) (render rt T) (st_workers s1) s1 [])
      as (acts & s2 & He & Hws & Hwk2 & Hcl & Herrs & Hres);
      [done|done|by apply idle_or_exited|].
    simpl in Hws.
    pose proof (li_errs _ _ _ _ _ _ _ Hinv) as Hnil.
    destruct (st_closed s1) eqn:Hc.
    + eexists (acts ++ [ACollect]), _. rewrite exec_app, He. simpl.
      rewrite Hres, Hr, Hcl. simpl. split; [reflexivity|]. simpl.
      by rewrite Herrs, Hnil.
    + eexists (acts ++ [ACloseFailures; ACollect]), _.
      rewrite exec_app, He. simpl.
      rewrite Hws, all_exited_replicate, Hcl. simpl.
      rewrite Hres, Hr. simpl. split; [reflexivity|]. simpl.
      by rewrite Herrs, Hnil.
  - by pose proof (li_walker _ _ _ _ _ _ _ Hinv) as Hw; rewrite Hwk in Hw.
Qed.

End LateralLive.


